(** * QuickFAST: presence-map codec, multicast receiver and profiler

    A shallow embedding of [src/Codecs/PresenceMap.cpp], of
    [src/Codecs/MulticastReceiver.h] and of [src/Common/Profiler.h], with
    the properties of the specification, and further properties of the
    code, stated and proved over it.

    Conventions of the embedding.
    - [uchar] is a [Z] in [0, 256); [size_t] is a [Z] taken modulo [2^64]
      wherever the code does arithmetic on a caller-supplied or counted
      value; positions inside a buffer are [nat] indices of the list that
      holds the buffer.
    - An array access outside the allocated buffer is undefined behaviour
      in C++: every function that touches memory returns an [option], and
      [None] stands for such an access (or for a failed [assert]).
    - Output streams, sockets and the consumer's callbacks are recorded as
      events in a trace. *)

From Stdlib Require Import ZArith Bool Lia ZifyNat String.
From Stdlib Require Floats.
From stdpp Require Import base option list sets strings pretty.

#[local] Open Scope Z_scope.

(** ** Common/Types.h and the arithmetic of [size_t] *)

(** [typedef unsigned char uchar;] *)
Abbreviation uchar := Z (only parsing).

(** [size_t] arithmetic wraps modulo [2^64]. *)
Definition size_t_max : Z := 2 ^ 64.
Definition wrap (z : Z) : Z := z mod size_t_max.

Module PresenceMap.

(** Modelled from the spec: the constants of [Codecs/PresenceMap.h] and
    [Common/Constants.h], which are not among the sources. The cursor's
    initial mask is 0x40 (the high data bit), the stop bit is 0x80, and the
    seven data bits are 0x7F. *)
Definition startByteMask : uchar := 0x40.
Definition stopBit : uchar := 0x80.
Definition dataBits : uchar := 0x7F.

(** The members of [class PresenceMap]. The buffer [bits_] (either the
    inline [internalBuffer_] or the heap [externalBuffer_]) is kept as the
    list of its bytes; [byteCapacity_] is the number of bytes allocated for
    it, which every member function keeps equal to the size of the array
    [bits_] points to. The trace stream [vout_] is null unless a test turns
    it on and only prints; it is left out. *)
Record t : Type := mk {
  bitMask_ : uchar;
  bytePosition_ : nat;
  bits_ : list uchar
}.

Definition byteCapacity_ (pm : t) : nat := length (bits_ pm).

(** [bits_[pos]] as an rvalue. *)
Definition readByte (pm : t) (pos : nat) : option uchar := bits_ pm !! pos.

(** [bits_[pos] = byte]. *)
Definition writeByte (pos : nat) (byte : uchar) (pm : t) : option t :=
  if decide (pos < byteCapacity_ pm)%nat
  then Some (mk (bitMask_ pm) (bytePosition_ pm) (<[pos := byte]> (bits_ pm)))
  else None.

(** [PresenceMap::PresenceMap(size_t bits)]; [defaultByteCapacity_] is the
    size of the inline buffer, declared in the header. *)
Definition make (defaultByteCapacity_ : nat) (bits : Z) : t :=
  let bytesNeeded := Z.to_nat (wrap (bits + 6) / 7) in
  let byteCapacity :=
    if decide (defaultByteCapacity_ < bytesNeeded)%nat
    then bytesNeeded else defaultByteCapacity_ in
  mk startByteMask 0 (replicate byteCapacity 0).

(** [PresenceMap::rewind] *)
Definition rewind (pm : t) : t := mk startByteMask 0 (bits_ pm).

(** What a [const uchar *] handed to [setRaw] points to: bytes in memory
    of the caller's own, or the map's buffer, which is where the pointer
    that [getRaw] gives out points. *)
Inductive RawBytes : Type :=
| Elsewhere (bytes : list uchar)
| InMap.

(** The bytes a pointer refers to. *)
Definition bytesAt (buffer : RawBytes) (pm : t) : list uchar :=
  match buffer with
  | Elsewhere bytes => bytes
  | InMap => bits_ pm
  end.

(** [PresenceMap::setRaw]. The buffer of the map is filled with zeros
    before the bytes are copied into it, so bytes that lie in that very
    buffer are zero by the time they are copied. To read [byteLength]
    bytes where fewer lie is undefined; so it is when the pointer refers to
    the map's buffer and [byteLength] exceeds the capacity, as the array
    that is then read is not the longer one just allocated. *)
Definition setRaw (buffer : RawBytes) (byteLength : nat) (pm : t) : option t :=
  let byteCapacity :=
    if decide (byteCapacity_ pm < byteLength)%nat
    then byteLength else byteCapacity_ pm in
  let zeroed := replicate byteCapacity 0 in
  copied ←
    match buffer with
    | Elsewhere bytes =>
        if decide (byteLength <= length bytes)%nat
        then Some (take byteLength bytes) else None
    | InMap =>
        if decide (byteLength <= byteCapacity_ pm)%nat
        then Some (take byteLength zeroed) else None
    end;
  Some (rewind (mk (bitMask_ pm) (bytePosition_ pm) (copied ++ drop byteLength zeroed))).

(** [PresenceMap::getRaw]: a pointer to the buffer and the buffer's
    length, which is the whole capacity. *)
Definition getRaw (pm : t) : RawBytes * nat := (InMap, byteCapacity_ pm).

(** [PresenceMap::grow]: one more byte, zero, after a copy of the old ones. *)
Definition grow (pm : t) : t :=
  mk (bitMask_ pm) (bytePosition_ pm) (bits_ pm ++ [0]).

(** [PresenceMap::appendByte(size_t & pos, uchar byte)]; the result carries
    the updated [pos]. The [assert] fails when [pos] is beyond the
    capacity. *)
Definition appendByte (pos : nat) (byte : uchar) (pm : t) : option (nat * t) :=
  pm1 ← (if decide (byteCapacity_ pm <= pos)%nat
         then (if decide (pos = byteCapacity_ pm) then Some (grow pm) else None)
         else Some pm);
  pm2 ← writeByte pos byte pm1;
  Some (S pos, pm2).

(** The loop [while(bpos > 0 && bits_[bpos] == 0) bpos--;] shared by
    [encodeBytesNeeded] and [encode]. *)
Fixpoint trimZeroBytes (pm : t) (bpos : nat) : option nat :=
  match bpos with
  | O => Some O
  | S bpos' =>
      b ← readByte pm bpos;
      if decide (b = 0) then trimZeroBytes pm bpos' else Some bpos
  end.

(** The value of [bpos] when the trimming loop starts: the cursor's byte,
    or the one before when nothing has been written in the cursor's byte. *)
Definition lastUsedByte (pm : t) : nat :=
  if decide (bitMask_ pm = startByteMask)
  then (bytePosition_ pm - 1)%nat else bytePosition_ pm.

(** "no bits have been written" *)
Definition nothingWritten (pm : t) : bool :=
  bool_decide (bytePosition_ pm = O) && bool_decide (bitMask_ pm = startByteMask).

(** [PresenceMap::encodeBytesNeeded] *)
Definition encodeBytesNeeded (pm : t) : option nat :=
  if nothingWritten pm then Some O
  else
    bpos ← trimZeroBytes pm (lastUsedByte pm);
    Some (bpos + 1)%nat.

(** Modelled from the spec: [DataDestination] ([Codecs/DataDestination.h]
    is not among the sources) is a byte sink; it is kept as the bytes put
    into it so far. *)
Abbreviation DataDestination := (list uchar) (only parsing).

(** Modelled from the spec: [putByte] of [DataDestination] appends the
    byte and never fails. *)
Definition putByte (byte : uchar) (destination : DataDestination) : DataDestination :=
  destination ++ [byte].

(** [for(size_t pos = 0; pos <= bpos; ++pos) destination.putByte(bits_[pos]);]
    with [n] the number of iterations left. *)
Fixpoint putBytes (pm : t) (pos n : nat) (destination : DataDestination)
  : option DataDestination :=
  match n with
  | O => Some destination
  | S n' =>
      b ← readByte pm pos;
      putBytes pm (S pos) n' (putByte b destination)
  end.

(** [PresenceMap::encode]: the map afterwards (the stop bit is written
    into the buffer) and the destination afterwards. *)
Definition encode (pm : t) (destination : DataDestination)
  : option (t * DataDestination) :=
  if nothingWritten pm then Some (pm, destination)
  else
    bpos ← trimZeroBytes pm (lastUsedByte pm);
    b ← readByte pm bpos;
    pm' ← writeByte bpos (Z.lor b stopBit) pm;
    destination' ← putBytes pm' 0 (S bpos) destination;
    Some (pm', destination').

(** [PresenceMap::reset(size_t bitCount)] *)
Definition reset (bitCount : Z) (pm : t) : t :=
  let byteCapacity :=
    if decide (0 < bitCount)
    then
      let bytes := Z.to_nat (wrap (bitCount + 7) / 8) in
      if decide (byteCapacity_ pm < bytes)%nat then bytes else byteCapacity_ pm
    else byteCapacity_ pm in
  rewind (mk (bitMask_ pm) (bytePosition_ pm) (replicate byteCapacity 0)).

(** Modelled from the spec: [DataSource] ([Codecs/DataSource.h] is not
    among the sources) delivers its bytes first in, first out; it is kept
    as the bytes still to come. *)
Abbreviation DataSource := (list uchar) (only parsing).

(** Modelled from the spec: [getByte] of [DataSource] gives the next byte,
    or fails at the end of the input. *)
Definition getByte (source : DataSource) : option (uchar * DataSource) :=
  match source with
  | [] => None
  | byte :: rest => Some (byte, rest)
  end.

(** The loop of [decode], entered with the byte just read. It recurses on
    what is left of the source. *)
Fixpoint decodeLoop (source : DataSource) (byte : uchar) (pos : nat) (pm : t)
  : option (bool * t * DataSource) :=
  if decide (Z.land byte stopBit = 0) then
    '(pos', pm') ← appendByte pos byte pm;
    match source with
    | [] => Some (false, pm', [])
    | next :: rest => decodeLoop rest next pos' pm'
    end
  else
    '(_, pm') ← appendByte pos byte pm;
    Some (true, pm', source).

(** [PresenceMap::decode]: the result, the map and the source afterwards.
    [reset()] is called with the header's default argument, 0. *)
Definition decode (source : DataSource) (pm : t) : option (bool * t * DataSource) :=
  let pm0 := reset 0 pm in
  match getByte source with
  | None => Some (false, pm0, source)
  | Some (byte, rest) => decodeLoop rest byte 0 pm0
  end.

(** [PresenceMap::operator==]. The mask is computed in [int], as C++
    promotes [bitMask_] before negating it. *)
Definition equalMask (bitMask : uchar) : uchar :=
  Z.land (Z.shiftl (- bitMask) 1) dataBits.

Fixpoint samePrefix (lhs rhs : t) (pos n : nat) : option bool :=
  match n with
  | O => Some true
  | S n' =>
      l ← readByte lhs pos;
      r ← readByte rhs pos;
      if decide (l = r) then samePrefix lhs rhs (S pos) n' else Some false
  end.

Definition eqb (lhs rhs : t) : option bool :=
  if decide (bytePosition_ lhs = bytePosition_ rhs) then
    if decide (bitMask_ lhs = bitMask_ rhs) then
      same ← samePrefix lhs rhs 0 (bytePosition_ lhs);
      if same : bool then
        l ← readByte lhs (bytePosition_ lhs);
        r ← readByte rhs (bytePosition_ lhs);
        Some (bool_decide (Z.land (Z.lxor l r) (equalMask (bitMask_ lhs)) = 0))
      else Some false
    else Some false
  else Some false.

(** Modelled from the spec: the cursor arithmetic of [Codecs/PresenceMap.h]
    (not among the sources). After each bit access [bitMask >>= 1]; when
    the mask becomes 0 the cursor wraps to the next byte. *)
Definition advance (pm : t) : t :=
  let bitMask := Z.shiftr (bitMask_ pm) 1 in
  if decide (bitMask = 0)
  then mk startByteMask (S (bytePosition_ pm)) (bits_ pm)
  else mk bitMask (bytePosition_ pm) (bits_ pm).

(** Modelled from the spec: [setNextField(present)] of
    [Codecs/PresenceMap.h] writes one bit at the cursor and advances the
    cursor; a write beyond [byteCapacity] invokes [grow] first. *)
Definition setNextField (present : bool) (pm : t) : option t :=
  let pm1 := if decide (byteCapacity_ pm <= bytePosition_ pm)%nat then grow pm else pm in
  b ← readByte pm1 (bytePosition_ pm1);
  pm2 ← writeByte (bytePosition_ pm1)
         (if present then Z.lor b (bitMask_ pm1)
          else Z.land b (Z.lnot (bitMask_ pm1))) pm1;
  Some (advance pm2).

(** Modelled from the spec: [checkNextField()] of [Codecs/PresenceMap.h]
    reads one bit at the cursor and advances the cursor; bits past the end
    of the buffer read as false. *)
Definition checkNextField (pm : t) : bool * t :=
  (match readByte pm (bytePosition_ pm) with
   | Some b => negb (bool_decide (Z.land b (bitMask_ pm) = 0))
   | None => false
   end, advance pm).

(** Modelled from the spec: bit N is stored at byte N/7 under the mask
    [0x40 >> (N%7)]. *)
Definition maskOfBit (bit : nat) : uchar :=
  Z.shiftr startByteMask (Z.of_nat (bit mod 7)).

(** Modelled from the spec: [checkSpecificField(bit)] of
    [Codecs/PresenceMap.h] reads the bit at an absolute index; a read past
    the end gives false. *)
Definition checkSpecificField (bit : nat) (pm : t) : bool :=
  match readByte pm (bit / 7) with
  | Some b => negb (bool_decide (Z.land b (maskOfBit bit) = 0))
  | None => false
  end.

(** A caller's loop over [setNextField], one call per field. *)
Fixpoint setFields (fields : list bool) (pm : t) : option t :=
  match fields with
  | [] => Some pm
  | present :: rest => pm' ← setNextField present pm; setFields rest pm'
  end.

(** A caller's loop over [checkNextField], [n] calls. *)
Fixpoint checkFields (n : nat) (pm : t) : list bool * t :=
  match n with
  | O => ([], pm)
  | S n' =>
      let '(present, pm1) := checkNextField pm in
      let '(rest, pm2) := checkFields n' pm1 in
      (present :: rest, pm2)
  end.

(** [PresenceMap::maskToBitNumber]. [bitMask <<= 1] is done on a [uchar],
    so the mask is 0 after at most eight shifts: eight rounds of the loop
    always suffice, and [fuel] is never the reason the loop ends. *)
Fixpoint maskToBitNumberLoop (fuel : nat) (bitMask : uchar) (bitNumber : nat) : nat :=
  match fuel with
  | O => bitNumber
  | S fuel' =>
      if decide (bitMask <> startByteMask /\ bitMask <> 0)
      then maskToBitNumberLoop fuel' (Z.shiftl bitMask 1 mod 256) (bitNumber + 1)
      else bitNumber
  end.

Definition maskToBitNumber (bitMask : uchar) : nat :=
  maskToBitNumberLoop 8 bitMask 0.

(** Modelled from the spec: [bitNumber(bytePosition, bitMask)] of
    [Codecs/PresenceMap.h], the index of the bit under the cursor: seven
    bits a byte, and [maskToBitNumber] inside the byte. *)
Definition bitNumber (bytePosition : nat) (bitMask : uchar) : nat :=
  (bytePosition * 7 + maskToBitNumber bitMask)%nat.

(** The bits a map yields from position 0 up to its cursor: rewind, then
    [checkNextField] once for every bit before the cursor. *)
Definition bitsToCursor (pm : t) : list bool :=
  (checkFields (bitNumber (bytePosition_ pm) (bitMask_ pm)) (rewind pm)).1.

(** ** Notions used to state the properties of the presence map *)

(** The mask of the [j]th data bit of a byte, [0x40 >> j]. *)
Definition mask (j : nat) : uchar := Z.shiftr startByteMask (Z.of_nat j).

(** The [j]th data bit of the byte [b], as [checkNextField] tests it. *)
Definition dataBit (b : uchar) (j : nat) : bool :=
  negb (bool_decide (Z.land b (mask j) = 0)).

(** The cursor stands on bit [n]: byte [n/7], mask [0x40 >> (n%7)]. *)
Definition cursorAt (pm : t) (n : nat) : Prop :=
  bytePosition_ pm = (n / 7)%nat /\ bitMask_ pm = mask (n mod 7).

(** Bit [N] of a buffer, past its end false. *)
Definition bitOf (bits : list uchar) (N : nat) : bool :=
  match bits !! (N / 7)%nat with
  | Some b => dataBit b (N mod 7)
  | None => false
  end.

(** What holds of a map after the fields [fields] have been written into a
    new map: the cursor stands behind them, the cursor's byte is allocated
    once a bit has been written in it, no byte carries the stop bit, and
    the buffer holds the fields and zeros after them. *)
Record accumulated (fields : list bool) (pm : t) : Prop := {
  acc_cursor : cursorAt pm (length fields);
  acc_room : (length fields mod 7 <> 0 -> length fields / 7 < byteCapacity_ pm)%nat;
  acc_fits : (length fields / 7 <= byteCapacity_ pm)%nat;
  acc_data : Forall (fun b => 0 <= b < 128) (bits_ pm);
  acc_bits : forall N, bitOf (bits_ pm) N = default false (fields !! N)
}.

(** The byte does not carry the stop bit. *)
Definition noStop (byte : uchar) : Prop := Z.land byte stopBit = 0.

(** The outcome of [decode]: either it stopped on the first byte [t] that
    carries the stop bit, having stored the bytes up to it, or the source
    ran out and all its bytes were stored. *)
Definition decoded (source : DataSource) (ok : bool) (bits : list uchar) (rest : DataSource)
  : Prop :=
  (ok = true /\
   exists pre t k, source = pre ++ t :: rest /\ Forall noStop pre /\ ~ noStop t /\
                   bits = (pre ++ [t]) ++ replicate k 0) \/
  (ok = false /\ rest = [] /\ Forall noStop source /\
   exists k, bits = source ++ replicate k 0).

(** The bytes that [bitCount] bits take, seven to a byte. *)
Definition bytesForBits (bitCount : Z) : Z := (bitCount + 6) / 7.

(** The data bits before the cursor's bit in the cursor's byte. *)
Fixpoint maskBelow (j : nat) : uchar :=
  match j with
  | O => 0
  | S j' => Z.lor (maskBelow j') (mask j')
  end.

(** The conditions under which [operator==] is specified: the mask is one
    of the seven data bits, the cursor's byte is inside the buffer, the
    bytes are bytes, and no byte before the cursor carries the stop bit
    (as is the case while a map is filled). *)
Record comparable (pm : t) : Prop := {
  cmp_mask : exists j, (j < 7)%nat /\ bitMask_ pm = mask j;
  cmp_inside : (bytePosition_ pm < byteCapacity_ pm)%nat;
  cmp_bytes : Forall (fun b => 0 <= b < 256) (bits_ pm);
  cmp_noStop : Forall noStop (take (bytePosition_ pm) (bits_ pm))
}.

(** The invariant the specification documents for the mask: it is one of
    0x40, 0x20, 0x10, 0x08, 0x04, 0x02, 0x01, 0x00. *)
Definition singleBit (pm : t) : Prop :=
  bitMask_ pm = 0 \/ exists j, (j < 7)%nat /\ bitMask_ pm = mask j.

End PresenceMap.

(** * The multicast receiver *)

Module MulticastReceiver.

(** Modelled from the spec: [LinkedBuffer] ([Common/LinkedBuffer.h] is
    not among the sources) owns a byte array of fixed capacity and records
    a used length. A buffer is referenced from one place at a time (the
    idle pool, the socket, the service queue or the servicing thread), so
    the model moves the buffer itself; [address] tells the buffers apart. *)
Record LinkedBuffer : Type := {
  address : nat;
  capacity : Z;
  used : Z
}.

(** Modelled from the spec: [buffer->setUsed(n)]. *)
Definition setUsed (n : Z) (buffer : LinkedBuffer) : LinkedBuffer :=
  {| address := address buffer; capacity := capacity buffer; used := n |}.

(** Modelled from the spec: [SimpleBufferCollection], the type of the idle
    pool and of the servicer's local set of idle buffers, is an intrusive
    LIFO stack. *)
Abbreviation SimpleBufferCollection := (list LinkedBuffer) (only parsing).

(** Modelled from the spec: [collection.push(buffer)]. *)
Definition push (buffer : LinkedBuffer) (collection : SimpleBufferCollection)
  : SimpleBufferCollection := buffer :: collection.

(** Modelled from the spec: [collection.push(other)], all the buffers of
    [other] at once. *)
Definition pushAll (other collection : SimpleBufferCollection)
  : SimpleBufferCollection := other ++ collection.

(** Modelled from the spec: [collection.pop()], a null pointer when the
    collection is empty. *)
Definition pop (collection : SimpleBufferCollection)
  : option LinkedBuffer * SimpleBufferCollection :=
  match collection with
  | [] => (None, [])
  | buffer :: rest => (Some buffer, rest)
  end.

(** Modelled from the spec: [SingleServerBufferQueue] (its header is not
    among the sources), a FIFO of buffers with a gate that lets one thread
    at a time service it. Buffers are pushed under the lock; the servicer
    takes its buffers without the lock, so the buffers of the batch being
    serviced ([outgoing]) are kept apart from those that arrive meanwhile
    ([incoming]), which become the next batch. *)
Module SingleServerBufferQueue.

(** Modelled from the spec: the state of the queue; [busy] says that a
    thread is servicing. *)
Record t : Type := mk {
  incoming : list LinkedBuffer;
  outgoing : list LinkedBuffer;
  busy : bool
}.

(** Modelled from the spec: a new queue is empty and nobody services it. *)
Definition empty : t := mk [] [] false.

(** Modelled from the spec: [push(buffer, lock)] enqueues, and returns
    true iff a servicer is needed, that is, nobody is servicing. *)
Definition push (buffer : LinkedBuffer) (q : t) : bool * t :=
  (negb (busy q), mk (incoming q ++ [buffer]) (outgoing q) (busy q)).

(** Modelled from the spec: [startService(lock)] returns true iff the
    caller becomes the servicer; only one thread is the servicer at a
    time. The buffers present become its batch. *)
Definition startService (q : t) : bool * t :=
  if busy q then (false, q)
  else
    let batch := outgoing q ++ incoming q in
    let service := negb (bool_decide (batch = [])) in
    (service, mk [] batch service).

(** Modelled from the spec: [serviceNext()] returns the next buffer, or
    null if there is none. *)
Definition serviceNext (q : t) : option LinkedBuffer * t :=
  match outgoing q with
  | [] => (None, q)
  | buffer :: rest => (Some buffer, mk (incoming q) rest (busy q))
  end.

(** Modelled from the spec: [endService(continue, lock)]: if [continue]
    and more buffers are present, the caller remains the servicer (true),
    with those buffers as its batch; otherwise it gives the service up
    (false). *)
Definition endService (continue : bool) (q : t) : bool * t :=
  let batch := outgoing q ++ incoming q in
  if continue && negb (bool_decide (batch = []))
  then (true, mk [] batch true)
  else (false, mk (incoming q) (outgoing q) false).

End SingleServerBufferQueue.

Module Queue := SingleServerBufferQueue.

(** What the receiver does to the world outside it: calls on the socket,
    calls of the consumer, and an exception that it lets through to the
    caller of [handleReceive]. *)
Inductive Event : Type :=
| SocketOpen
| SocketReuseAddress
| SocketBind
| SocketJoinGroup
| SocketCancel
| AsyncReceiveFrom (buffer : LinkedBuffer)
| ReceiverStarted
| WantLog (level : Z)
| LogMessage (level : Z) (message : string)
| ConsumeBuffer (buffer : LinkedBuffer)
| ReportCommunicationError (message : string)
| ReportDecodingError (message : string)
| UncaughtException.

(** What a call of [consumeBuffer] comes to: it returns true or false, it
    throws a [std::exception] with a message, or it throws something that
    is not a [std::exception]. *)
Inductive Consumed : Type :=
| Returns (continue : bool)
| Throws (what : string)
| ThrowsOther.

(** Modelled from the spec: the interface [BufferConsumer]
    ([Codecs/BufferConsumer.h] is not among the sources). A consumer is any
    type of states with the six callbacks; a callback gives the consumer's
    next state with its answer. [consumeBuffer] is handed the buffer's
    bytes and used length; of the callbacks it alone may throw. *)
Class BufferConsumer (Consumer : Type) : Type := {
  receiverStarted : Consumer -> Consumer;
  consumeBuffer : Consumer -> LinkedBuffer -> Consumer * Consumed;
  reportCommunicationError : Consumer -> string -> Consumer * bool;
  reportDecodingError : Consumer -> string -> Consumer * bool;
  wantLog : Consumer -> Z -> Consumer * bool;
  logMessage : Consumer -> Z -> string -> Consumer * bool
}.

(** Modelled from the spec: [BufferConsumer::LOG_INFO]; the levels run
    from FATAL (0) to VERBOSE (4), as in [Common/Logger.h], where INFO
    is 3. *)
Definition LOG_INFO : Z := 3.

Section Receiver.

Context {Consumer : Type} `{!BufferConsumer Consumer}.

(** The members of [class MulticastReceiver]. Addresses are kept as their
    text. [socket_] is the list of the receives that have been posted and
    not completed, each with the buffer it is to fill. [consumer_] is the
    consumer the pointer refers to; the constructor leaves the pointer
    unset and [start] sets it before anything uses it. The mutex is not a
    member of the model: which thread holds it follows from where the
    threads stand in [handleReceive], see [holdsLock]. [trace] is not in
    the code: it records the calls made so far, oldest first. *)
Record t : Type := mk {
  stopping_ : bool;
  listenInterface_ : string;
  multicastGroup_ : string;
  endpoint_ : string * Z;
  socket_ : list LinkedBuffer;
  consumer_ : Consumer;
  bufferSize_ : Z;
  buffers_ : list LinkedBuffer;
  queue_ : SingleServerBufferQueue.t;
  idleBufferPool_ : SimpleBufferCollection;
  readInProgress_ : bool;
  noBufferAvailable_ : Z;
  packetsReceived_ : Z;
  errorPackets_ : Z;
  emptyPackets_ : Z;
  packetsQueued_ : Z;
  batchesProcessed_ : Z;
  packetsProcessed_ : Z;
  bytesReceived_ : Z;
  bytesProcessed_ : Z;
  largestPacket_ : Z;
  trace : list Event
}.

Definition set_stopping_ (v : bool) (r : t) : t :=
  mk v (listenInterface_ r) (multicastGroup_ r) (endpoint_ r) (socket_ r)
    (consumer_ r) (bufferSize_ r) (buffers_ r) (queue_ r) (idleBufferPool_ r)
    (readInProgress_ r) (noBufferAvailable_ r) (packetsReceived_ r)
    (errorPackets_ r) (emptyPackets_ r) (packetsQueued_ r)
    (batchesProcessed_ r) (packetsProcessed_ r) (bytesReceived_ r)
    (bytesProcessed_ r) (largestPacket_ r) (trace r).

Definition set_listenInterface_ (v : string) (r : t) : t :=
  mk (stopping_ r) v (multicastGroup_ r) (endpoint_ r) (socket_ r)
    (consumer_ r) (bufferSize_ r) (buffers_ r) (queue_ r) (idleBufferPool_ r)
    (readInProgress_ r) (noBufferAvailable_ r) (packetsReceived_ r)
    (errorPackets_ r) (emptyPackets_ r) (packetsQueued_ r)
    (batchesProcessed_ r) (packetsProcessed_ r) (bytesReceived_ r)
    (bytesProcessed_ r) (largestPacket_ r) (trace r).

Definition set_multicastGroup_ (v : string) (r : t) : t :=
  mk (stopping_ r) (listenInterface_ r) v (endpoint_ r) (socket_ r)
    (consumer_ r) (bufferSize_ r) (buffers_ r) (queue_ r) (idleBufferPool_ r)
    (readInProgress_ r) (noBufferAvailable_ r) (packetsReceived_ r)
    (errorPackets_ r) (emptyPackets_ r) (packetsQueued_ r)
    (batchesProcessed_ r) (packetsProcessed_ r) (bytesReceived_ r)
    (bytesProcessed_ r) (largestPacket_ r) (trace r).

Definition set_endpoint_ (v : string * Z) (r : t) : t :=
  mk (stopping_ r) (listenInterface_ r) (multicastGroup_ r) v (socket_ r)
    (consumer_ r) (bufferSize_ r) (buffers_ r) (queue_ r) (idleBufferPool_ r)
    (readInProgress_ r) (noBufferAvailable_ r) (packetsReceived_ r)
    (errorPackets_ r) (emptyPackets_ r) (packetsQueued_ r)
    (batchesProcessed_ r) (packetsProcessed_ r) (bytesReceived_ r)
    (bytesProcessed_ r) (largestPacket_ r) (trace r).

Definition set_socket_ (v : list LinkedBuffer) (r : t) : t :=
  mk (stopping_ r) (listenInterface_ r) (multicastGroup_ r) (endpoint_ r) v
    (consumer_ r) (bufferSize_ r) (buffers_ r) (queue_ r) (idleBufferPool_ r)
    (readInProgress_ r) (noBufferAvailable_ r) (packetsReceived_ r)
    (errorPackets_ r) (emptyPackets_ r) (packetsQueued_ r)
    (batchesProcessed_ r) (packetsProcessed_ r) (bytesReceived_ r)
    (bytesProcessed_ r) (largestPacket_ r) (trace r).

Definition set_consumer_ (v : Consumer) (r : t) : t :=
  mk (stopping_ r) (listenInterface_ r) (multicastGroup_ r) (endpoint_ r)
    (socket_ r) v (bufferSize_ r) (buffers_ r) (queue_ r) (idleBufferPool_ r)
    (readInProgress_ r) (noBufferAvailable_ r) (packetsReceived_ r)
    (errorPackets_ r) (emptyPackets_ r) (packetsQueued_ r)
    (batchesProcessed_ r) (packetsProcessed_ r) (bytesReceived_ r)
    (bytesProcessed_ r) (largestPacket_ r) (trace r).

Definition set_bufferSize_ (v : Z) (r : t) : t :=
  mk (stopping_ r) (listenInterface_ r) (multicastGroup_ r) (endpoint_ r)
    (socket_ r) (consumer_ r) v (buffers_ r) (queue_ r) (idleBufferPool_ r)
    (readInProgress_ r) (noBufferAvailable_ r) (packetsReceived_ r)
    (errorPackets_ r) (emptyPackets_ r) (packetsQueued_ r)
    (batchesProcessed_ r) (packetsProcessed_ r) (bytesReceived_ r)
    (bytesProcessed_ r) (largestPacket_ r) (trace r).

Definition set_buffers_ (v : list LinkedBuffer) (r : t) : t :=
  mk (stopping_ r) (listenInterface_ r) (multicastGroup_ r) (endpoint_ r)
    (socket_ r) (consumer_ r) (bufferSize_ r) v (queue_ r) (idleBufferPool_ r)
    (readInProgress_ r) (noBufferAvailable_ r) (packetsReceived_ r)
    (errorPackets_ r) (emptyPackets_ r) (packetsQueued_ r)
    (batchesProcessed_ r) (packetsProcessed_ r) (bytesReceived_ r)
    (bytesProcessed_ r) (largestPacket_ r) (trace r).

Definition set_queue_ (v : SingleServerBufferQueue.t) (r : t) : t :=
  mk (stopping_ r) (listenInterface_ r) (multicastGroup_ r) (endpoint_ r)
    (socket_ r) (consumer_ r) (bufferSize_ r) (buffers_ r) v
    (idleBufferPool_ r) (readInProgress_ r) (noBufferAvailable_ r)
    (packetsReceived_ r) (errorPackets_ r) (emptyPackets_ r)
    (packetsQueued_ r) (batchesProcessed_ r) (packetsProcessed_ r)
    (bytesReceived_ r) (bytesProcessed_ r) (largestPacket_ r) (trace r).

Definition set_idleBufferPool_ (v : SimpleBufferCollection) (r : t) : t :=
  mk (stopping_ r) (listenInterface_ r) (multicastGroup_ r) (endpoint_ r)
    (socket_ r) (consumer_ r) (bufferSize_ r) (buffers_ r) (queue_ r) v
    (readInProgress_ r) (noBufferAvailable_ r) (packetsReceived_ r)
    (errorPackets_ r) (emptyPackets_ r) (packetsQueued_ r)
    (batchesProcessed_ r) (packetsProcessed_ r) (bytesReceived_ r)
    (bytesProcessed_ r) (largestPacket_ r) (trace r).

Definition set_readInProgress_ (v : bool) (r : t) : t :=
  mk (stopping_ r) (listenInterface_ r) (multicastGroup_ r) (endpoint_ r)
    (socket_ r) (consumer_ r) (bufferSize_ r) (buffers_ r) (queue_ r)
    (idleBufferPool_ r) v (noBufferAvailable_ r) (packetsReceived_ r)
    (errorPackets_ r) (emptyPackets_ r) (packetsQueued_ r)
    (batchesProcessed_ r) (packetsProcessed_ r) (bytesReceived_ r)
    (bytesProcessed_ r) (largestPacket_ r) (trace r).

Definition set_noBufferAvailable_ (v : Z) (r : t) : t :=
  mk (stopping_ r) (listenInterface_ r) (multicastGroup_ r) (endpoint_ r)
    (socket_ r) (consumer_ r) (bufferSize_ r) (buffers_ r) (queue_ r)
    (idleBufferPool_ r) (readInProgress_ r) v (packetsReceived_ r)
    (errorPackets_ r) (emptyPackets_ r) (packetsQueued_ r)
    (batchesProcessed_ r) (packetsProcessed_ r) (bytesReceived_ r)
    (bytesProcessed_ r) (largestPacket_ r) (trace r).

Definition set_packetsReceived_ (v : Z) (r : t) : t :=
  mk (stopping_ r) (listenInterface_ r) (multicastGroup_ r) (endpoint_ r)
    (socket_ r) (consumer_ r) (bufferSize_ r) (buffers_ r) (queue_ r)
    (idleBufferPool_ r) (readInProgress_ r) (noBufferAvailable_ r) v
    (errorPackets_ r) (emptyPackets_ r) (packetsQueued_ r)
    (batchesProcessed_ r) (packetsProcessed_ r) (bytesReceived_ r)
    (bytesProcessed_ r) (largestPacket_ r) (trace r).

Definition set_errorPackets_ (v : Z) (r : t) : t :=
  mk (stopping_ r) (listenInterface_ r) (multicastGroup_ r) (endpoint_ r)
    (socket_ r) (consumer_ r) (bufferSize_ r) (buffers_ r) (queue_ r)
    (idleBufferPool_ r) (readInProgress_ r) (noBufferAvailable_ r)
    (packetsReceived_ r) v (emptyPackets_ r) (packetsQueued_ r)
    (batchesProcessed_ r) (packetsProcessed_ r) (bytesReceived_ r)
    (bytesProcessed_ r) (largestPacket_ r) (trace r).

Definition set_emptyPackets_ (v : Z) (r : t) : t :=
  mk (stopping_ r) (listenInterface_ r) (multicastGroup_ r) (endpoint_ r)
    (socket_ r) (consumer_ r) (bufferSize_ r) (buffers_ r) (queue_ r)
    (idleBufferPool_ r) (readInProgress_ r) (noBufferAvailable_ r)
    (packetsReceived_ r) (errorPackets_ r) v (packetsQueued_ r)
    (batchesProcessed_ r) (packetsProcessed_ r) (bytesReceived_ r)
    (bytesProcessed_ r) (largestPacket_ r) (trace r).

Definition set_packetsQueued_ (v : Z) (r : t) : t :=
  mk (stopping_ r) (listenInterface_ r) (multicastGroup_ r) (endpoint_ r)
    (socket_ r) (consumer_ r) (bufferSize_ r) (buffers_ r) (queue_ r)
    (idleBufferPool_ r) (readInProgress_ r) (noBufferAvailable_ r)
    (packetsReceived_ r) (errorPackets_ r) (emptyPackets_ r) v
    (batchesProcessed_ r) (packetsProcessed_ r) (bytesReceived_ r)
    (bytesProcessed_ r) (largestPacket_ r) (trace r).

Definition set_batchesProcessed_ (v : Z) (r : t) : t :=
  mk (stopping_ r) (listenInterface_ r) (multicastGroup_ r) (endpoint_ r)
    (socket_ r) (consumer_ r) (bufferSize_ r) (buffers_ r) (queue_ r)
    (idleBufferPool_ r) (readInProgress_ r) (noBufferAvailable_ r)
    (packetsReceived_ r) (errorPackets_ r) (emptyPackets_ r)
    (packetsQueued_ r) v (packetsProcessed_ r) (bytesReceived_ r)
    (bytesProcessed_ r) (largestPacket_ r) (trace r).

Definition set_packetsProcessed_ (v : Z) (r : t) : t :=
  mk (stopping_ r) (listenInterface_ r) (multicastGroup_ r) (endpoint_ r)
    (socket_ r) (consumer_ r) (bufferSize_ r) (buffers_ r) (queue_ r)
    (idleBufferPool_ r) (readInProgress_ r) (noBufferAvailable_ r)
    (packetsReceived_ r) (errorPackets_ r) (emptyPackets_ r)
    (packetsQueued_ r) (batchesProcessed_ r) v (bytesReceived_ r)
    (bytesProcessed_ r) (largestPacket_ r) (trace r).

Definition set_bytesReceived_ (v : Z) (r : t) : t :=
  mk (stopping_ r) (listenInterface_ r) (multicastGroup_ r) (endpoint_ r)
    (socket_ r) (consumer_ r) (bufferSize_ r) (buffers_ r) (queue_ r)
    (idleBufferPool_ r) (readInProgress_ r) (noBufferAvailable_ r)
    (packetsReceived_ r) (errorPackets_ r) (emptyPackets_ r)
    (packetsQueued_ r) (batchesProcessed_ r) (packetsProcessed_ r) v
    (bytesProcessed_ r) (largestPacket_ r) (trace r).

Definition set_bytesProcessed_ (v : Z) (r : t) : t :=
  mk (stopping_ r) (listenInterface_ r) (multicastGroup_ r) (endpoint_ r)
    (socket_ r) (consumer_ r) (bufferSize_ r) (buffers_ r) (queue_ r)
    (idleBufferPool_ r) (readInProgress_ r) (noBufferAvailable_ r)
    (packetsReceived_ r) (errorPackets_ r) (emptyPackets_ r)
    (packetsQueued_ r) (batchesProcessed_ r) (packetsProcessed_ r)
    (bytesReceived_ r) v (largestPacket_ r) (trace r).

Definition set_largestPacket_ (v : Z) (r : t) : t :=
  mk (stopping_ r) (listenInterface_ r) (multicastGroup_ r) (endpoint_ r)
    (socket_ r) (consumer_ r) (bufferSize_ r) (buffers_ r) (queue_ r)
    (idleBufferPool_ r) (readInProgress_ r) (noBufferAvailable_ r)
    (packetsReceived_ r) (errorPackets_ r) (emptyPackets_ r)
    (packetsQueued_ r) (batchesProcessed_ r) (packetsProcessed_ r)
    (bytesReceived_ r) (bytesProcessed_ r) v (trace r).

Definition set_trace (v : list Event) (r : t) : t :=
  mk (stopping_ r) (listenInterface_ r) (multicastGroup_ r) (endpoint_ r)
    (socket_ r) (consumer_ r) (bufferSize_ r) (buffers_ r) (queue_ r)
    (idleBufferPool_ r) (readInProgress_ r) (noBufferAvailable_ r)
    (packetsReceived_ r) (errorPackets_ r) (emptyPackets_ r)
    (packetsQueued_ r) (batchesProcessed_ r) (packetsProcessed_ r)
    (bytesReceived_ r) (bytesProcessed_ r) (largestPacket_ r) v.

Definition emit (event : Event) (r : t) : t := set_trace (trace r ++ [event]) r.

(** The constructors: [consumer] stands for the unset pointer. *)
Definition make (consumer : Consumer)
    (multicastGroupIP listenInterfaceIP : string) (portNumber : Z) : t :=
  mk false listenInterfaceIP multicastGroupIP (listenInterfaceIP, portNumber)
     [] consumer 0 [] SingleServerBufferQueue.empty [] false
     0 0 0 0 0 0 0 0 0 0 [].

(** [MulticastReceiver::stop] *)
Definition stop (r : t) : t := emit SocketCancel (set_stopping_ true r).

(** The test of [startReceive], [!readInProgress_ && !stopping_]. *)
Definition mayReceive (r : t) : bool :=
  negb (readInProgress_ r) && negb (stopping_ r).

(** The body of the [if] of [startReceive]: a buffer is taken from the
    idle pool and a receive is posted for it; when the pool is empty,
    [noBufferAvailable_] is counted. *)
Definition postReceive (r : t) : t :=
  match pop (idleBufferPool_ r) with
  | (Some buffer, pool) =>
      emit (AsyncReceiveFrom buffer)
        (set_socket_ (socket_ r ++ [buffer])
           (set_readInProgress_ true (set_idleBufferPool_ pool r)))
  | (None, _) => set_noBufferAvailable_ (wrap (noBufferAvailable_ r + 1)) r
  end.

(** [MulticastReceiver::startReceive], called with the lock held. *)
Definition startReceive (r : t) : t :=
  if mayReceive r then postReceive r else r.

(** Which calls on the socket succeed; one that does not throws
    [boost::system::system_error] out of [start]. *)
Record SocketCalls : Type := {
  open_ok : bool;
  reuse_address_ok : bool;
  bind_ok : bool;
  join_group_ok : bool
}.

(** How a member function ends, with the receiver as it is then: it
    returns, or an exception leaves it. *)
Inductive Outcome : Type :=
| Returned (r : t)
| Threw (r : t).

(** The loop of [start] that allocates the buffers: [n] buffers are still
    to be made, [nBuffer] is the loop's counter. *)
Fixpoint allocateBuffers (n nBuffer : nat) (r : t) : t :=
  match n with
  | O => r
  | S n' =>
      let buffer := {| address := length (buffers_ r); capacity := bufferSize_ r; used := 0 |} in
      allocateBuffers n' (S nBuffer)
        (set_idleBufferPool_ (push buffer (idleBufferPool_ r))
           (set_buffers_ (buffers_ r ++ [buffer]) r))
  end.

Definition joinMessage (r : t) : string :=
  ("Joining multicast group: " +:+ multicastGroup_ r +:+
   " via interface " +:+ fst (endpoint_ r) +:+ ":" +:+ pretty (snd (endpoint_ r)))%string.

(** [MulticastReceiver::start] *)
Definition start (calls : SocketCalls) (bufferConsumer : Consumer)
    (bufferSize : Z) (bufferCount : nat) (r : t) : Outcome :=
  let r := set_consumer_ bufferConsumer r in
  let r := set_bufferSize_ bufferSize r in
  let r := emit SocketOpen r in
  if negb (open_ok calls) then Threw r else
  let r := emit SocketReuseAddress r in
  if negb (reuse_address_ok calls) then Threw r else
  let r := emit SocketBind r in
  if negb (bind_ok calls) then Threw r else
  let r := emit ReceiverStarted (set_consumer_ (receiverStarted (consumer_ r)) r) in
  let '(consumer, want) := wantLog (consumer_ r) LOG_INFO in
  let r := emit (WantLog LOG_INFO) (set_consumer_ consumer r) in
  let r :=
    if want : bool then
      let message := joinMessage r in
      emit (LogMessage LOG_INFO message)
        (set_consumer_ (fst (logMessage (consumer_ r) LOG_INFO message)) r)
    else r in
  let r := emit SocketJoinGroup r in
  if negb (join_group_ok calls) then Threw r else
  let r := allocateBuffers bufferCount 0 r in
  Returned (startReceive r).

(** The first part of what [handleReceive] does under the lock, up to the
    answer of [reportCommunicationError]: the receive posted for [buffer]
    has completed; [error] is [None] for success, else the error's message.
    The result says whether this thread is to service the queue, and
    whether the receiver is to go on, which it is unless the consumer
    answered false to the report of the error. *)
Definition takeReceive (error : option string) (buffer : LinkedBuffer)
    (bytesReceived : Z) (r : t) : t * bool * bool :=
  let r := set_readInProgress_ false r in
  let r := set_packetsReceived_ (wrap (packetsReceived_ r + 1)) r in
  match error with
  | None =>
      if decide (0 < bytesReceived) then
        let r := set_packetsQueued_ (wrap (packetsQueued_ r + 1)) r in
        let r := set_bytesReceived_ (wrap (bytesReceived_ r + bytesReceived)) r in
        let r := set_largestPacket_ (Z.max (largestPacket_ r) bytesReceived) r in
        let buffer := setUsed bytesReceived buffer in
        let '(needed, q) := SingleServerBufferQueue.push buffer (queue_ r) in
        if needed : bool then
          let '(service, q) := SingleServerBufferQueue.startService q in
          (set_queue_ q r, service, true)
        else (set_queue_ q r, false, true)
      else
        let r := set_emptyPackets_ (wrap (emptyPackets_ r + 1)) r in
        (set_idleBufferPool_ (push buffer (idleBufferPool_ r)) r, false, true)
  | Some message =>
      let r := set_errorPackets_ (wrap (errorPackets_ r + 1)) r in
      let r := set_idleBufferPool_ (push buffer (idleBufferPool_ r)) r in
      let '(consumer, continue) := reportCommunicationError (consumer_ r) message in
      (emit (ReportCommunicationError message) (set_consumer_ consumer r), false, continue)
  end.

(** The part of [handleReceive] that runs under the lock, when no other
    thread calls [stop] meanwhile. The result says whether this thread is
    to service the queue. *)
Definition completeReceive (error : option string) (buffer : LinkedBuffer)
    (bytesReceived : Z) (r : t) : t * bool :=
  let '(r, service, continue) := takeReceive error buffer bytesReceived r in
  let r := if continue : bool then r else stop r in
  (startReceive r, service).

(** ** The service loop, piece by piece *)

(** [++batchesProcessed_] *)
Definition beginBatch (r : t) : t :=
  set_batchesProcessed_ (wrap (batchesProcessed_ r + 1)) r.

(** [queue_.serviceNext()] *)
Definition serviceNext (r : t) : option LinkedBuffer * t :=
  let '(buffer, q) := SingleServerBufferQueue.serviceNext (queue_ r) in
  (buffer, set_queue_ q r).

(** [++packetsProcessed_] *)
Definition countPacket (r : t) : t :=
  set_packetsProcessed_ (wrap (packetsProcessed_ r + 1)) r.

(** [bytesProcessed_ += buffer->used()] and the call of [consumeBuffer]. *)
Definition offerBuffer (buffer : LinkedBuffer) (r : t) : t * Consumed :=
  let r := set_bytesProcessed_ (wrap (bytesProcessed_ r + used buffer)) r in
  let '(consumer, result) := consumeBuffer (consumer_ r) buffer in
  (emit (ConsumeBuffer buffer) (set_consumer_ consumer r), result).

(** The handler of [catch(const std::exception &ex)], up to the answer of
    [reportDecodingError]. *)
Definition reportCaught (what : string) (r : t) : t * bool :=
  let '(consumer, continue) := reportDecodingError (consumer_ r) what in
  (emit (ReportDecodingError what) (set_consumer_ consumer r), continue).

(** The body of [if(!stopping_)]: the consumer is handed the buffer, and
    the buffer joins the servicer's idle buffers. The handler catches a
    [std::exception] only: anything else that [consumeBuffer] throws leaves
    the loops and [handleReceive], and the result is [None] instead of the
    idle buffers. *)
Definition consumePacket (buffer : LinkedBuffer) (r : t)
    (idleBuffers : SimpleBufferCollection) : t * option SimpleBufferCollection :=
  let '(r, result) := offerBuffer buffer r in
  match result with
  | Returns continue =>
      (if continue then r else stop r, Some (push buffer idleBuffers))
  | Throws what =>
      let '(r, continue) := reportCaught what r in
      (if continue then r else stop r, Some (push buffer idleBuffers))
  | ThrowsOther => (emit UncaughtException r, None)
  end.

(** The body of [while(buffer != 0)], up to the next [serviceNext]. *)
Definition servicePacket (buffer : LinkedBuffer) (r : t)
    (idleBuffers : SimpleBufferCollection) : t * option SimpleBufferCollection :=
  let r := countPacket r in
  if negb (stopping_ r) then consumePacket buffer r idleBuffers
  else (r, Some idleBuffers).

(** [idleBufferPool_.push(idleBuffers)] *)
Definition returnBuffers (idleBuffers : SimpleBufferCollection) (r : t) : t :=
  set_idleBufferPool_ (pushAll idleBuffers (idleBufferPool_ r)) r.

(** [service = queue_.endService(!stopping_, lock)] *)
Definition endService (r : t) : t * bool :=
  let '(service, q) := SingleServerBufferQueue.endService (negb (stopping_ r)) (queue_ r) in
  (set_queue_ q r, service).

(** The end of a batch, under the lock, when no other thread calls [stop]
    meanwhile: the idle buffers go back to the pool, a receive is started
    if possible, and the queue says whether this thread goes on
    servicing. *)
Definition endBatch (idleBuffers : SimpleBufferCollection) (r : t) : t * bool :=
  endService (startReceive (returnBuffers idleBuffers r)).

(** ** [handleReceive] run by one thread from start to end *)

(** [while(buffer != 0)]; it ends for want of [fuel] only if there are
    more buffers than [fuel]. The idle buffers are [None] when an exception
    has left the loop. *)
Fixpoint serviceBuffers (fuel : nat) (buffer : option LinkedBuffer) (r : t)
    (idleBuffers : SimpleBufferCollection) : option (t * option SimpleBufferCollection) :=
  match buffer with
  | None => Some (r, Some idleBuffers)
  | Some b =>
      match fuel with
      | O => None
      | S fuel' =>
          match servicePacket b r idleBuffers with
          | (r, Some idleBuffers) =>
              let '(next, r) := serviceNext r in
              serviceBuffers fuel' next r idleBuffers
          | (r, None) => Some (r, None)
          end
      end
  end.

(** One round of [while(service)]: a batch is serviced to its end; the
    result says whether the loop goes round again, and is [None] when an
    exception has left the loop. *)
Definition serviceBatch (r : t) : option (t * option bool) :=
  let r := beginBatch r in
  let batch := length (SingleServerBufferQueue.outgoing (queue_ r)) in
  let '(buffer, r) := serviceNext r in
  '(r, idleBuffers) ← serviceBuffers batch buffer r [];
  match idleBuffers with
  | Some idleBuffers =>
      let '(r, service) := endBatch idleBuffers r in Some (r, Some service)
  | None => Some (r, None)
  end.

(** [while(service)], entered with [service] true. *)
Fixpoint serviceLoop (fuel : nat) (r : t) : option Outcome :=
  match fuel with
  | O => None
  | S fuel' =>
      '(r, service) ← serviceBatch r;
      match service with
      | Some true => serviceLoop fuel' r
      | Some false => Some (Returned r)
      | None => Some (Threw r)
      end
  end.

(** [MulticastReceiver::handleReceive] *)
Definition handleReceive (fuel : nat) (error : option string)
    (buffer : LinkedBuffer) (bytesReceived : Z) (r : t) : option Outcome :=
  let '(r, service) := completeReceive error buffer bytesReceived r in
  if service : bool then serviceLoop fuel r else Some (Returned r).

(** The I/O service, when the receive that was posted first has
    completed: it takes the request off the socket and calls the handler
    bound to it, [handleReceive] with the request's buffer. *)
Definition completeNext (fuel : nat) (error : option string) (bytesReceived : Z) (r : t)
  : option Outcome :=
  match socket_ r with
  | [] => None
  | buffer :: posted => handleReceive fuel error buffer bytesReceived (set_socket_ posted r)
  end.

(** The receiver as a member function leaves it. *)
Definition receiverOf (outcome : Outcome) : t :=
  match outcome with
  | Returned r => r
  | Threw r => r
  end.

(** ** The receiver with its threads *)

(** Where a thread stands in [handleReceive], with its local variables
    [service], [buffer] and [idleBuffers].

    [stop] takes no lock, and the servicing thread calls the consumer and
    reads [stopping_] without the lock, so what one thread does between
    two points is what no other thread can come between: it reads or
    writes [stopping_] once and calls the consumer once at most, and what
    else it touches no other thread touches meanwhile. A thread holds the
    lock at [AtReceived], [AtPost], [AtBatchPost] and [AtEndService].
    - [AtReceived]: in the first locked part, the receive has been counted
      and, if it failed, reported; next come [stop()], if [continue] is
      false, and the test of [startReceive].
    - [AtPost]: in [startReceive] called from the first locked part, the
      test has been passed.
    - [AtBatchStart]: at the head of the body of [while(service)].
    - [AtFetch]: before [queue_.serviceNext()].
    - [AtPacket]: [buffer] is not null, before [++packetsProcessed_].
    - [AtCheck]: before the test of [if(!stopping_)].
    - [AtConsume]: inside the [try], [stopping_] was found false.
    - [AtCaught]: in the handler of [std::exception], before
      [reportDecodingError].
    - [AtStop]: before a call of [stop()] in the service loop.
    - [AtBatchEnd]: [buffer] is null, before the lock is taken.
    - [AtBatchPost]: in [startReceive] called at the end of a batch, the
      test has been passed.
    - [AtEndService]: before [queue_.endService(!stopping_, lock)]. *)
Inductive ServicePoint : Type :=
| AtReceived (service continue : bool)
| AtPost (service : bool)
| AtBatchStart
| AtFetch (idleBuffers : SimpleBufferCollection)
| AtPacket (buffer : LinkedBuffer) (idleBuffers : SimpleBufferCollection)
| AtCheck (buffer : LinkedBuffer) (idleBuffers : SimpleBufferCollection)
| AtConsume (buffer : LinkedBuffer) (idleBuffers : SimpleBufferCollection)
| AtCaught (what : string) (buffer : LinkedBuffer) (idleBuffers : SimpleBufferCollection)
| AtStop (buffer : LinkedBuffer) (idleBuffers : SimpleBufferCollection)
| AtBatchEnd (idleBuffers : SimpleBufferCollection)
| AtBatchPost
| AtEndService.

(** Where a thread stands at the test of [while(buffer != 0)]. *)
Definition pointOf (buffer : option LinkedBuffer) (idleBuffers : SimpleBufferCollection)
  : ServicePoint :=
  match buffer with
  | Some b => AtPacket b idleBuffers
  | None => AtBatchEnd idleBuffers
  end.

(** Where a thread stands when it leaves the first locked part: at
    [while(service)], which it enters or not. *)
Definition afterLock (service : bool) : option ServicePoint :=
  if service then Some AtBatchStart else None.

(** One step of a thread in [handleReceive]: the receiver afterwards, and
    where the thread stands then, or [None] when it has left
    [handleReceive]. *)
Definition serviceStep (point : ServicePoint) (r : t) : t * option ServicePoint :=
  match point with
  | AtReceived service continue =>
      let r := if continue then r else stop r in
      (r, if mayReceive r then Some (AtPost service) else afterLock service)
  | AtPost service => (postReceive r, afterLock service)
  | AtBatchStart => (beginBatch r, Some (AtFetch []))
  | AtFetch idleBuffers =>
      match serviceNext r with
      | (Some buffer, r) => (r, Some (AtPacket buffer idleBuffers))
      | (None, r) => (r, Some (AtBatchEnd idleBuffers))
      end
  | AtPacket buffer idleBuffers => (countPacket r, Some (AtCheck buffer idleBuffers))
  | AtCheck buffer idleBuffers =>
      if negb (stopping_ r) then (r, Some (AtConsume buffer idleBuffers))
      else (r, Some (AtFetch idleBuffers))
  | AtConsume buffer idleBuffers =>
      match offerBuffer buffer r with
      | (r, Returns true) => (r, Some (AtFetch (push buffer idleBuffers)))
      | (r, Returns false) => (r, Some (AtStop buffer idleBuffers))
      | (r, Throws what) => (r, Some (AtCaught what buffer idleBuffers))
      | (r, ThrowsOther) => (emit UncaughtException r, None)
      end
  | AtCaught what buffer idleBuffers =>
      let '(r, continue) := reportCaught what r in
      (r, Some (if continue : bool then AtFetch (push buffer idleBuffers)
                else AtStop buffer idleBuffers))
  | AtStop buffer idleBuffers => (stop r, Some (AtFetch (push buffer idleBuffers)))
  | AtBatchEnd idleBuffers =>
      let r := returnBuffers idleBuffers r in
      (r, Some (if mayReceive r then AtBatchPost else AtEndService))
  | AtBatchPost => (postReceive r, Some AtEndService)
  | AtEndService =>
      let '(r, service) := endService r in
      (r, afterLock service)
  end.

(** The thread holds the lock. *)
Definition holdsLock (point : ServicePoint) : bool :=
  match point with
  | AtReceived _ _ | AtPost _ | AtBatchPost | AtEndService => true
  | _ => false
  end.

(** The thread's next step takes the lock. *)
Definition takesLock (point : ServicePoint) : bool :=
  match point with
  | AtBatchEnd _ => true
  | _ => false
  end.

(** No thread holds the lock. *)
Definition lockFree (threads : list ServicePoint) : bool :=
  forallb (fun point => negb (holdsLock point)) threads.

(** The receiver and the threads that are inside [handleReceive]. *)
Record System : Type := {
  receiver : t;
  servicers : list ServicePoint
}.

(** What can happen next: the receive that was posted first completes and
    a thread enters [handleReceive] for it, takes the lock and goes as far
    as [AtReceived]; the thread numbered [thread] takes a step; the
    application calls [stop]. A thread that needs the lock waits while
    another holds it: its step is not possible then. *)
Inductive Action : Type :=
| Complete (error : option string) (bytesReceived : Z)
| Advance (thread : nat)
| CallStop.

Definition act (action : Action) (s : System) : option System :=
  match action with
  | Complete error bytesReceived =>
      if lockFree (servicers s) then
        match socket_ (receiver s) with
        | [] => None
        | buffer :: posted =>
            let '(r, service, continue) :=
              takeReceive error buffer bytesReceived (set_socket_ posted (receiver s)) in
            Some {| receiver := r;
                    servicers := servicers s ++ [AtReceived service continue] |}
        end
      else None
  | Advance thread =>
      point ← servicers s !! thread;
      if takesLock point && negb (lockFree (servicers s)) then None
      else
        let '(r, next) := serviceStep point (receiver s) in
        Some {| receiver := r;
                servicers := match next with
                             | Some point' => <[thread := point']> (servicers s)
                             | None => delete thread (servicers s)
                             end |}
  | CallStop => Some {| receiver := stop (receiver s); servicers := servicers s |}
  end.

Fixpoint run (actions : list Action) (s : System) : option System :=
  match actions with
  | [] => Some s
  | action :: rest => s' ← act action s; run rest s'
  end.

(** No thread is inside [handleReceive]. *)
Definition quiescent (s : System) : Prop := servicers s = [].

(** ** Notions used to state the properties of the receiver *)

(** An exception has left [handleReceive]. *)
Definition escaped (r : t) : Prop := UncaughtException ∈ trace r.

(** The members that the counters of packets and the gate of the queue
    depend on. *)
Definition core (r : t) : bool * Queue.t * (Z * Z * Z * Z * Z) :=
  (stopping_ r, queue_ r,
   (packetsReceived_ r, packetsQueued_ r, emptyPackets_ r, errorPackets_ r,
    packetsProcessed_ r)).

(** A thread that has taken a buffer from the queue and not yet counted
    it. *)
Definition fetched (point : ServicePoint) : Z :=
  match point with
  | AtPacket _ _ => 1
  | _ => 0
  end.

(** The thread services the queue, or is about to: [service] is true. *)
Definition servicing (point : ServicePoint) : bool :=
  match point with
  | AtReceived service _ | AtPost service => service
  | _ => true
  end.

(** The thread has come to the end of a batch. *)
Definition atEnd (point : ServicePoint) : bool :=
  match point with
  | AtBatchEnd _ | AtBatchPost | AtEndService => true
  | _ => false
  end.

(** The gate of the queue: one thread at most services it, and the queue
    is busy while one does; a thread at the end of a batch has emptied the
    batch; with no servicer, a queue that is not busy has no batch, and is
    empty unless the receiver is stopping; and it is busy with no servicer
    only after an exception has left [handleReceive]. *)
Record gate (r : t) (threads : list ServicePoint) : Prop := {
  gate_one : (length (filter servicing threads) <= 1)%nat;
  gate_busy : Forall (fun point => servicing point -> Queue.busy (queue_ r) = true) threads;
  gate_end : Forall (fun point => atEnd point -> Queue.outgoing (queue_ r) = []) threads;
  gate_idle :
    filter servicing threads = [] -> Queue.busy (queue_ r) = false ->
    Queue.outgoing (queue_ r) = [] /\
    (stopping_ r = false -> Queue.incoming (queue_ r) = []);
  gate_left :
    filter servicing threads = [] -> Queue.busy (queue_ r) = true -> escaped r
}.

(** What holds after [n] actions, as long as [n] fits a [size_t]. *)
Record invariant (n : Z) (s : System) : Prop := {
  inv_received :
    packetsReceived_ (receiver s) =
    packetsQueued_ (receiver s) + emptyPackets_ (receiver s) + errorPackets_ (receiver s);
  inv_bounds :
    0 <= emptyPackets_ (receiver s) /\ 0 <= errorPackets_ (receiver s) /\
    0 <= packetsProcessed_ (receiver s) /\ packetsReceived_ (receiver s) <= n;
  inv_processed :
    packetsProcessed_ (receiver s) + foldr Z.add 0 (fetched <$> servicers s) +
    Z.of_nat (length (Queue.outgoing (queue_ (receiver s)))) +
    Z.of_nat (length (Queue.incoming (queue_ (receiver s)))) =
    packetsQueued_ (receiver s);
  inv_gate : gate (receiver s) (servicers s)
}.

(** The claim of the specification about the events of [start]: the
    consumer is told once that the receiver has started, after the socket
    was bound and the group joined and before a receive is posted. *)
Definition startedAfterJoin (events : list Event) : Prop :=
  exists before after,
    events = before ++ ReceiverStarted :: after /\
    (ReceiverStarted ∉ before) /\ (ReceiverStarted ∉ after) /\
    (SocketBind ∈ before) /\ (SocketJoinGroup ∈ before) /\
    forall buffer, AsyncReceiveFrom buffer ∉ before.

(** The same with the join after the call. *)
Definition startedBeforeJoin (events : list Event) : Prop :=
  exists before after,
    events = before ++ ReceiverStarted :: after /\
    (ReceiverStarted ∉ before) /\ (ReceiverStarted ∉ after) /\
    (SocketBind ∈ before) /\ (SocketJoinGroup ∉ before) /\ (SocketJoinGroup ∈ after) /\
    forall buffer, AsyncReceiveFrom buffer ∉ before.

End Receiver.

Arguments t : clear implicits.
Arguments Outcome : clear implicits.
Arguments System : clear implicits.

(** ** A scenario: two buffers, three datagrams *)

(** A consumer that counts the buffers it is handed, asks for no log and
    always answers that the receiver is to go on. *)
Definition countingConsumer : BufferConsumer nat := {|
  receiverStarted count := count;
  consumeBuffer count buffer := (S count, Returns true);
  reportCommunicationError count message := (count, true);
  reportDecodingError count message := (count, true);
  wantLog count level := (count, false);
  logMessage count level message := (count, true)
|}.

Definition allCallsSucceed : SocketCalls :=
  {| open_ok := true; reuse_address_ok := true; bind_ok := true; join_group_ok := true |}.

Definition newReceiver : t nat := make O "239.255.0.1" "0.0.0.0" 30001.

(** The receiver after [start(consumer, 64, 2)]. *)
Definition startedReceiver : t nat :=
  Eval vm_compute in
    match start (BufferConsumer0 := countingConsumer) allCallsSucceed O 64 2 newReceiver with
    | Returned r => r
    | Threw r => r
    end.

(** Datagrams of 10, 0 and 20 bytes arrive; the thread that completes a
    receive runs to the end of [handleReceive] before the next datagram
    arrives. *)
Definition threeDatagrams : list Action :=
  Complete None 10 :: replicate 10 (Advance 0) ++
  Complete None 0 :: replicate 2 (Advance 0) ++
  Complete None 20 :: replicate 10 (Advance 0).

Definition afterThreeDatagrams : System nat :=
  Eval vm_compute in
    default {| receiver := startedReceiver; servicers := [] |}
      (run (BufferConsumer0 := countingConsumer) threeDatagrams
         {| receiver := startedReceiver; servicers := [] |}).

(** ** A scenario: the consumer asks to stop in the middle of a batch *)

(** A consumer that counts the buffers it is handed and answers false to
    the second one. *)
Definition stoppingConsumer : BufferConsumer nat := {|
  receiverStarted count := count;
  consumeBuffer count buffer := (S count, Returns (negb (Nat.eqb count 1)));
  reportCommunicationError count message := (count, true);
  reportDecodingError count message := (count, true);
  wantLog count level := (count, false);
  logMessage count level message := (count, true)
|}.

(** Three buffers; datagrams of 10, 20 and 30 bytes arrive before the
    thread that took the first one has begun to service the queue: each of
    the three threads goes through the first locked part, and the first
    then runs until it leaves [handleReceive]. *)
Definition stopInBatch : list Action :=
  [Complete None 10; Advance 0; Advance 0;
   Complete None 20; Advance 1; Advance 1;
   Complete None 30; Advance 1; Advance 1] ++ replicate 21 (Advance 0).

Definition afterStopInBatch : option (System nat) :=
  Eval vm_compute in
    match start (BufferConsumer0 := stoppingConsumer) allCallsSucceed O 64 3 newReceiver with
    | Returned r =>
        run (BufferConsumer0 := stoppingConsumer) stopInBatch
          {| receiver := r; servicers := [] |}
    | Threw _ => None
    end.

(** ** Further notions used to state the properties of the receiver *)

(** A consumer whose [consumeBuffer] throws a [std::exception], and which
    answers false to the report of the decoding error. *)
Definition throwingConsumer : BufferConsumer nat := {|
  receiverStarted count := count;
  consumeBuffer count buffer := (S count, Throws "bad packet");
  reportCommunicationError count message := (count, true);
  reportDecodingError count message := (count, false);
  wantLog count level := (count, true);
  logMessage count level message := (count, true)
|}.

(** A consumer whose [consumeBuffer] throws what is not a
    [std::exception]. *)
Definition escapingConsumer : BufferConsumer nat := {|
  receiverStarted count := count;
  consumeBuffer count buffer := (S count, ThrowsOther);
  reportCommunicationError count message := (count, true);
  reportDecodingError count message := (count, true);
  wantLog count level := (count, false);
  logMessage count level message := (count, true)
|}.

(** The events that post a receive. *)
Definition isReceive (event : Event) : bool :=
  match event with AsyncReceiveFrom _ => true | _ => false end.

(** The buffers handed to the consumer, oldest first. *)
Definition consumed (events : list Event) : list LinkedBuffer :=
  omap (fun event => match event with ConsumeBuffer buffer => Some buffer | _ => None end)
       events.

(** The buffers a thread has in its local variables. *)
Definition holds (point : ServicePoint) : list LinkedBuffer :=
  match point with
  | AtReceived _ _ | AtPost _ | AtBatchStart | AtBatchPost | AtEndService => []
  | AtFetch idleBuffers | AtBatchEnd idleBuffers => idleBuffers
  | AtPacket buffer idleBuffers | AtCheck buffer idleBuffers
  | AtConsume buffer idleBuffers | AtCaught _ buffer idleBuffers
  | AtStop buffer idleBuffers => buffer :: idleBuffers
  end.

(** The buffer a thread has taken from the queue and not yet handed to the
    consumer or skipped. *)
Definition inHand (point : ServicePoint) : list LinkedBuffer :=
  match point with
  | AtPacket buffer _ | AtCheck buffer _ | AtConsume buffer _ => [buffer]
  | _ => []
  end.

(** The buffer a thread is about to hand to the consumer, having found
    [stopping_] false. *)
Definition aboutToConsume (point : ServicePoint) : list LinkedBuffer :=
  match point with
  | AtConsume buffer _ => [buffer]
  | _ => []
  end.

(** The thread is about to post a receive, if there is an idle buffer: it
    is inside [startReceive] and has found [readInProgress_] and
    [stopping_] false. *)
Definition aboutToPost (point : ServicePoint) : bool :=
  match point with
  | AtPost _ | AtBatchPost => true
  | _ => false
  end.

(** How often a buffer with the address [a] occurs in a list. *)
Fixpoint occurrences (a : nat) (l : list LinkedBuffer) : nat :=
  match l with
  | [] => 0
  | buffer :: rest => (if decide (address buffer = a) then 1 else 0) + occurrences a rest
  end.

(** The bytes in the buffers of a list. *)
Definition usedBytes (l : list LinkedBuffer) : Z := foldr Z.add 0 (used <$> l).

Section Receiver.
Context {Consumer : Type} `{!BufferConsumer Consumer}.

(** [MulticastReceiver::bytesReadable], given what the socket reports as
    readable. *)
Definition bytesReadable (socketReadable : Z) (r : t Consumer) : Z :=
  wrap (wrap (socketReadable + bytesReceived_ r) - bytesProcessed_ r).

(** The receives posted agree with [readInProgress_]. *)
Definition posted (r : t Consumer) : Prop :=
  length (socket_ r) = if readInProgress_ r then 1%nat else 0%nat.

(** The receives posted agree with [readInProgress_]; one thread at most
    holds the lock; and while a thread is about to post a receive, none is
    posted. *)
Record oneReceive (s : System Consumer) : Prop := {
  one_posted : posted (receiver s);
  one_lock : (length (filter holdsLock (servicers s)) <= 1)%nat;
  one_free :
    Forall (fun point => aboutToPost point -> readInProgress_ (receiver s) = false)
           (servicers s)
}.

(** The places where the receiver itself keeps a buffer. *)
Definition resident (r : t Consumer) : list LinkedBuffer :=
  idleBufferPool_ r ++ socket_ r ++
  Queue.incoming (queue_ r) ++ Queue.outgoing (queue_ r).

(** All the places where a buffer can be: the idle pool, a posted receive,
    the queue, a local variable of a thread. *)
Definition whereabouts (s : System Consumer) : list LinkedBuffer :=
  resident (receiver s) ++ concat (holds <$> servicers s).

(** The buffers that hold a datagram which has been received and not yet
    handed to the consumer, in the order of their arrival. *)
Definition awaiting (s : System Consumer) : list LinkedBuffer :=
  concat (inHand <$> servicers s) ++
  Queue.outgoing (queue_ (receiver s)) ++ Queue.incoming (queue_ (receiver s)).

(** The account of the bytes: what has been received is what has been
    handed to the consumer and what still waits, unless the receiver is
    stopping, when buffers are skipped. *)
Record balanced (s : System Consumer) : Prop := {
  bal_processed : 0 <= bytesProcessed_ (receiver s);
  bal_waiting : Forall (fun buffer => 0 < used buffer) (awaiting s);
  bal_le : bytesProcessed_ (receiver s) + usedBytes (awaiting s) <= bytesReceived_ (receiver s);
  bal_eq :
    stopping_ (receiver s) = false ->
    bytesProcessed_ (receiver s) + usedBytes (awaiting s) = bytesReceived_ (receiver s)
}.

(** The datagrams of the sizes [sizes] have arrived in this order: those
    handed to the consumer, with the one a thread is about to hand over,
    are the first of them; unless the receiver is stopping, the others wait
    in their order. *)
Record inOrder (sizes : list Z) (s : System Consumer) : Prop := {
  ord_prefix :
    used <$> (consumed (trace (receiver s)) ++ concat (aboutToConsume <$> servicers s))
      `prefix_of` sizes;
  ord_all :
    stopping_ (receiver s) = false ->
    used <$> (consumed (trace (receiver s)) ++ awaiting s) = sizes
}.

End Receiver.

(** The size of the datagram an action delivers, if it delivers one. *)
Definition datagramSize (action : Action) : option Z :=
  match action with
  | Complete None bytesReceived =>
      if decide (0 < bytesReceived) then Some bytesReceived else None
  | _ => None
  end.

Definition datagramSizes (actions : list Action) : list Z := omap datagramSize actions.

(** ** A scenario: [stop] is called while a thread is about to consume *)

(** A datagram of 10 bytes arrives and a thread takes it from the queue
    and finds [stopping_] false; then the application calls [stop]. *)
Definition stopWhileConsuming : list Action :=
  Complete None 10 :: replicate 6 (Advance 0) ++ [CallStop].

Definition stoppedWhileConsuming : System nat :=
  Eval vm_compute in
    default {| receiver := startedReceiver; servicers := [] |}
      (run (BufferConsumer0 := countingConsumer) stopWhileConsuming
         {| receiver := startedReceiver; servicers := [] |}).

(** The thread goes on to the end of [handleReceive], and the receive that
    was posted meanwhile completes with an error. *)
Definition drain : list Action :=
  replicate 4 (Advance 0) ++ Complete (Some "Operation canceled") 0 :: [Advance 0].

Definition drained : System nat :=
  Eval vm_compute in
    default stoppedWhileConsuming
      (run (BufferConsumer0 := countingConsumer) drain stoppedWhileConsuming).

(** ** A scenario: [stop] is called while a thread is about to post *)

(** A datagram of 10 bytes arrives; the thread that handles it has found
    in [startReceive] that no receive is in progress and that the receiver
    is not stopping, when the application calls [stop]. *)
Definition stopWhilePosting : list Action :=
  [Complete None 10; Advance 0; CallStop].

Definition stoppedWhilePosting : System nat :=
  Eval vm_compute in
    default {| receiver := startedReceiver; servicers := [] |}
      (run (BufferConsumer0 := countingConsumer) stopWhilePosting
         {| receiver := startedReceiver; servicers := [] |}).

(** The thread goes on: it posts the receive and services the queue,
    where it skips the buffer, and leaves [handleReceive]. *)
Definition postAfterStop : list Action := replicate 8 (Advance 0).

Definition postedAfterStop : System nat :=
  Eval vm_compute in
    default stoppedWhilePosting
      (run (BufferConsumer0 := countingConsumer) postAfterStop stoppedWhilePosting).

(** ** A scenario: the consumer throws what is not a [std::exception] *)

(** A datagram of 10 bytes arrives and the thread that handles it hands it
    to the consumer, whose exception leaves [handleReceive]; then a
    datagram of 20 bytes arrives and the thread that handles it goes
    through the locked part. *)
Definition exceptionEscapes : list Action :=
  Complete None 10 :: replicate 7 (Advance 0) ++
  Complete None 20 :: replicate 2 (Advance 0).

Definition afterExceptionEscapes : option (System nat) :=
  Eval vm_compute in
    match start (BufferConsumer0 := escapingConsumer) allCallsSucceed O 64 2 newReceiver with
    | Returned r =>
        run (BufferConsumer0 := escapingConsumer) exceptionEscapes
          {| receiver := r; servicers := [] |}
    | Threw _ => None
    end.

End MulticastReceiver.

(** * The profiler *)

Module Profiler.

(** [double] *)
Abbreviation double := PrimFloat.float (only parsing).

Section Clock.

(** The header chooses the clock by platform: [PROFILER_TIME_TYPE] is the
    type of a reading of the clock ([DWORD] ticks or [ptime]), and
    [PROFILER_DIFF_MSEC(a, b)], converted to [double], is the time from
    [b] to [a] in milliseconds. A reading [now] that a function is given
    stands for the value of [PROFILER_GET_TIME] where the function reads
    the clock. *)
Context {PROFILER_TIME_TYPE : Type}.
Context (PROFILER_DIFF_MSEC : PROFILER_TIME_TYPE -> PROFILER_TIME_TYPE -> double).

(** The members of [class ProfileAccumulator]. [root_] and [next_] link the
    accumulators in a list that only [write] and [print] walk; they are
    left out. *)
Record ProfileAccumulator : Type := mkAccumulator {
  name_ : string;
  file_ : string;
  line_ : Z;
  entries_ : Z;
  exits_ : Z;
  pauses_ : Z;
  resumes_ : Z;
  sum_ : double;
  sumOfSquares_ : double;
  recursions_ : Z;
  recursiveSum_ : double;
  recursiveSumOfSquares_ : double
}.

(** The members of [class ProfileInstance]; the accumulator that
    [accumulator_] refers to is passed to every function and returned. *)
Record ProfileInstance : Type := mkInstance {
  start_ : PROFILER_TIME_TYPE;
  running_ : bool
}.

Definition set_entries_ (v : Z) (a : ProfileAccumulator) : ProfileAccumulator :=
  mkAccumulator (name_ a) (file_ a) (line_ a) v (exits_ a) (pauses_ a) (resumes_ a)
    (sum_ a) (sumOfSquares_ a) (recursions_ a) (recursiveSum_ a) (recursiveSumOfSquares_ a).

Definition set_exits_ (v : Z) (a : ProfileAccumulator) : ProfileAccumulator :=
  mkAccumulator (name_ a) (file_ a) (line_ a) (entries_ a) v (pauses_ a) (resumes_ a)
    (sum_ a) (sumOfSquares_ a) (recursions_ a) (recursiveSum_ a) (recursiveSumOfSquares_ a).

Definition set_pauses_ (v : Z) (a : ProfileAccumulator) : ProfileAccumulator :=
  mkAccumulator (name_ a) (file_ a) (line_ a) (entries_ a) (exits_ a) v (resumes_ a)
    (sum_ a) (sumOfSquares_ a) (recursions_ a) (recursiveSum_ a) (recursiveSumOfSquares_ a).

Definition set_resumes_ (v : Z) (a : ProfileAccumulator) : ProfileAccumulator :=
  mkAccumulator (name_ a) (file_ a) (line_ a) (entries_ a) (exits_ a) (pauses_ a) v
    (sum_ a) (sumOfSquares_ a) (recursions_ a) (recursiveSum_ a) (recursiveSumOfSquares_ a).

(** [sum_ += lapse; sumOfSquares_ += lapse * lapse;] *)
Definition addLapse (lapse : double) (a : ProfileAccumulator) : ProfileAccumulator :=
  mkAccumulator (name_ a) (file_ a) (line_ a) (entries_ a) (exits_ a) (pauses_ a) (resumes_ a)
    (PrimFloat.add (sum_ a) lapse)
    (PrimFloat.add (sumOfSquares_ a) (PrimFloat.mul lapse lapse))
    (recursions_ a) (recursiveSum_ a) (recursiveSumOfSquares_ a).

(** [recursions_ += 1; recursiveSum_ += lapse;
    recursiveSumOfSquares_ += lapse * lapse;] *)
Definition addRecursion (lapse : double) (a : ProfileAccumulator) : ProfileAccumulator :=
  mkAccumulator (name_ a) (file_ a) (line_ a) (entries_ a) (exits_ a) (pauses_ a) (resumes_ a)
    (sum_ a) (sumOfSquares_ a)
    (wrap (recursions_ a + 1))
    (PrimFloat.add (recursiveSum_ a) lapse)
    (PrimFloat.add (recursiveSumOfSquares_ a) (PrimFloat.mul lapse lapse)).

(** [ProfileInstance::ProfileInstance(ProfileAccumulator &)] *)
Definition enter (now : PROFILER_TIME_TYPE) (accumulator : ProfileAccumulator)
  : ProfileInstance * ProfileAccumulator :=
  (mkInstance now true, set_entries_ (wrap (entries_ accumulator + 1)) accumulator).

(** [ProfileInstance::stop]; [None] when the [assert] fails. *)
Definition stop (now : PROFILER_TIME_TYPE) (instance : ProfileInstance)
    (accumulator : ProfileAccumulator) : option (ProfileInstance * ProfileAccumulator) :=
  if running_ instance then
    let lapse := PROFILER_DIFF_MSEC now (start_ instance) in
    let accumulator := addLapse lapse accumulator in
    if decide (exits_ accumulator < entries_ accumulator) then
      let accumulator :=
        if decide (entries_ accumulator <> wrap (exits_ accumulator + 1))
        then addRecursion lapse accumulator
        else accumulator in
      Some (mkInstance (start_ instance) false, accumulator)
    else None
  else Some (instance, accumulator).

(** [ProfileInstance::~ProfileInstance] *)
Definition leave (now : PROFILER_TIME_TYPE) (instance : ProfileInstance)
    (accumulator : ProfileAccumulator) : option ProfileAccumulator :=
  '(_, accumulator) ← stop now instance accumulator;
  Some (set_exits_ (wrap (exits_ accumulator + 1)) accumulator).

(** [ProfileInstance::pause] *)
Definition pause (now : PROFILER_TIME_TYPE) (instance : ProfileInstance)
    (accumulator : ProfileAccumulator)
  : option (bool * ProfileInstance * ProfileAccumulator) :=
  let result := running_ instance in
  '(instance, accumulator) ← stop now instance accumulator;
  Some (result, instance, set_pauses_ (wrap (pauses_ accumulator + 1)) accumulator).

(** [ProfileInstance::resume] *)
Definition resume (pauseState : bool) (now : PROFILER_TIME_TYPE) (instance : ProfileInstance)
    (accumulator : ProfileAccumulator) : ProfileInstance * ProfileAccumulator :=
  let accumulator := set_resumes_ (wrap (resumes_ accumulator + 1)) accumulator in
  if negb (running_ instance) && pauseState
  then (mkInstance now true, accumulator)
  else (instance, accumulator).

(** The profile point of a function that calls itself: each call makes its
    instance when it is entered and destroys it when it returns, the calls
    it makes in between. [times] holds, outermost call first, the readings
    of the clock at the entry and at the return of each call. *)
Fixpoint nested (times : list (PROFILER_TIME_TYPE * PROFILER_TIME_TYPE))
    (accumulator : ProfileAccumulator) : option ProfileAccumulator :=
  match times with
  | [] => Some accumulator
  | (entered, returned) :: inner =>
      let '(instance, accumulator) := enter entered accumulator in
      accumulator ← nested inner accumulator;
      leave returned instance accumulator
  end.

(** A scope that makes an instance, pauses it for a while and resumes it
    with what [pause] returned, and ends; the four readings of the clock
    are those of the constructor, [pause], [resume] and the destructor. *)
Definition pausedScope (entered paused resumed returned : PROFILER_TIME_TYPE)
    (accumulator : ProfileAccumulator) : option ProfileAccumulator :=
  let '(instance, accumulator) := enter entered accumulator in
  '(pauseState, instance, accumulator) ← pause paused instance accumulator;
  let '(instance, accumulator) := resume pauseState resumed instance accumulator in
  leave returned instance accumulator.

End Clock.

Arguments ProfileInstance : clear implicits.

(** A clock that counts milliseconds, as [GetTickCount] does. *)
Definition tickLapse (now start : Z) : double :=
  PrimFloat.of_uint63 (Uint63.of_Z ((now - start) mod 2 ^ 32)).

(** An accumulator on which nothing has been counted yet, for the
    examples. *)
Definition newAccumulator : ProfileAccumulator :=
  mkAccumulator "decode" "Decoder.cpp" 42 0 0 0 0
    PrimFloat.zero PrimFloat.zero 0 PrimFloat.zero PrimFloat.zero.

End Profiler.

(** * Properties of the presence map *)

Module PresenceMapFacts.
Import PresenceMap.

(** ** Facts about single bytes, by enumeration of the byte's values *)

Lemma forall_below (N : Z) (P : Z -> Prop) `{!forall b, Decision (P b)} :
  forallb (fun b => bool_decide (P b)) (map Z.of_nat (seq 0 (Z.to_nat N))) = true ->
  forall b, 0 <= b < N -> P b.
Proof.
  intros Hall b Hb.
  rewrite forallb_forall in Hall.
  specialize (Hall b).
  apply (proj1 (bool_decide_eq_true (P b))), Hall.
  apply in_map_iff. exists (Z.to_nat b). split; [lia|].
  apply in_seq. lia.
Qed.

Ltac enumerate_byte N :=
  match goal with
  | |- forall b : Z, 0 <= b < _ -> @?P b =>
      simple refine (@forall_below N P _ _);
      [ (intros ?; cbv beta; apply _) .. | vm_compute; reflexivity ]
  end.

Tactic Notation "enumerate_index" ident(j) :=
  destruct j as [|j]; [|
  destruct j as [|j]; [|
  destruct j as [|j]; [|
  destruct j as [|j]; [|
  destruct j as [|j]; [|
  destruct j as [|j]; [|
  destruct j as [|j]; [| exfalso; lia ]]]]]]].

Lemma mask_nonzero j : (j < 7)%nat -> mask j <> 0.
Proof. intros Hj. enumerate_index j; vm_compute; discriminate. Qed.

Lemma mask_start j : (j < 7)%nat -> mask j = startByteMask -> j = O.
Proof. intros Hj. enumerate_index j; vm_compute; congruence. Qed.

Lemma mask_shiftr j : Z.shiftr (mask j) 1 = mask (S j).
Proof.
  unfold mask. rewrite Z.shiftr_shiftr by lia. f_equal. lia.
Qed.

Lemma mask_7 : mask 7 = 0.
Proof. reflexivity. Qed.

Lemma mask_inj j j' : (j < 7)%nat -> (j' < 7)%nat -> mask j = mask j' -> j = j'.
Proof.
  intros Hj Hj'. enumerate_index j; enumerate_index j'; vm_compute; congruence.
Qed.

Lemma dataBit_set j j' :
  (j < 7)%nat -> (j' < 7)%nat ->
  forall b, 0 <= b < 128 ->
  dataBit (Z.lor b (mask j)) j' = (if decide (j = j') then true else dataBit b j').
Proof.
  intros Hj Hj'. enumerate_index j; enumerate_index j'; enumerate_byte 128.
Qed.

Lemma dataBit_clear j j' :
  (j < 7)%nat -> (j' < 7)%nat ->
  forall b, 0 <= b < 128 ->
  dataBit (Z.land b (Z.lnot (mask j))) j' = (if decide (j = j') then false else dataBit b j').
Proof.
  intros Hj Hj'. enumerate_index j; enumerate_index j'; enumerate_byte 128.
Qed.

Lemma set_range j : (j < 7)%nat -> forall b, 0 <= b < 128 -> 0 <= Z.lor b (mask j) < 128.
Proof. intros Hj. enumerate_index j; enumerate_byte 128. Qed.

Lemma clear_range j :
  (j < 7)%nat -> forall b, 0 <= b < 128 -> 0 <= Z.land b (Z.lnot (mask j)) < 128.
Proof. intros Hj. enumerate_index j; enumerate_byte 128. Qed.

Lemma dataBit_stop j : (j < 7)%nat -> forall b, 0 <= b < 256 -> dataBit (Z.lor b stopBit) j = dataBit b j.
Proof. intros Hj. enumerate_index j; enumerate_byte 256. Qed.

Lemma dataBit_zero j : dataBit 0 j = false.
Proof. reflexivity. Qed.

Lemma stop_set : forall b, 0 <= b < 256 -> Z.land (Z.lor b stopBit) stopBit <> 0.
Proof. enumerate_byte 256. Qed.

Lemma stop_range : forall b, 0 <= b < 256 -> 0 <= Z.lor b stopBit < 256.
Proof. enumerate_byte 256. Qed.

Lemma no_stop_below_128 : forall b, 0 <= b < 128 -> Z.land b stopBit = 0.
Proof. enumerate_byte 128. Qed.

Lemma no_stop_range : forall b, 0 <= b < 256 -> Z.land b stopBit = 0 -> 0 <= b < 128.
Proof. enumerate_byte 256. Qed.

(** ** The cursor and the bits it addresses *)

Ltac divlia := zify; Z.to_euclidean_division_equations; lia.

#[local] Arguments Nat.div : simpl never.
#[local] Arguments Nat.modulo : simpl never.

Lemma checkSpecificField_bitOf N pm : checkSpecificField N pm = bitOf (bits_ pm) N.
Proof. reflexivity. Qed.

Lemma advance_bits pm : bits_ (advance pm) = bits_ pm.
Proof. unfold advance. case_decide; reflexivity. Qed.

Lemma advance_cursorAt pm n : cursorAt pm n -> cursorAt (advance pm) (S n).
Proof.
  intros [Hpos Hmask]. unfold advance, cursorAt.
  rewrite Hmask, mask_shiftr.
  destruct (decide (n mod 7 = 6)%nat) as [H6|H6].
  - rewrite H6. rewrite decide_True by reflexivity. cbn [bytePosition_ bitMask_].
    rewrite Hpos. replace (S n mod 7)%nat with O by divlia.
    split; [divlia | reflexivity].
  - rewrite decide_False by (apply mask_nonzero; divlia). cbn [bytePosition_ bitMask_].
    rewrite Hpos. replace (S n mod 7)%nat with (S (n mod 7)) by divlia.
    split; [divlia | reflexivity].
Qed.

Lemma rewind_cursorAt pm : cursorAt (rewind pm) 0.
Proof. split; reflexivity. Qed.

Lemma checkNextField_at pm n :
  cursorAt pm n -> checkNextField pm = (bitOf (bits_ pm) n, advance pm).
Proof.
  intros [Hpos Hmask]. unfold checkNextField, bitOf, readByte, dataBit.
  rewrite Hpos, Hmask. reflexivity.
Qed.

Lemma checkFields_at n : forall pm c,
  cursorAt pm c -> (checkFields n pm).1 = map (bitOf (bits_ pm)) (seq c n).
Proof.
  induction n as [|n IH]; intros pm c Hc; [reflexivity|].
  cbn [checkFields seq map]. rewrite (checkNextField_at pm c Hc).
  specialize (IH (advance pm) (S c) (advance_cursorAt pm c Hc)).
  destruct (checkFields n (advance pm)) as [rest pm2]. cbn [fst] in *.
  rewrite IH, advance_bits. reflexivity.
Qed.

Lemma bitOf_replicate k N : bitOf (replicate k 0) N = false.
Proof.
  unfold bitOf. destruct (_ !! _) as [b|] eqn:Hb; [|reflexivity].
  apply lookup_replicate in Hb as [-> _]. reflexivity.
Qed.

Lemma bitOf_app_zeros bits k N : bitOf (bits ++ replicate k 0) N = bitOf bits N.
Proof.
  unfold bitOf. destruct (decide (N / 7 < length bits)%nat) as [Hlt|Hge].
  - rewrite lookup_app_l by exact Hlt. reflexivity.
  - rewrite lookup_app_r by lia. rewrite (lookup_ge_None_2 bits) by lia.
    destruct (_ !! _) as [b|] eqn:Hb; [|reflexivity].
    apply lookup_replicate in Hb as [-> _]. reflexivity.
Qed.

(** ** Maps filled by [setNextField] only *)

Lemma make_accumulated d bits : accumulated [] (make d bits).
Proof.
  unfold make. split; simpl.
  - split; reflexivity.
  - intros H; exfalso; apply H; reflexivity.
  - unfold byteCapacity_; simpl; lia.
  - apply Forall_replicate. lia.
  - intros N. apply bitOf_replicate.
Qed.

Lemma lookup_snoc_default (fields : list bool) present N :
  default false ((fields ++ [present]) !! N) =
  if decide (N = length fields) then present else default false (fields !! N).
Proof.
  destruct (decide (N = length fields)) as [->|Hne].
  - rewrite lookup_app_r by lia. rewrite Nat.sub_diag. reflexivity.
  - destruct (decide (N < length fields)%nat).
    + rewrite lookup_app_l by lia. reflexivity.
    + rewrite !lookup_ge_None_2; [reflexivity | lia | rewrite length_app; simpl; lia].
Qed.

Lemma setNextField_accumulated present fields pm :
  accumulated fields pm ->
  exists pm', setNextField present pm = Some pm' /\ accumulated (fields ++ [present]) pm'.
Proof.
  intros [[Hpos Hmask] Hroom Hfits Hdata Hbits].
  set (n := length fields) in *.
  assert (Hj : (n mod 7 < 7)%nat) by divlia.
  unfold setNextField.
  set (pm1 := if decide (byteCapacity_ pm <= bytePosition_ pm)%nat then grow pm else pm).
  assert (H1 : bitMask_ pm1 = mask (n mod 7) /\ bytePosition_ pm1 = (n / 7)%nat /\
               (n / 7 < length (bits_ pm1))%nat /\
               Forall (fun b => 0 <= b < 128) (bits_ pm1) /\
               forall N, bitOf (bits_ pm1) N = bitOf (bits_ pm) N).
  { subst pm1. unfold byteCapacity_ in *. case_decide as Hfull; simpl.
    - repeat split; try assumption.
      + rewrite length_app. simpl. lia.
      + apply Forall_app. split; [assumption|]. repeat constructor; lia.
      + intros N. apply (bitOf_app_zeros (bits_ pm) 1).
    - repeat split; try assumption. lia. }
  destruct H1 as (Hmask1 & Hpos1 & Hlt1 & Hdata1 & Hbits1).
  unfold readByte, writeByte, byteCapacity_. rewrite Hpos1, Hmask1.
  destruct (lookup_lt_is_Some_2 (bits_ pm1) (n / 7)%nat Hlt1) as [b Hb].
  rewrite Hb. simpl. rewrite decide_True by exact Hlt1. simpl.
  assert (Hbr : 0 <= b < 128).
  { rewrite Forall_lookup in Hdata1. exact (Hdata1 _ _ Hb). }
  eexists. split; [reflexivity|].
  set (v := if present then Z.lor b (mask (n mod 7)) else Z.land b (Z.lnot (mask (n mod 7)))).
  assert (Hlen : length (fields ++ [present]) = S n) by (rewrite length_app; simpl; lia).
  split; rewrite ?Hlen.
  - apply advance_cursorAt. split; simpl; (assumption || reflexivity).
  - unfold byteCapacity_. rewrite advance_bits. simpl. rewrite length_insert. divlia.
  - unfold byteCapacity_. rewrite advance_bits. simpl. rewrite length_insert. divlia.
  - rewrite advance_bits. simpl. apply Forall_insert; [exact Hdata1|].
    subst v. destruct present; [apply set_range | apply clear_range]; assumption.
  - intros N. rewrite advance_bits. simpl. rewrite lookup_snoc_default.
    fold n. unfold bitOf at 1.
    destruct (decide (N / 7 = n / 7)%nat) as [Hsame|Hother].
    + rewrite Hsame, list_lookup_insert_eq by exact Hlt1.
      assert (HN : (N mod 7 < 7)%nat) by divlia.
      assert (Hv : dataBit v (N mod 7) =
                   if decide (n mod 7 = N mod 7)%nat then present else dataBit b (N mod 7)).
      { subst v. destruct present.
        - rewrite dataBit_set by assumption. repeat case_decide; reflexivity.
        - rewrite dataBit_clear by assumption. repeat case_decide; reflexivity. }
      rewrite Hv. destruct (decide (N = n)) as [->|HNn].
      * rewrite decide_True by reflexivity. reflexivity.
      * rewrite decide_False by divlia.
        rewrite <- Hbits, <- Hbits1. unfold bitOf. rewrite Hsame, Hb. reflexivity.
    + rewrite list_lookup_insert_ne by congruence.
      rewrite decide_False by (intros ->; congruence).
      rewrite <- Hbits, <- Hbits1. reflexivity.
Qed.

Lemma setFields_accumulated more : forall fields pm,
  accumulated fields pm ->
  exists pm', setFields more pm = Some pm' /\ accumulated (fields ++ more) pm'.
Proof.
  induction more as [|present more IH]; intros fields pm Hacc.
  - exists pm. rewrite app_nil_r. split; [reflexivity | assumption].
  - destruct (setNextField_accumulated present fields pm Hacc) as (pm1 & Hset & Hacc1).
    destruct (IH _ _ Hacc1) as (pm2 & Hrest & Hacc2).
    exists pm2. simpl. rewrite Hset. simpl. rewrite Hrest.
    rewrite <- app_assoc in Hacc2. split; [reflexivity | exact Hacc2].
Qed.

(** ** [encode] *)

Lemma trimZeroBytes_spec pm : forall bpos,
  (bpos < byteCapacity_ pm)%nat ->
  exists k, trimZeroBytes pm bpos = Some k /\ (k <= bpos)%nat /\
            forall i, (k < i <= bpos)%nat -> bits_ pm !! i = Some 0.
Proof.
  induction bpos as [|bpos IH]; intros Hlt.
  - exists O. repeat split; [lia | intros; lia].
  - cbn [trimZeroBytes]. unfold readByte.
    destruct (lookup_lt_is_Some_2 (bits_ pm) (S bpos) Hlt) as [b Hb].
    rewrite Hb. cbn. case_decide as Hz.
    + destruct IH as (k & Hk & Hle & Hzero); [lia|].
      exists k. repeat split; [exact Hk | lia |].
      intros i Hi. destruct (decide (i = S bpos)) as [->|]; [congruence | apply Hzero; lia].
    + exists (S bpos). repeat split; [lia | intros; lia].
Qed.

Lemma trimZeroBytes_bound pm : forall bpos k,
  trimZeroBytes pm bpos = Some k -> k = O \/ (k < byteCapacity_ pm)%nat.
Proof.
  induction bpos as [|bpos IH]; intros k; cbn [trimZeroBytes].
  - intros [= <-]. left; reflexivity.
  - unfold readByte. destruct (bits_ pm !! S bpos) as [b|] eqn:Hb; cbn; [|discriminate].
    case_decide; [apply IH|]. intros [= <-]. right. eapply lookup_lt_Some, Hb.
Qed.

Lemma putBytes_spec pm : forall n pos destination,
  (pos + n <= byteCapacity_ pm)%nat ->
  putBytes pm pos n destination = Some (destination ++ take n (drop pos (bits_ pm))).
Proof.
  induction n as [|n IH]; intros pos destination Hle.
  - cbn. rewrite app_nil_r. reflexivity.
  - cbn [putBytes]. unfold readByte, byteCapacity_ in *.
    destruct (lookup_lt_is_Some_2 (bits_ pm) pos) as [b Hb]; [lia|].
    rewrite Hb. cbn. rewrite IH by lia. unfold putByte.
    rewrite (drop_S _ _ _ Hb). cbn. rewrite <- app_assoc. reflexivity.
Qed.

#[local] Arguments putBytes : simpl never.

(** What [encode] does on a map whose trimming loop stops at [k]. *)
Lemma encode_at pm destination k b :
  nothingWritten pm = false ->
  trimZeroBytes pm (lastUsedByte pm) = Some k ->
  bits_ pm !! k = Some b ->
  encode pm destination =
    Some (mk (bitMask_ pm) (bytePosition_ pm) (<[k := Z.lor b stopBit]> (bits_ pm)),
          destination ++ take k (bits_ pm) ++ [Z.lor b stopBit]).
Proof.
  intros Hnw Htrim Hb. unfold encode. rewrite Hnw, Htrim. cbn.
  unfold readByte. rewrite Hb. cbn.
  assert (Hk : (k < length (bits_ pm))%nat) by (eapply lookup_lt_Some, Hb).
  unfold writeByte, byteCapacity_. rewrite decide_True by exact Hk. cbn [mbind option_bind].
  rewrite putBytes_spec by (unfold byteCapacity_; cbn; rewrite length_insert; lia).
  cbn [bits_ mbind option_bind]. rewrite drop_0.
  rewrite (take_S_r _ _ (Z.lor b stopBit)) by (apply list_lookup_insert_eq; exact Hk).
  rewrite take_insert_ge by lia. reflexivity.
Qed.

Lemma accumulated_written fields pm :
  accumulated fields pm -> fields <> [] -> nothingWritten pm = false.
Proof.
  intros [[Hpos Hmask] _ _ _ _] Hne. unfold nothingWritten.
  destruct fields as [|f fields]; [congruence|]. clear Hne.
  set (n := length (f :: fields)) in *.
  assert (Hn : (0 < n)%nat) by (subst n; cbn; lia).
  apply andb_false_iff.
  destruct (decide (n mod 7 = 0)%nat) as [H0|H0].
  - left. apply bool_decide_eq_false. rewrite Hpos. divlia.
  - right. apply bool_decide_eq_false. rewrite Hmask. intros Hstart.
    apply mask_start in Hstart; [congruence | divlia].
Qed.

Lemma accumulated_lastUsedByte fields pm :
  accumulated fields pm -> fields <> [] ->
  (lastUsedByte pm < byteCapacity_ pm)%nat /\
  (length fields <= 7 * S (lastUsedByte pm))%nat.
Proof.
  intros [[Hpos Hmask] Hroom Hfits _ _] Hne. unfold lastUsedByte.
  destruct fields as [|f fields]; [congruence|]. clear Hne.
  set (n := length (f :: fields)) in *.
  assert (Hn : (0 < n)%nat) by (subst n; cbn; lia).
  rewrite Hpos, Hmask.
  destruct (decide (n mod 7 = 0)%nat) as [H0|H0].
  - rewrite H0. rewrite decide_True by reflexivity. divlia.
  - rewrite decide_False by (intros Hstart; apply mask_start in Hstart; [congruence | divlia]).
    specialize (Hroom H0). divlia.
Qed.

(** [encode] on a map filled by [setNextField]: the bytes up to the last
    one that is not zero, the stop bit on that one; all bits after it are
    false. *)
Lemma encode_accumulated fields pm destination :
  accumulated fields pm -> fields <> [] ->
  exists k b,
    bits_ pm !! k = Some b /\ 0 <= b < 128 /\
    encode pm destination =
      Some (mk (bitMask_ pm) (bytePosition_ pm) (<[k := Z.lor b stopBit]> (bits_ pm)),
            destination ++ take k (bits_ pm) ++ [Z.lor b stopBit]) /\
    forall N, (k < N / 7)%nat -> bitOf (bits_ pm) N = false.
Proof.
  intros Hacc Hne.
  destruct (accumulated_lastUsedByte _ _ Hacc Hne) as [Hlast Hlen].
  destruct (trimZeroBytes_spec pm _ Hlast) as (k & Htrim & Hle & Hzero).
  destruct (lookup_lt_is_Some_2 (bits_ pm) k) as [b Hb]; [unfold byteCapacity_ in *; lia|].
  exists k, b. split; [exact Hb|]. split.
  { pose proof (acc_data _ _ Hacc) as Hdata. rewrite Forall_lookup in Hdata. eauto. }
  split.
  { apply encode_at; [eapply accumulated_written; eassumption | exact Htrim | exact Hb]. }
  intros N HN. destruct (decide (N / 7 <= lastUsedByte pm)%nat) as [Hin|Hout].
  - unfold bitOf. rewrite Hzero by lia. apply dataBit_zero.
  - rewrite (acc_bits _ _ Hacc). rewrite lookup_ge_None_2; [reflexivity | divlia].
Qed.

(** ** [decode] *)

Lemma appendByte_spec byte pm stored k :
  bits_ pm = stored ++ replicate k 0 ->
  exists pm',
    appendByte (length stored) byte pm = Some (S (length stored), pm') /\
    bitMask_ pm' = bitMask_ pm /\ bytePosition_ pm' = bytePosition_ pm /\
    bits_ pm' = (stored ++ [byte]) ++ replicate (k - 1) 0.
Proof.
  intros Hbits. unfold appendByte, byteCapacity_. rewrite Hbits, length_app, length_replicate.
  destruct k as [|k].
  - rewrite decide_True by lia. rewrite decide_True by lia. cbn.
    unfold writeByte, byteCapacity_. cbn. rewrite Hbits. cbn.
    rewrite app_nil_r, length_app. cbn. rewrite decide_True by lia. cbn.
    eexists. split; [reflexivity|]. cbn. repeat split.
    rewrite insert_app_r_alt by lia. rewrite Nat.sub_diag, app_nil_r. reflexivity.
  - rewrite decide_False by lia. cbn.
    unfold writeByte, byteCapacity_. rewrite Hbits, length_app, length_replicate.
    rewrite decide_True by lia. cbn.
    eexists. split; [reflexivity|]. cbn. repeat split.
    rewrite insert_app_r_alt by lia. rewrite Nat.sub_diag, Nat.sub_0_r.
    cbn. rewrite <- app_assoc. reflexivity.
Qed.

Lemma decodeLoop_spec : forall source byte stored k pm,
  bits_ pm = stored ++ replicate k 0 ->
  exists ok pm' rest,
    decodeLoop source byte (length stored) pm = Some (ok, pm', rest) /\
    bitMask_ pm' = bitMask_ pm /\ bytePosition_ pm' = bytePosition_ pm /\
    exists bits', bits_ pm' = stored ++ bits' /\ decoded (byte :: source) ok bits' rest.
Proof.
  induction source as [|next source IH]; intros byte stored k pm Hbits;
    destruct (appendByte_spec byte pm stored k Hbits) as (pm1 & Happ & Hm & Hp & Hb1);
    cbn [decodeLoop]; rewrite Happ; cbn; case_decide as Hstop.
  - exists false, pm1, []. repeat split; try assumption.
    exists ([byte] ++ replicate (k - 1) 0). split; [rewrite Hb1, <- app_assoc; reflexivity|].
    right. repeat split; [repeat constructor; exact Hstop | eauto].
  - exists true, pm1, []. repeat split; try assumption.
    exists ([byte] ++ replicate (k - 1) 0). split; [rewrite Hb1, <- app_assoc; reflexivity|].
    left. split; [reflexivity|]. exists [], byte, (k - 1)%nat. repeat split; auto.
  - replace (S (length stored)) with (length (stored ++ [byte]))
      by (rewrite length_app; cbn; lia).
    destruct (IH next (stored ++ [byte]) (k - 1)%nat pm1 Hb1)
      as (ok & pm2 & rest & Hloop & Hm2 & Hp2 & bits' & Hb2 & Hdec).
    exists ok, pm2, rest. rewrite Hloop. repeat split; try congruence.
    exists (byte :: bits'). split; [rewrite Hb2, <- app_assoc; reflexivity|].
    destruct Hdec as [(-> & pre & t & k' & Hsrc & Hpre & Ht & ->) | (-> & -> & Hall & k' & ->)].
    + left. split; [reflexivity|]. exists (byte :: pre), t, k'.
      repeat split; [cbn; rewrite Hsrc; reflexivity | constructor; assumption | exact Ht].
    + right. repeat split; [constructor; assumption | exists k'; reflexivity].
  - exists true, pm1, (next :: source). repeat split; try assumption.
    exists ([byte] ++ replicate (k - 1) 0). split; [rewrite Hb1, <- app_assoc; reflexivity|].
    left. split; [reflexivity|]. exists [], byte, (k - 1)%nat. repeat split; auto.
Qed.

Lemma decode_spec source pm :
  exists ok pm' rest,
    decode source pm = Some (ok, pm', rest) /\
    bitMask_ pm' = startByteMask /\ bytePosition_ pm' = O /\
    decoded source ok (bits_ pm') rest.
Proof.
  unfold decode. destruct source as [|byte source]; cbn [getByte].
  - exists false, (reset 0 pm), []. repeat split.
    right. repeat split; [constructor|]. eexists. reflexivity.
  - destruct (decodeLoop_spec source byte [] (byteCapacity_ pm) (reset 0 pm))
      as (ok & pm' & rest & Hloop & Hm & Hp & bits' & Hb & Hdec).
    { unfold reset. rewrite decide_False by lia. reflexivity. }
    exists ok, pm', rest. cbn in Hloop, Hb. rewrite Hb. repeat split; assumption.
Qed.

(** The first byte with the stop bit splits a byte string in one way. *)
Lemma first_stop_unique pre t rest pre' t' rest' :
  pre ++ t :: rest = pre' ++ t' :: rest' ->
  Forall noStop pre -> ~ noStop t -> Forall noStop pre' -> ~ noStop t' ->
  pre = pre' /\ t = t' /\ rest = rest'.
Proof.
  revert pre'. induction pre as [|x pre IH]; intros [|x' pre'] Heq Hpre Ht Hpre' Ht'; cbn in Heq.
  - injection Heq as -> ->. auto.
  - injection Heq as -> _. inversion Hpre'; subst. contradiction.
  - injection Heq as -> _. inversion Hpre; subst. contradiction.
  - injection Heq as -> Heq. inversion Hpre; inversion Hpre'; subst.
    destruct (IH pre' Heq) as (-> & -> & ->); auto.
Qed.

(** ** The claims about [decode] and [encode] *)

(** C7. [decode] returns false if and only if the source ends before a
    byte with the stop bit is read, that is, when no byte of the source
    carries the stop bit. When it returns true the bytes up to and
    including the first one with the stop bit are the first bytes of the
    map's buffer, the last of them stored as read, stop bit included, and
    the bytes after it are left in the source. *)
Theorem decode_reads_to_first_stop_bit (source : DataSource) (pm : t) :
  exists ok pm' rest,
    decode source pm = Some (ok, pm', rest) /\
    (ok = false <-> Forall noStop source) /\
    (ok = true ->
     exists pre t, source = pre ++ t :: rest /\ Forall noStop pre /\ ~ noStop t /\
                   take (S (length pre)) (bits_ pm') = pre ++ [t]).
Proof.
  destruct (decode_spec source pm) as (ok & pm' & rest & Hdec & _ & _ & Hcases).
  exists ok, pm', rest. split; [exact Hdec|].
  destruct Hcases as [(-> & pre & t & k & Hsrc & Hpre & Ht & Hbits) | (-> & -> & Hall & k & Hbits)].
  - split.
    + split; [discriminate|]. intros Hall. exfalso. apply Ht.
      rewrite Hsrc in Hall. apply Forall_app in Hall as [_ Hall]. inversion Hall; assumption.
    + intros _. exists pre, t. repeat split; try assumption.
      rewrite Hbits. apply take_app_length'. rewrite length_app. cbn. lia.
  - split; [tauto | discriminate].
Qed.

Lemma filter_stop_nil (body : list uchar) :
  Forall noStop body -> filter (fun b => ~ noStop b) body = [].
Proof.
  induction 1 as [|b body Hb _ IH]; [reflexivity|].
  rewrite filter_cons_False by tauto. exact IH.
Qed.

Lemma accumulated_noStop fields pm k :
  accumulated fields pm -> Forall noStop (take k (bits_ pm)).
Proof.
  intros Hacc. apply Forall_take. eapply Forall_impl; [apply (acc_data _ _ Hacc)|].
  intros b Hb. apply no_stop_below_128, Hb.
Qed.

(** C5, amended. A newly constructed map filled by [setNextField] only
    and not encoded before, with at least one bit written, is encoded as
    bytes of which exactly one has the bit 0x80 set, and that one is the
    last; a map in which no bit has been written is encoded as no bytes at
    all. *)
Theorem encode_stop_bit_once (defaultByteCapacity : nat) (bits : Z) (fields : list bool) :
  exists pm pm' out,
    setFields fields (make defaultByteCapacity bits) = Some pm /\
    encode pm [] = Some (pm', out) /\
    (fields = [] -> out = []) /\
    (fields <> [] ->
     length (filter (fun b => ~ noStop b) out) = 1%nat /\
     exists b, last out = Some b /\ ~ noStop b).
Proof.
  destruct (setFields_accumulated fields [] _ (make_accumulated defaultByteCapacity bits))
    as (pm & Hset & Hacc).
  cbn [app] in Hacc. exists pm.
  destruct fields as [|f fields].
  - injection Hset as <-. exists (make defaultByteCapacity bits), [].
    repeat split; congruence.
  - destruct (encode_accumulated _ pm [] Hacc) as (k & b & Hb & Hbr & Henc & _); [discriminate|].
    eexists _, _. split; [exact Hset|]. split; [exact Henc|]. split; [discriminate|].
    intros _. cbn [app]. split.
    + rewrite filter_app, filter_stop_nil by (eapply accumulated_noStop, Hacc).
      rewrite filter_cons_True by (apply stop_set; lia). reflexivity.
    + exists (Z.lor b stopBit). split; [apply last_snoc | apply stop_set; lia].
Qed.

(** C5 as stated fails for a map that has been encoded before: [encode]
    writes the stop bit into the buffer, and it stays there. Seven fields
    are written and the map is encoded, then an eighth field is written:
    the second [encode] emits the first byte with the stop bit it was
    given, 0xFF, and then the last byte, 0xC0. *)
Lemma encode_keeps_earlier_stop_bit :
  exists pm0 pm1 out1 pm2 pm3 out,
    setFields (replicate 7 true) (make 1 7) = Some pm0 /\
    encode pm0 [] = Some (pm1, out1) /\
    setNextField true pm1 = Some pm2 /\
    encode pm2 [] = Some (pm3, out) /\
    out = [0xFF; 0xC0] /\
    length (filter (fun b => ~ noStop b) out) = 2%nat /\
    last out = Some 0xC0 /\ head out = Some 0xFF /\ ~ noStop 0xFF.
Proof.
  do 6 eexists. do 4 (split; [vm_compute; reflexivity|]).
  split; [reflexivity|]. split; [reflexivity|]. split; [reflexivity|].
  split; [reflexivity|]. unfold noStop. vm_compute. discriminate.
Qed.

(** C6. On a map with an allocated buffer, [encodeBytesNeeded] returns the
    number of bytes that [encode], called in the same state, appends to the
    destination; [encode] reads outside the buffer exactly when
    [encodeBytesNeeded] does. *)
Theorem encodeBytesNeeded_counts_encode (pm : t) (destination : DataDestination) :
  (0 < byteCapacity_ pm)%nat ->
  match encode pm destination with
  | Some (_, destination') =>
      exists emitted, destination' = destination ++ emitted /\
                      encodeBytesNeeded pm = Some (length emitted)
  | None => encodeBytesNeeded pm = None
  end.
Proof.
  intros Hcap. unfold encodeBytesNeeded.
  destruct (nothingWritten pm) eqn:Hnw.
  - unfold encode. rewrite Hnw. exists []. rewrite app_nil_r. split; reflexivity.
  - destruct (trimZeroBytes pm (lastUsedByte pm)) as [k|] eqn:Htrim.
    + assert (Hk : (k < length (bits_ pm))%nat).
      { destruct (trimZeroBytes_bound _ _ _ Htrim); unfold byteCapacity_ in *; lia. }
      destruct (lookup_lt_is_Some_2 _ _ Hk) as [b Hb].
      rewrite (encode_at pm destination k b Hnw Htrim Hb).
      eexists. split; [reflexivity|]. cbn. rewrite length_app, length_take. cbn.
      f_equal. lia.
    + unfold encode. rewrite Hnw, Htrim. reflexivity.
Qed.

Lemma encodeBytesNeeded_counts_encode_witness :
  match encode (mk 0x20 1 [0x7F; 0x40; 0]) [] with
  | Some (_, destination') =>
      exists emitted, destination' = [] ++ emitted /\
                      encodeBytesNeeded (mk 0x20 1 [0x7F; 0x40; 0]) = Some (length emitted)
  | None => encodeBytesNeeded (mk 0x20 1 [0x7F; 0x40; 0]) = None
  end.
Proof.
  apply (encodeBytesNeeded_counts_encode (mk 0x20 1 [0x7F; 0x40; 0]) []).
  unfold byteCapacity_. simpl. lia.
Defined.

Lemma read_back (fields : list bool) (pm : t) :
  cursorAt pm 0 ->
  (forall N, bitOf (bits_ pm) N = default false (fields !! N)) ->
  forall more,
    (checkFields (length fields + more) pm).1 = fields ++ replicate more false.
Proof.
  intros Hc Hbits more. rewrite (checkFields_at _ pm 0 Hc).
  apply list_eq. intros i.
  change (map (bitOf (bits_ pm))) with (fmap (M:=list) (bitOf (bits_ pm))).
  rewrite list_lookup_fmap.
  destruct (decide (i < length fields + more)%nat) as [Hlt|Hge].
  - rewrite lookup_seq_lt by exact Hlt. cbn. rewrite Hbits.
    destruct (decide (i < length fields)%nat) as [Hin|Hout].
    + rewrite lookup_app_l by exact Hin.
      destruct (lookup_lt_is_Some_2 fields i Hin) as [f ->]. reflexivity.
    + rewrite lookup_app_r by lia. rewrite (lookup_ge_None_2 fields) by lia.
      cbn. symmetry. apply lookup_replicate. split; [reflexivity | lia].
  - rewrite lookup_seq_ge by lia. cbn. symmetry. apply lookup_ge_None_2.
    rewrite length_app, length_replicate. lia.
Qed.

(** The map that [decode] builds from the bytes [encode] emitted reads as
    the fields that were written, false after them. *)
Lemma decode_encoded fields pm pm1 out target :
  accumulated fields pm -> encode pm [] = Some (pm1, out) ->
  exists ok pm2 rest,
    decode out target = Some (ok, pm2, rest) /\
    (ok = true <-> fields <> []) /\ rest = [] /\
    cursorAt pm2 0 /\
    forall N, bitOf (bits_ pm2) N = default false (fields !! N).
Proof.
  intros Hacc Henc.
  destruct (decode_spec out target) as (ok & pm2 & rest & Hdec & Hm & Hp & Hcases).
  exists ok, pm2, rest. split; [exact Hdec|].
  assert (Hcur : cursorAt pm2 0) by (split; assumption).
  destruct fields as [|f fields].
  - assert (Hnw : nothingWritten pm = true).
    { destruct Hacc as [[Hpos Hmask] _ _ _ _]. unfold nothingWritten.
      rewrite Hpos, Hmask. reflexivity. }
    unfold encode in Henc. rewrite Hnw in Henc. injection Henc as <- <-.
    destruct Hcases as [(_ & pre & t & k & Hsrc & _) | (-> & -> & _ & k & Hbits)].
    { destruct pre; discriminate. }
    split; [split; [discriminate | congruence]|].
    split; [reflexivity|]. split; [exact Hcur|].
    intros N. rewrite Hbits. apply bitOf_replicate.
  - destruct (encode_accumulated _ pm [] Hacc) as (k & b & Hb & Hbr & Henc' & Hzero);
      [discriminate|].
    rewrite Henc in Henc'. injection Henc' as -> ->. cbn [app] in *.
    assert (Hbody : Forall noStop (take k (bits_ pm))) by (eapply accumulated_noStop, Hacc).
    assert (Hlast : ~ noStop (Z.lor b stopBit)) by (apply stop_set; lia).
    assert (Hk : (k < length (bits_ pm))%nat) by (eapply lookup_lt_Some, Hb).
    destruct Hcases as [(-> & pre & t & k' & Hsrc & Hpre & Ht & Hbits) | (_ & _ & Hall & _)].
    2:{ apply Forall_app in Hall as [_ Hall]. inversion Hall; subst. contradiction. }
    change (take k (bits_ pm) ++ [Z.lor b stopBit])
      with (take k (bits_ pm) ++ Z.lor b stopBit :: []) in Hsrc.
    destruct (first_stop_unique _ _ _ _ _ _ Hsrc Hbody Hlast Hpre Ht) as (<- & <- & <-).
    split; [split; [discriminate | reflexivity]|].
    split; [reflexivity|]. split; [exact Hcur|].
    intros N. rewrite Hbits, bitOf_app_zeros, <- (acc_bits _ _ Hacc).
    unfold bitOf at 1.
    destruct (decide (N / 7 < k)%nat) as [Hlt|Hge].
    + rewrite lookup_app_l by (rewrite length_take; lia).
      rewrite lookup_take_lt by exact Hlt. reflexivity.
    + rewrite lookup_app_r by (rewrite length_take; lia).
      rewrite length_take, Nat.min_l by lia.
      destruct (decide (N / 7 = k)%nat) as [Heq|Hne].
      * rewrite Heq, Nat.sub_diag. cbn. unfold bitOf. rewrite Heq, Hb.
        apply dataBit_stop; [divlia | lia].
      * rewrite Hzero by lia.
        destruct (N / 7 - k)%nat as [|[|d]] eqn:Hd; [lia | reflexivity | reflexivity].
Qed.

(** C1. Write the bits [fields] into a new map with [setNextField], encode
    it, and decode the emitted bytes into another new map: reading
    [length fields] bits back with [checkNextField] gives [fields], and
    bits read after them are false. [decode] uses up the bytes and returns
    true, unless there are no fields: then there are no bytes, and [decode]
    reports the end of the source. *)
Theorem encode_decode_round_trip
    (defaultByteCapacity : nat) (bits bits' : Z) (fields : list bool) :
  exists pm pm1 out ok pm2 rest,
    setFields fields (make defaultByteCapacity bits) = Some pm /\
    encode pm [] = Some (pm1, out) /\
    decode out (make defaultByteCapacity bits') = Some (ok, pm2, rest) /\
    (ok = true <-> fields <> []) /\ rest = [] /\
    (checkFields (length fields) pm2).1 = fields /\
    forall more,
      (checkFields (length fields + more) pm2).1 = fields ++ replicate more false.
Proof.
  destruct (setFields_accumulated fields [] _ (make_accumulated defaultByteCapacity bits))
    as (pm & Hset & Hacc).
  cbn [app] in Hacc.
  assert (Henc : exists pm1 out, encode pm [] = Some (pm1, out)).
  { destruct fields as [|f fields].
    - injection Hset as <-. eexists _, _. reflexivity.
    - destruct (encode_accumulated _ pm [] Hacc) as (k & b & _ & _ & Henc & _); [discriminate|].
      eexists _, _. exact Henc. }
  destruct Henc as (pm1 & out & Henc).
  destruct (decode_encoded fields pm pm1 out (make defaultByteCapacity bits') Hacc Henc)
    as (ok & pm2 & rest & Hdec & Hok & Hrest & Hcur & Hbits).
  exists pm, pm1, out, ok, pm2, rest.
  split; [assumption|]. split; [assumption|]. split; [assumption|].
  split; [assumption|]. split; [assumption|]. split.
  - rewrite <- (Nat.add_0_r (length fields)).
    rewrite (read_back fields pm2 Hcur Hbits 0). cbn. apply app_nil_r.
  - apply read_back; assumption.
Qed.

(** ** [reset] *)

Lemma make_capacity d bits :
  byteCapacity_ (make d bits) = Nat.max d (Z.to_nat (wrap (bits + 6) / 7)).
Proof.
  unfold make, byteCapacity_. cbn [bits_]. rewrite length_replicate.
  case_decide; lia.
Qed.

Lemma reset_capacity bitCount pm :
  0 < bitCount -> bitCount + 7 < size_t_max ->
  byteCapacity_ (reset bitCount pm) =
  Nat.max (byteCapacity_ pm) (Z.to_nat ((bitCount + 7) / 8)).
Proof.
  intros Hpos Hmax. unfold reset, rewind, byteCapacity_, wrap. cbn [bits_].
  rewrite length_replicate, decide_True by exact Hpos.
  rewrite Z.mod_small by lia. case_decide; lia.
Qed.

(** C3, as the code has it: [reset] sizes the buffer for eight bits a
    byte, [(bitCount + 7)/8], where the constructor and the cursor use
    seven. On a map of [capacity] bytes, [reset(7 * capacity + 1)] leaves
    the capacity as it is, one byte short of what the bits take. *)
Theorem reset_capacity_too_small (defaultByteCapacity : nat) :
  (0 < defaultByteCapacity)%nat ->
  7 * Z.of_nat defaultByteCapacity + 8 < size_t_max ->
  let bitCount := 7 * Z.of_nat defaultByteCapacity + 1 in
  let pm := reset bitCount (make defaultByteCapacity 0) in
  byteCapacity_ pm = defaultByteCapacity /\
  Z.of_nat (byteCapacity_ pm) < bytesForBits bitCount.
Proof.
  intros Hpos Hmax bitCount pm.
  assert (Hcap : byteCapacity_ pm = defaultByteCapacity).
  { subst pm. rewrite reset_capacity, make_capacity by (subst bitCount; lia).
    change (Z.to_nat (wrap (0 + 6) / 7)) with O. subst bitCount.
    zify. Z.to_euclidean_division_equations. lia. }
  split; [exact Hcap|]. rewrite Hcap. subst bitCount. unfold bytesForBits.
  Z.to_euclidean_division_equations. lia.
Qed.

Lemma reset_capacity_too_small_witness :
  let bitCount := 7 * Z.of_nat 16 + 1 in
  let pm := reset bitCount (make 16 0) in
  byteCapacity_ pm = 16%nat /\
  Z.of_nat (byteCapacity_ pm) < bytesForBits bitCount.
Proof.
  apply (reset_capacity_too_small 16); [lia | reflexivity].
Defined.

Example reset_then_write_grows :
  (pm ← setFields (replicate 113 true) (reset 113 (make 16 0)); Some (byteCapacity_ pm))
  = Some 17%nat /\ byteCapacity_ (reset 113 (make 16 0)) = 16%nat.
Proof. split; vm_compute; reflexivity. Qed.

(** ** [operator==] *)

Lemma equalMask_below j : (j < 7)%nat -> equalMask (mask j) = maskBelow j.
Proof. intros Hj. enumerate_index j; reflexivity. Qed.

Lemma land_maskBelow x j :
  Z.land x (maskBelow j) = 0 <-> forall j0, (j0 < j)%nat -> Z.land x (mask j0) = 0.
Proof.
  induction j as [|j IH]; cbn [maskBelow].
  - rewrite Z.land_0_r. split; [intros _ j0 Hj0; lia | reflexivity].
  - rewrite Z.land_lor_distr_r, Z.lor_eq_0_iff, IH. split.
    + intros [Hlow Hj] j0 Hj0. destruct (decide (j0 = j)) as [->|]; [exact Hj | apply Hlow; lia].
    + intros Hall. split; [intros j0 Hj0; apply Hall; lia | apply Hall; lia].
Qed.

Lemma land_lxor x y m : Z.land (Z.lxor x y) m = Z.lxor (Z.land x m) (Z.land y m).
Proof.
  apply Z.bits_inj'. intros i Hi.
  rewrite Z.lxor_spec, !Z.land_spec, Z.lxor_spec.
  destruct (Z.testbit x i), (Z.testbit y i), (Z.testbit m i); reflexivity.
Qed.

Lemma land_mask_cases j :
  (j < 7)%nat -> forall x, 0 <= x < 256 -> Z.land x (mask j) = 0 \/ Z.land x (mask j) = mask j.
Proof. intros Hj. enumerate_index j; enumerate_byte 256. Qed.

(** Two bytes agree on a data bit when their difference has it clear. *)
Lemma dataBit_agree j x y :
  (j < 7)%nat -> 0 <= x < 256 -> 0 <= y < 256 ->
  Z.land (Z.lxor x y) (mask j) = 0 <-> dataBit x j = dataBit y j.
Proof.
  intros Hj Hx Hy. rewrite land_lxor, Z.lxor_eq_0_iff. unfold dataBit.
  pose proof (mask_nonzero j Hj) as Hm.
  destruct (land_mask_cases j Hj x Hx) as [Hx0|Hx1],
           (land_mask_cases j Hj y Hy) as [Hy0|Hy1];
    rewrite ?Hx0, ?Hx1, ?Hy0, ?Hy1;
    repeat case_bool_decide; cbn; split; congruence.
Qed.

(** A byte without the stop bit is the sum of its seven data bits. *)
Lemma byte_of_dataBits : forall x, 0 <= x < 128 ->
  x = (if dataBit x 0 then 64 else 0) + (if dataBit x 1 then 32 else 0) +
      (if dataBit x 2 then 16 else 0) + (if dataBit x 3 then 8 else 0) +
      (if dataBit x 4 then 4 else 0) + (if dataBit x 5 then 2 else 0) +
      (if dataBit x 6 then 1 else 0).
Proof. enumerate_byte 128. Qed.

Lemma dataBits_inj x y :
  0 <= x < 128 -> 0 <= y < 128 ->
  (forall j, (j < 7)%nat -> dataBit x j = dataBit y j) -> x = y.
Proof.
  intros Hx Hy Hall.
  rewrite (byte_of_dataBits x Hx), (byte_of_dataBits y Hy).
  rewrite !Hall by lia. reflexivity.
Qed.

Lemma samePrefix_true lhs rhs : forall n pos,
  samePrefix lhs rhs pos n = Some true <->
  forall i, (pos <= i < pos + n)%nat ->
            exists x, bits_ lhs !! i = Some x /\ bits_ rhs !! i = Some x.
Proof.
  induction n as [|n IH]; intros pos; cbn [samePrefix].
  - split; [intros _ i Hi; lia | reflexivity].
  - unfold readByte. split.
    + destruct (bits_ lhs !! pos) as [l|] eqn:Hl; cbn; [|discriminate].
      destruct (bits_ rhs !! pos) as [r|] eqn:Hr; cbn; [|discriminate].
      case_decide as Heq; [|discriminate]. subst r.
      rewrite IH. intros Hrest i Hi.
      destruct (decide (i = pos)) as [->|]; [eauto | apply Hrest; lia].
    + intros Hall. destruct (Hall pos) as (x & -> & ->); [lia|]. cbn.
      rewrite decide_True by reflexivity. apply IH. intros i Hi. apply Hall. lia.
Qed.

Lemma samePrefix_defined lhs rhs : forall n pos,
  (pos + n <= byteCapacity_ lhs)%nat -> (pos + n <= byteCapacity_ rhs)%nat ->
  is_Some (samePrefix lhs rhs pos n).
Proof.
  unfold byteCapacity_.
  induction n as [|n IH]; intros pos Hl Hr; cbn [samePrefix]; [eauto|].
  unfold readByte.
  destruct (lookup_lt_is_Some_2 (bits_ lhs) pos) as [l ->]; [lia|].
  destruct (lookup_lt_is_Some_2 (bits_ rhs) pos) as [r ->]; [lia|]. cbn.
  case_decide; [apply IH; lia | eauto].
Qed.

(** The loop of [maskToBitNumber] is over after eight rounds, whatever
    the byte: more fuel changes nothing. *)
Lemma maskToBitNumber_fuel : forall bitMask, 0 <= bitMask < 256 ->
  maskToBitNumberLoop 9 bitMask 0 = maskToBitNumber bitMask /\
  maskToBitNumberLoop 16 bitMask 0 = maskToBitNumber bitMask.
Proof. enumerate_byte 256. Qed.

Lemma maskToBitNumber_mask j : (j < 7)%nat -> maskToBitNumber (mask j) = j.
Proof. intros Hj. enumerate_index j; reflexivity. Qed.

Lemma bitsToCursor_spec pm j :
  (j < 7)%nat -> bitMask_ pm = mask j ->
  bitsToCursor pm = map (bitOf (bits_ pm)) (seq 0 (bytePosition_ pm * 7 + j)).
Proof.
  intros Hj Hmask. unfold bitsToCursor, bitNumber.
  rewrite Hmask, maskToBitNumber_mask by exact Hj.
  apply (checkFields_at _ (rewind pm) 0), rewind_cursorAt.
Qed.

Lemma map_seq_pointwise {A} (f g : nat -> A) n :
  map f (seq 0 n) = map g (seq 0 n) <-> forall i, (i < n)%nat -> f i = g i.
Proof.
  split.
  - intros Heq i Hi.
    assert (H : (f <$> seq 0 n) !! i = (g <$> seq 0 n) !! i) by (f_equal; exact Heq).
    rewrite !list_lookup_fmap, lookup_seq_lt in H by exact Hi. cbn in H. congruence.
  - intros Hall. apply map_ext_in. intros i Hi. apply Hall. apply in_seq in Hi. lia.
Qed.

Lemma comparable_byte pm i x :
  comparable pm -> bits_ pm !! i = Some x -> 0 <= x < 256.
Proof.
  intros Hc Hx. pose proof (cmp_bytes _ Hc) as Hall.
  rewrite Forall_lookup in Hall. exact (Hall _ _ Hx).
Qed.

Lemma comparable_before pm i x :
  comparable pm -> (i < bytePosition_ pm)%nat -> bits_ pm !! i = Some x -> 0 <= x < 128.
Proof.
  intros Hc Hi Hx. apply no_stop_range; [eapply comparable_byte; eassumption|].
  pose proof (cmp_noStop _ Hc) as Hall. rewrite Forall_lookup in Hall.
  apply (Hall i). rewrite lookup_take_lt by exact Hi. exact Hx.
Qed.

(** C4, amended. For two maps whose masks are single data bits, whose
    cursors are inside their buffers and which hold no stop bit before
    their cursors, [operator==] returns true if and only if the maps yield
    the same bits from position 0 up to their cursors. The bits of the
    cursor's byte at and after the cursor play no part. *)
Theorem eqb_iff_same_bits (lhs rhs : t) :
  comparable lhs -> comparable rhs ->
  (eqb lhs rhs = Some true <-> bitsToCursor lhs = bitsToCursor rhs).
Proof.
  intros Hl Hr.
  destruct (cmp_mask _ Hl) as (j & Hj & Hml), (cmp_mask _ Hr) as (j' & Hj' & Hmr).
  pose proof (cmp_inside _ Hl) as Hil. pose proof (cmp_inside _ Hr) as Hir.
  unfold byteCapacity_ in Hil, Hir.
  destruct (lookup_lt_is_Some_2 _ _ Hil) as [l Hlast].
  destruct (lookup_lt_is_Some_2 _ _ Hir) as [r Hrast].
  rewrite (bitsToCursor_spec lhs j Hj Hml), (bitsToCursor_spec rhs j' Hj' Hmr).
  unfold eqb, readByte. split.
  - destruct (decide (bytePosition_ lhs = bytePosition_ rhs)) as [Hp|]; [|discriminate].
    destruct (decide (bitMask_ lhs = bitMask_ rhs)) as [Hm|]; [|discriminate].
    assert (j' = j) as -> by (apply mask_inj; congruence).
    destruct (samePrefix lhs rhs 0 (bytePosition_ lhs)) as [[|]|] eqn:Hpre; cbn;
      try discriminate.
    rewrite Hlast. rewrite <- Hp in Hrast. rewrite Hrast. cbn.
    intros [= Hsame%bool_decide_eq_true]. rewrite Hml, equalMask_below in Hsame by exact Hj.
    rewrite land_maskBelow in Hsame. rewrite samePrefix_true in Hpre.
    rewrite <- Hp. apply map_seq_pointwise. intros N HN. unfold bitOf.
    destruct (decide (N / 7 < bytePosition_ lhs)%nat) as [Hin|Hout].
    + destruct (Hpre (N / 7)%nat) as (x & -> & ->); [lia | reflexivity].
    + replace (N / 7)%nat with (bytePosition_ lhs) by divlia.
      rewrite Hlast, Hrast.
      apply dataBit_agree;
        [divlia | exact (comparable_byte _ _ _ Hl Hlast) | exact (comparable_byte _ _ _ Hr Hrast) |].
      apply Hsame. divlia.
  - intros Hsame.
    assert (Hlen : (bytePosition_ lhs * 7 + j = bytePosition_ rhs * 7 + j')%nat).
    { apply (f_equal length) in Hsame. rewrite !length_map, !length_seq in Hsame. exact Hsame. }
    assert (Hp : bytePosition_ lhs = bytePosition_ rhs) by lia.
    assert (j' = j) as -> by lia.
    rewrite <- Hp in Hsame, Hrast. rewrite map_seq_pointwise in Hsame.
    rewrite decide_True by exact Hp. rewrite decide_True by congruence.
    assert (Hpre : samePrefix lhs rhs 0 (bytePosition_ lhs) = Some true).
    { apply samePrefix_true. intros i Hi.
      destruct (lookup_lt_is_Some_2 (bits_ lhs) i) as [x Hx]; [lia|].
      destruct (lookup_lt_is_Some_2 (bits_ rhs) i) as [y Hy]; [lia|].
      exists x. split; [exact Hx|]. rewrite Hy. f_equal.
      apply dataBits_inj.
      - eapply (comparable_before rhs); [exact Hr | | exact Hy]. lia.
      - eapply (comparable_before lhs); [exact Hl | | exact Hx]. lia.
      - intros j0 Hj0. specialize (Hsame (i * 7 + j0)%nat). unfold bitOf in Hsame.
        replace ((i * 7 + j0) / 7)%nat with i in Hsame by divlia.
        replace ((i * 7 + j0) mod 7)%nat with j0 in Hsame by divlia.
        rewrite Hx, Hy in Hsame. symmetry. apply Hsame. lia. }
    rewrite Hpre. cbn. rewrite Hlast, Hrast. cbn. f_equal.
    apply bool_decide_eq_true_2. rewrite Hml, equalMask_below by exact Hj.
    apply land_maskBelow. intros j0 Hj0.
    apply dataBit_agree;
      [lia | exact (comparable_byte _ _ _ Hl Hlast) | exact (comparable_byte _ _ _ Hr Hrast) |].
    specialize (Hsame (bytePosition_ lhs * 7 + j0)%nat). unfold bitOf in Hsame.
    replace ((bytePosition_ lhs * 7 + j0) / 7)%nat with (bytePosition_ lhs) in Hsame by divlia.
    replace ((bytePosition_ lhs * 7 + j0) mod 7)%nat with j0 in Hsame by divlia.
    rewrite Hlast, Hrast in Hsame. apply Hsame. lia.
Qed.

(** Two maps after the same three calls of [setNextField], one with the
    third bit differing beyond the cursor. *)
Lemma eqb_iff_same_bits_witness :
  eqb (mk 0x08 0 [0x50; 0]) (mk 0x08 0 [0x57; 0]) = Some true <->
  bitsToCursor (mk 0x08 0 [0x50; 0]) = bitsToCursor (mk 0x08 0 [0x57; 0]).
Proof.
  apply (eqb_iff_same_bits (mk 0x08 0 [0x50; 0]) (mk 0x08 0 [0x57; 0]));
    (split;
     [ exists 3%nat; split; [lia | reflexivity]
     | unfold byteCapacity_; simpl; lia
     | simpl; repeat constructor; lia
     | simpl; constructor ]).
Defined.

(** Write the seven bits T F F F F F F into a new map and encode it: the
    stop bit is then stored in byte 0, before the cursor. *)
Example stop_bit_before_cursor :
  setFields [true; false; false; false; false; false; false] (make 2 0)
    = Some (mk 0x40 1 [0x40; 0]) /\
  encode (mk 0x40 1 [0x40; 0]) [] = Some (mk 0x40 1 [0xC0; 0], [0xC0]) /\
  bitsToCursor (mk 0x40 1 [0xC0; 0]) = [true; false; false; false; false; false; false] /\
  bitsToCursor (mk 0x40 1 [0x40; 0]) = [true; false; false; false; false; false; false] /\
  eqb (mk 0x40 1 [0xC0; 0]) (mk 0x40 1 [0x40; 0]) = Some false.
Proof. repeat split. Qed.

(** C4 as stated fails: [operator==] compares the bytes before the cursor
    whole, stop bit included. The encoded map of the example above and the
    map it was before [encode] yield the same seven bits and compare
    unequal. *)
Lemma eqb_sees_stop_bit :
  ~ (forall lhs rhs : t,
       singleBit lhs -> singleBit rhs ->
       (eqb lhs rhs = Some true <-> bitsToCursor lhs = bitsToCursor rhs)).
Proof.
  intros Hclaim.
  assert (Hsingle : forall bytes, singleBit (mk 0x40 1 bytes)).
  { intros bytes. right. exists O. split; [lia | reflexivity]. }
  destruct (Hclaim (mk 0x40 1 [0xC0; 0]) (mk 0x40 1 [0x40; 0])
              (Hsingle _) (Hsingle _)) as [_ Hback].
  assert (Hfalse : Some false = Some true) by (apply Hback; reflexivity).
  discriminate.
Qed.

End PresenceMapFacts.

(** * Properties of the multicast receiver *)

Module MulticastReceiverFacts.
Import MulticastReceiver.

(** Membership in a list of events written out. *)
Ltac membership :=
  intros; unfold not in *; intros;
  repeat match goal with
         | H : _ ∈ _ ++ _ |- _ => apply elem_of_app in H
         | H : _ ∈ _ :: _ |- _ => apply elem_of_cons in H
         | H : _ ∈ [] |- _ => apply elem_of_nil in H
         | H : _ \/ _ |- _ => destruct H
         | H : False |- _ => destruct H
         end;
  repeat (setoid_rewrite elem_of_app || setoid_rewrite elem_of_cons ||
          setoid_rewrite elem_of_nil);
  intuition (try congruence; try discriminate).

(** Projections of the receiver after assignments to its members. *)
Ltac fields :=
  cbn [stopping_ listenInterface_ multicastGroup_ endpoint_ socket_ consumer_ bufferSize_
       buffers_ queue_ idleBufferPool_ readInProgress_ noBufferAvailable_ packetsReceived_
       errorPackets_ emptyPackets_ packetsQueued_ batchesProcessed_ packetsProcessed_
       bytesReceived_ bytesProcessed_ largestPacket_ trace
       set_stopping_ set_listenInterface_ set_multicastGroup_ set_endpoint_ set_socket_
       set_consumer_ set_bufferSize_ set_buffers_ set_queue_ set_idleBufferPool_
       set_readInProgress_ set_noBufferAvailable_ set_packetsReceived_ set_errorPackets_
       set_emptyPackets_ set_packetsQueued_ set_batchesProcessed_ set_packetsProcessed_
       set_bytesReceived_ set_bytesProcessed_ set_largestPacket_ set_trace emit stop
       beginBatch countPacket returnBuffers
       receiver servicers] in *.

(** The threads of a list, one of them set apart. *)
Lemma sum_app (l l' : list Z) :
  foldr Z.add 0 (l ++ l') = foldr Z.add 0 l + foldr Z.add 0 l'.
Proof. induction l as [|z l IH]; cbn; lia. Qed.

Ltac threads :=
  rewrite ?fmap_app, ?fmap_cons, ?concat_app, ?concat_cons, ?filter_app,
    ?sum_app, ?Forall_app, ?Forall_cons, ?length_app in *;
  cbn [fmap list_fmap concat foldr option_list option_rect app length
       fetched holds inHand aboutToConsume] in *.

(** The cases of a step of a thread: [Hstep] says what the step of a
    thread makes of the receiver [r]; the thread's point has been taken
    apart already. *)
Ltac step_cases Hstep r :=
  cbn [serviceStep] in Hstep;
  lazymatch type of Hstep with
  | ((if ?continue then _ else stop _), _) = _ =>
      destruct continue;
      [destruct (mayReceive r) eqn:Hmay
      |unfold mayReceive in Hstep; fields; cbn [negb] in Hstep;
       rewrite andb_false_r in Hstep]
  | context [postReceive] =>
      unfold postReceive in Hstep;
      destruct (idleBufferPool_ r) as [|posting pool] eqn:Hpool; cbn [pop] in Hstep
  | context [serviceNext] =>
      unfold serviceNext, Queue.serviceNext in Hstep;
      destruct (Queue.outgoing (queue_ r)) as [|fetch rest] eqn:Hout
  | context [negb (stopping_ _)] =>
      destruct (stopping_ r) eqn:Hstop; cbn [negb] in Hstep
  | context [offerBuffer] =>
      unfold offerBuffer in Hstep; fields;
      destruct (consumeBuffer _ _) as [consumer [[|]|message|]] eqn:Hconsume
  | context [reportCaught] =>
      unfold reportCaught in Hstep;
      destruct (reportDecodingError _ _) as [consumer [|]] eqn:Hreport
  | context [returnBuffers] =>
      destruct (mayReceive _) eqn:Hmay
  | context [endService] =>
      unfold endService, Queue.endService in Hstep;
      destruct (negb (stopping_ r) && _) eqn:Hcontinue
  | _ => idtac
  end;
  injection Hstep as <- <-.

(** An exception that has left [handleReceive] stays in the trace. *)
Ltac escapes :=
  unfold escaped in *; fields;
  repeat (setoid_rewrite elem_of_app || setoid_rewrite elem_of_cons);
  intuition auto.

(** ** Lists of threads *)

Lemma threads_split (l : list ServicePoint) i point :
  l !! i = Some point ->
  exists l1 l2,
    l = l1 ++ point :: l2 /\
    (forall point', <[i := point']> l = l1 ++ point' :: l2) /\
    delete i l = l1 ++ l2.
Proof.
  intros Hpoint. exists (take i l), (drop (S i) l). repeat split.
  - symmetry. apply take_drop_middle, Hpoint.
  - intros point'. apply insert_take_drop. eapply lookup_lt_Some, Hpoint.
  - apply delete_take_drop.
Qed.

Lemma lockFree_spec (l : list ServicePoint) :
  lockFree l = true <-> filter holdsLock l = [].
Proof.
  unfold lockFree. induction l as [|point l IH]; [split; reflexivity|].
  cbn [forallb]. rewrite filter_cons. destruct (holdsLock point) eqn:Hl; cbn [negb andb].
  - rewrite decide_True by exact I. split; discriminate.
  - rewrite decide_False by (intros []). exact IH.
Qed.

Lemma filter_nil_forall (f : ServicePoint -> bool) l :
  filter f l = [] <-> Forall (fun point => f point = false) l.
Proof.
  induction l as [|point l IH]; [split; constructor|].
  rewrite filter_cons, Forall_cons. destruct (f point) eqn:Hf.
  - rewrite decide_True by exact I. split; [discriminate | intros [[=] _]].
  - rewrite decide_False by (intros []). tauto.
Qed.

Lemma filter_true (f : ServicePoint -> bool) point l :
  f point = true -> filter f (point :: l) = point :: filter f l.
Proof. intros Hf. apply filter_cons_True. rewrite Hf. exact I. Qed.

Lemma filter_false (f : ServicePoint -> bool) point l :
  f point = false -> filter f (point :: l) = filter f l.
Proof. intros Hf. apply filter_cons_False. rewrite Hf. tauto. Qed.

Section Receiver.

Context {Consumer : Type} `{!BufferConsumer Consumer}.

Implicit Types (r : t Consumer) (s : System Consumer).

(** ** The actions, case by case *)

Lemma act_complete error bytesReceived s s' :
  act (Complete error bytesReceived) s = Some s' ->
  exists buffer posted r' service continue,
    filter holdsLock (servicers s) = [] /\
    socket_ (receiver s) = buffer :: posted /\
    takeReceive error buffer bytesReceived (set_socket_ posted (receiver s))
      = (r', service, continue) /\
    s' = {| receiver := r'; servicers := servicers s ++ [AtReceived service continue] |}.
Proof.
  cbn [act]. destruct (lockFree (servicers s)) eqn:Hfree; [|discriminate].
  apply lockFree_spec in Hfree.
  destruct (socket_ (receiver s)) as [|buffer posted]; [discriminate|].
  destruct (takeReceive _ _ _ _) as [[r' service] continue] eqn:Htake.
  intros [= <-]. eauto 10.
Qed.

Lemma act_advance thread s s' :
  act (Advance thread) s = Some s' ->
  exists l1 point l2 r' next,
    servicers s = l1 ++ point :: l2 /\
    (takesLock point = true -> filter holdsLock (servicers s) = []) /\
    serviceStep point (receiver s) = (r', next) /\
    s' = {| receiver := r'; servicers := l1 ++ option_list next ++ l2 |}.
Proof.
  cbn [act]. destruct (servicers s !! thread) as [point|] eqn:Hpoint; [|discriminate].
  cbn [mbind option_bind].
  destruct (threads_split _ _ _ Hpoint) as (l1 & l2 & Hl & Hinsert & Hdelete).
  destruct (takesLock point && negb (lockFree (servicers s))) eqn:Hlock; [discriminate|].
  destruct (serviceStep point (receiver s)) as [r' next] eqn:Hstep.
  intros [= <-]. exists l1, point, l2, r', next.
  split; [exact Hl|]. split.
  - intros Htakes. rewrite Htakes in Hlock. cbn in Hlock.
    apply lockFree_spec. destruct (lockFree _); [reflexivity | discriminate].
  - split; [exact Hstep|]. f_equal.
    destruct next as [point'|]; cbn [option_list option_rect app]; [apply Hinsert | apply Hdelete].
Qed.

(** ** The test of [startReceive] *)

Lemma mayReceive_true r :
  mayReceive r = true <-> readInProgress_ r = false /\ stopping_ r = false.
Proof. unfold mayReceive. destruct (readInProgress_ r), (stopping_ r); cbn; intuition. Qed.

Lemma mayReceive_stopping r : stopping_ r = true -> mayReceive r = false.
Proof. unfold mayReceive. intros ->. apply andb_false_r. Qed.

(** ** What the counters depend on *)

Lemma core_eq r r' :
  core r' = core r ->
  stopping_ r' = stopping_ r /\ queue_ r' = queue_ r /\
  packetsReceived_ r' = packetsReceived_ r /\ packetsQueued_ r' = packetsQueued_ r /\
  emptyPackets_ r' = emptyPackets_ r /\ errorPackets_ r' = errorPackets_ r /\
  packetsProcessed_ r' = packetsProcessed_ r.
Proof. unfold core. intros [= -> -> -> -> -> -> ->]. repeat split. Qed.

Lemma core_postReceive r : core (postReceive r) = core r.
Proof. unfold postReceive. destruct (pop _) as [[buffer|] pool]; reflexivity. Qed.

Lemma core_startReceive r : core (startReceive r) = core r.
Proof. unfold startReceive. destruct (mayReceive r); [apply core_postReceive | reflexivity]. Qed.

Lemma escaped_emit event r : escaped r -> escaped (emit event r).
Proof. unfold escaped. fields. intros Hin. apply elem_of_app. auto. Qed.

Lemma escaped_postReceive r : escaped r -> escaped (postReceive r).
Proof.
  unfold postReceive. destruct (pop _) as [[buffer|] pool]; [|auto].
  intros Hin. apply escaped_emit. exact Hin.
Qed.

Lemma escaped_startReceive r : escaped r -> escaped (startReceive r).
Proof. unfold startReceive. destruct (mayReceive r); [apply escaped_postReceive | auto]. Qed.

Lemma core_allocateBuffers n : forall nBuffer r,
  core (allocateBuffers n nBuffer r) = core r.
Proof.
  induction n as [|n IH]; intros nBuffer r; [reflexivity|].
  cbn [allocateBuffers]. rewrite IH. reflexivity.
Qed.

Lemma core_start calls consumer bufferSize bufferCount r r' :
  start calls consumer bufferSize bufferCount r = Returned r' -> core r' = core r.
Proof.
  unfold start.
  destruct (open_ok calls), (reuse_address_ok calls), (bind_ok calls); cbn;
    try discriminate.
  destruct (wantLog _ _) as [consumer' [|]]; destruct (join_group_ok calls); cbn;
    try discriminate;
    intros [= <-]; rewrite core_startReceive, core_allocateBuffers; reflexivity.
Qed.

(** ** The invariant of the receiver and its threads *)

Lemma gate_frame r r' threads :
  stopping_ r' = stopping_ r -> queue_ r' = queue_ r -> (escaped r -> escaped r') ->
  gate r threads -> gate r' threads.
Proof.
  intros Hs Hq He [H1 H2 H3 H4 H5]. split; rewrite ?Hs, ?Hq; auto.
Qed.

Lemma gate_stop r threads : gate r threads -> gate (stop r) threads.
Proof.
  intros [H1 H2 H3 H4 H5]. split; fields; auto.
  - intros Hnone Hbusy. destruct (H4 Hnone Hbusy) as [Hout _]. split; [exact Hout | discriminate].
  - intros Hnone Hbusy. apply escaped_emit, H5; assumption.
Qed.

Lemma wrap_small z : 0 <= z < size_t_max -> wrap z = z.
Proof. apply Z.mod_small. Qed.

Lemma fetched_nonneg (l : list ServicePoint) : 0 <= foldr Z.add 0 (fetched <$> l).
Proof. induction l as [|point l IH]; cbn; [lia|]. destruct point; cbn; lia. Qed.

Lemma invariant_mono n m s : n <= m -> invariant n s -> invariant m s.
Proof. intros Hle [Hrec Hb Hproc Hgate]. split; try assumption. lia. Qed.

Lemma invariant_stop n r threads :
  invariant n {| receiver := r; servicers := threads |} ->
  invariant n {| receiver := stop r; servicers := threads |}.
Proof.
  intros [Hrec Hb Hproc Hgate]. split; fields; try assumption. apply gate_stop, Hgate.
Qed.

(** A servicing thread among the threads is the only one. *)
Lemma gate_only r l1 point l2 :
  gate r (l1 ++ point :: l2) -> servicing point = true ->
  filter servicing l1 = [] /\ filter servicing l2 = [] /\ Queue.busy (queue_ r) = true.
Proof.
  intros [H1 H2 _ _ _] Hs. rewrite filter_app, filter_true in H1 by exact Hs.
  rewrite length_app in H1. cbn [length] in H1.
  apply Forall_app in H2 as [_ H2]. apply Forall_cons in H2 as [H2 _].
  destruct (filter servicing l1), (filter servicing l2); cbn [length] in H1; try lia.
  repeat split. apply H2. rewrite Hs. exact I.
Qed.

Lemma atEnd_servicing point : atEnd point = true -> servicing point = true.
Proof. destruct point; cbn; congruence. Qed.

Lemma idle_all (l : list ServicePoint) (P : ServicePoint -> Prop) :
  filter servicing l = [] -> (forall point, servicing point = false -> P point) -> Forall P l.
Proof.
  intros Hnone HP. apply filter_nil_forall in Hnone.
  eapply Forall_impl; [exact Hnone|]. exact HP.
Qed.

(** A thread that does not service the queue joins the threads. *)
Lemma gate_app_idle r threads point :
  servicing point = false -> gate r threads -> gate r (threads ++ [point]).
Proof.
  intros Hs [H1 H2 H3 H4 H5].
  assert (Hfilter : filter servicing (threads ++ [point]) = filter servicing threads).
  { rewrite filter_app, filter_false by exact Hs. apply app_nil_r. }
  split; rewrite ?Hfilter; auto.
  - apply Forall_app. split; [exact H2|]. constructor; [|constructor].
    rewrite Hs. intros [].
  - apply Forall_app. split; [exact H3|]. constructor; [|constructor].
    intros Hend. apply Is_true_true, atEnd_servicing in Hend. congruence.
Qed.

(** A thread joins the threads as the servicer of a queue that was not
    busy. *)
Lemma gate_app_servicer r r' threads point :
  gate r threads -> Queue.busy (queue_ r) = false -> Queue.busy (queue_ r') = true ->
  servicing point = true -> atEnd point = false ->
  gate r' (threads ++ [point]).
Proof.
  intros [H1 H2 H3 H4 H5] Hfree Hbusy Hs Hend.
  assert (Hnone : filter servicing threads = []).
  { apply filter_nil_forall. eapply Forall_impl; [exact H2|].
    intros q Hq. cbn in Hq. destruct (servicing q); [|reflexivity].
    rewrite Hq in Hfree by exact I. discriminate. }
  assert (Hfilter : filter servicing (threads ++ [point]) = [point]).
  { rewrite filter_app, Hnone, filter_true by exact Hs. reflexivity. }
  split; rewrite ?Hfilter; try discriminate.
  - cbn. lia.
  - apply Forall_app. split; [|constructor; [auto | constructor]].
    eapply Forall_impl; [exact H2|]. auto.
  - apply Forall_app. split; [|constructor; [rewrite Hend; intros [] | constructor]].
    apply (idle_all _ _ Hnone). intros q Hq Hqend.
    apply Is_true_true, atEnd_servicing in Hqend. congruence.
Qed.

(** A thread that does not service the queue takes a step. *)
Lemma gate_bystander r r' l1 point next l2 :
  gate r (l1 ++ point :: l2) -> servicing point = false ->
  (forall point', next = Some point' -> servicing point' = false) ->
  queue_ r' = queue_ r -> (stopping_ r' = false -> stopping_ r = false) ->
  (escaped r -> escaped r') ->
  gate r' (l1 ++ option_list next ++ l2).
Proof.
  intros [H1 H2 H3 H4 H5] Hs Hnext Hq Hstop He.
  assert (Hold : filter servicing (l1 ++ point :: l2) = filter servicing l1 ++ filter servicing l2).
  { rewrite filter_app, filter_false by exact Hs. reflexivity. }
  assert (Hnew : filter servicing (l1 ++ option_list next ++ l2)
                 = filter servicing l1 ++ filter servicing l2).
  { destruct next as [point'|]; cbn [option_list option_rect app]; [|apply filter_app].
    rewrite filter_app, filter_false by (apply Hnext; reflexivity). reflexivity. }
  rewrite Hold in *.
  apply Forall_app in H2 as [H2 H2']. apply Forall_cons in H2' as [_ H2'].
  apply Forall_app in H3 as [H3 H3']. apply Forall_cons in H3' as [_ H3'].
  split; rewrite ?Hnew, ?Hq; auto.
  - apply Forall_app. split; [exact H2|]. apply Forall_app. split; [|exact H2'].
    destruct next as [point'|]; constructor; [|constructor].
    rewrite (Hnext point') by reflexivity. intros [].
  - apply Forall_app. split; [exact H3|]. apply Forall_app. split; [|exact H3'].
    destruct next as [point'|]; constructor; [|constructor].
    intros Hend. apply Is_true_true, atEnd_servicing in Hend.
    rewrite (Hnext point') in Hend by reflexivity. discriminate.
  - intros Hnone Hbusy. destruct (H4 Hnone Hbusy) as [Hout Hinc]. auto.
Qed.

(** The servicing thread takes a step. *)
Lemma gate_servicer r r' l1 point next l2 :
  gate r (l1 ++ point :: l2) -> servicing point = true ->
  match next with
  | Some point' =>
      servicing point' = true /\ Queue.busy (queue_ r') = true /\
      (atEnd point' = true -> Queue.outgoing (queue_ r') = [])
  | None =>
      (Queue.busy (queue_ r') = false ->
       Queue.outgoing (queue_ r') = [] /\
       (stopping_ r' = false -> Queue.incoming (queue_ r') = [])) /\
      (Queue.busy (queue_ r') = true -> escaped r')
  end ->
  gate r' (l1 ++ option_list next ++ l2).
Proof.
  intros Hgate Hs Hnext.
  destruct (gate_only _ _ _ _ Hgate Hs) as (Hl1 & Hl2 & Hbusy).
  assert (Hidle : forall P : ServicePoint -> Prop,
            (forall q, servicing q = false -> P q) -> Forall P l1 /\ Forall P l2).
  { intros P HP. split; eapply idle_all; eauto. }
  assert (Hfilter : filter servicing (l1 ++ option_list next ++ l2)
                    = filter servicing (option_list next)).
  { rewrite !filter_app, Hl1, Hl2, app_nil_r. reflexivity. }
  split; rewrite ?Hfilter.
  - destruct next as [point'|]; cbn [option_list option_rect]; [|cbn; lia].
    destruct Hnext as (Hs' & _). rewrite filter_true by exact Hs'. cbn. lia.
  - destruct (Hidle (fun q => servicing q -> Queue.busy (queue_ r') = true)) as [F1 F2].
    { intros q ->. intros []. }
    apply Forall_app. split; [exact F1|]. apply Forall_app. split; [|exact F2].
    destruct next as [point'|]; constructor; [|constructor].
    intros _. apply Hnext.
  - destruct (Hidle (fun q => atEnd q -> Queue.outgoing (queue_ r') = [])) as [F1 F2].
    { intros q Hq Hend. apply Is_true_true, atEnd_servicing in Hend. congruence. }
    apply Forall_app. split; [exact F1|]. apply Forall_app. split; [|exact F2].
    destruct next as [point'|]; constructor; [|constructor].
    intros Hend. apply Hnext, Is_true_true, Hend.
  - destruct next as [point'|]; cbn [option_list option_rect].
    + destruct Hnext as (Hs' & _). rewrite filter_true by exact Hs'. discriminate.
    + intros _. apply Hnext.
  - destruct next as [point'|]; cbn [option_list option_rect].
    + destruct Hnext as (Hs' & _). rewrite filter_true by exact Hs'. discriminate.
    + intros _. apply Hnext.
Qed.

Lemma invariant_complete n s error bytesReceived s' :
  invariant n s -> 0 <= n -> n + 1 < size_t_max ->
  act (Complete error bytesReceived) s = Some s' ->
  invariant (n + 1) s'.
Proof.
  intros Hinv Hn0 Hn Hact.
  destruct (act_complete _ _ _ _ Hact)
    as (buffer & posted & r' & service & continue & _ & _ & Htake & ->).
  clear Hact. destruct s as [r threads]. destruct Hinv as [Hrec Hb Hproc Hgate]. fields.
  pose proof (fetched_nonneg threads) as Hf.
  unfold takeReceive in Htake. fields.
  destruct error as [message|].
  - destruct (reportCommunicationError _ _) as [consumer continue'].
    injection Htake as <- <- <-.
    split; fields; threads; rewrite ?wrap_small by lia; try lia.
    apply gate_app_idle; [reflexivity|].
    eapply gate_frame; [| | |exact Hgate]; try reflexivity. escapes.
  - case_decide as Hbytes.
    + unfold Queue.push in Htake. fields.
      destruct (Queue.busy (queue_ r)) eqn:Hbusy; cbn [negb] in Htake.
      * injection Htake as <- <- <-.
        split; fields; cbn [Queue.incoming Queue.outgoing Queue.busy]; threads;
          rewrite ?wrap_small by lia; try lia.
        apply gate_app_idle; [reflexivity|].
        destruct Hgate as [H1 H2 H3 H4 H5].
        split; fields; cbn [Queue.incoming Queue.outgoing Queue.busy]; auto;
          [eapply Forall_impl; [exact H2|]; auto | intros _ [=]].
      * unfold Queue.startService in Htake.
        cbn [Queue.busy Queue.incoming Queue.outgoing] in Htake. rewrite ?Hbusy in Htake.
        rewrite bool_decide_eq_false_2 in Htake
          by (destruct (Queue.outgoing _), (Queue.incoming _); discriminate).
        cbn [negb] in Htake. injection Htake as <- <- <-.
        split; fields; cbn [Queue.incoming Queue.outgoing Queue.busy]; threads;
          rewrite ?wrap_small by lia; try lia.
        eapply gate_app_servicer; [exact Hgate | exact Hbusy | reflexivity ..].
    + injection Htake as <- <- <-.
      split; fields; threads; rewrite ?wrap_small by lia; try lia.
      apply gate_app_idle; [reflexivity|].
      eapply gate_frame; [| | |exact Hgate]; try reflexivity. auto.
Qed.


Lemma gate_end_here r l1 point l2 :
  gate r (l1 ++ point :: l2) -> atEnd point = true -> Queue.outgoing (queue_ r) = [].
Proof.
  intros [_ _ H3 _ _] Hend. apply Forall_app in H3 as [_ H3].
  apply Forall_cons in H3 as [H3 _]. apply H3. rewrite Hend. exact I.
Qed.

Lemma invariant_step n r l1 point l2 r' next :
  invariant n {| receiver := r; servicers := l1 ++ point :: l2 |} ->
  0 <= n -> n + 1 < size_t_max ->
  serviceStep point r = (r', next) ->
  invariant (n + 1) {| receiver := r'; servicers := l1 ++ option_list next ++ l2 |}.
Proof.
  intros Hinv Hn0 Hn Hstep.
  apply (invariant_mono n (n + 1)) in Hinv; [|lia].
  destruct Hinv as [Hrec Hb Hproc Hgate]. fields.
  pose proof (fetched_nonneg l1) as Hf1. pose proof (fetched_nonneg l2) as Hf2.
  pose proof (gate_only _ _ _ _ Hgate) as Honly.
  pose proof (gate_end_here _ _ _ _ Hgate) as Hend.
  threads.
  destruct point as [[|] continue | [|] | | idle | buffer idle | buffer idle | buffer idle
                    | what buffer idle | buffer idle | idle | | ];
    step_cases Hstep r; cbn [afterLock].
  all: split;
    [fields; cbn [Queue.incoming Queue.outgoing Queue.busy]; threads;
     rewrite ?Hout in *; cbn [length] in *; rewrite ?wrap_small by lia; try lia ..
    |].
  all: fields.
  all: first
    [ eapply gate_servicer; [exact Hgate | reflexivity |];
      destruct (Honly eq_refl) as (_ & _ & Hbusy);
      cbn [option_list option_rect]; fields;
      cbn [Queue.incoming Queue.outgoing Queue.busy servicing atEnd];
      repeat split; auto; try discriminate
    | eapply gate_bystander; [exact Hgate | reflexivity | ..];
      fields; auto; try discriminate; try (intros ? [= <-]; reflexivity) ].
  all: try (escapes; fail).
  all: try congruence.
  intros Hstop. rewrite Hstop, (Hend eq_refl) in Hcontinue. cbn in Hcontinue.
  apply negb_false_iff, bool_decide_eq_true in Hcontinue. exact Hcontinue.
Qed.

Lemma invariant_act n action s s' :
  invariant n s -> 0 <= n -> n + 1 < size_t_max ->
  act action s = Some s' -> invariant (n + 1) s'.
Proof.
  intros Hinv Hn0 Hn Hact. destruct action as [error bytesReceived | thread | ].
  - eapply invariant_complete; eassumption.
  - destruct (act_advance _ _ _ Hact) as (l1 & point & l2 & r' & next & Hl & _ & Hstep & ->).
    destruct s as [r threads]. cbn [servicers receiver] in *. subst threads.
    eapply invariant_step; eassumption.
  - injection Hact as <-. apply (invariant_mono n); [lia|].
    destruct s as [r threads]. apply invariant_stop, Hinv.
Qed.

Lemma invariant_run actions : forall n s s',
  invariant n s -> 0 <= n -> n + Z.of_nat (length actions) < size_t_max ->
  run actions s = Some s' -> invariant (n + Z.of_nat (length actions)) s'.
Proof.
  induction actions as [|action actions IH]; intros n s s' Hinv Hn0 Hn Hrun.
  - injection Hrun as <-. cbn. rewrite Z.add_0_r. exact Hinv.
  - cbn [run] in Hrun. destruct (act action s) as [s1|] eqn:Hact; [|discriminate].
    cbn in Hrun. cbn [length] in *.
    replace (n + Z.of_nat (S (length actions))) with (n + 1 + Z.of_nat (length actions)) in * by lia.
    apply (IH (n + 1) s1); try assumption; try lia.
    apply (invariant_act n action s); try assumption. lia.
Qed.

Lemma invariant_started calls consumer bufferSize bufferCount unset group interface port r :
  start calls consumer bufferSize bufferCount (make unset group interface port) = Returned r ->
  invariant 0 {| receiver := r; servicers := [] |}.
Proof.
  intros Hstart. apply core_start in Hstart.
  destruct (core_eq _ _ Hstart) as (Hs & Hq & H1 & H2 & H3 & H4 & H5).
  split; cbn [receiver servicers]; rewrite ?Hq, ?H1, ?H2, ?H3, ?H4, ?H5; cbn; try lia.
  split; cbn; rewrite ?Hq; cbn; auto; try constructor; try discriminate.
Qed.

(** What the events of a run add to the trace. *)
Lemma trace_act action s s' :
  act action s = Some s' -> exists events, trace (receiver s') = trace (receiver s) ++ events.
Proof.
  intros Hact. destruct action as [error bytesReceived | thread | ].
  - destruct (act_complete _ _ _ _ Hact)
      as (buffer & posted & r' & service & continue & _ & _ & Htake & ->).
    unfold takeReceive in Htake. fields.
    destruct error as [message|].
    + destruct (reportCommunicationError _ _) as [consumer continue'].
      injection Htake as <- _ _. fields. eauto.
    + case_decide.
      * destruct (Queue.push _ _) as [[|] q]; [destruct (Queue.startService q)|];
          injection Htake as <- _ _; exists []; fields; rewrite app_nil_r; reflexivity.
      * injection Htake as <- _ _. exists []. fields. rewrite app_nil_r. reflexivity.
  - destruct (act_advance _ _ _ Hact) as (l1 & point & l2 & r' & next & _ & _ & Hstep & ->).
    fields. remember (receiver s) as r eqn:Hr. clear Hr Hact.
    destruct point; step_cases Hstep r; fields;
      rewrite <- ?app_assoc; eauto; exists []; rewrite app_nil_r; reflexivity.
  - injection Hact as <-. fields. eauto.
Qed.

Lemma escaped_act action s s' :
  act action s = Some s' -> escaped (receiver s) -> escaped (receiver s').
Proof.
  intros Hact. destruct (trace_act _ _ _ Hact) as (events & Htrace).
  unfold escaped. rewrite Htrace, elem_of_app. auto.
Qed.

Lemma escaped_run actions : forall s s',
  run actions s = Some s' -> escaped (receiver s) -> escaped (receiver s').
Proof.
  induction actions as [|action actions IH]; intros s s' Hrun; cbn [run] in Hrun.
  - injection Hrun as <-. auto.
  - destruct (act action s) as [s1|] eqn:Hact; [|discriminate]. cbn in Hrun.
    intros He. eapply IH; [exact Hrun|]. eapply escaped_act; eassumption.
Qed.

(** With no thread inside [handleReceive], the queue is empty unless the
    receiver is stopping or an exception has left [handleReceive]. *)
Lemma gate_quiescent r :
  gate r [] -> stopping_ r = false -> ~ escaped r ->
  Queue.outgoing (queue_ r) = [] /\ Queue.incoming (queue_ r) = [].
Proof.
  intros [_ _ _ H4 H5] Hstop Hnot.
  destruct (Queue.busy (queue_ r)) eqn:Hbusy.
  - destruct Hnot. apply H5; reflexivity.
  - destruct H4 as [Hout Hinc]; auto.
Qed.

(** C8, amended. Start a newly made receiver and let any actions happen,
    fewer than [2^64] of them (the counters are [size_t]): completions of
    receives, steps of the threads inside [handleReceive], calls of
    [stop], in any order. Then [packetsProcessed <= packetsQueued]; and
    whenever no thread is inside [handleReceive],
    [packetsReceived = packetsQueued + emptyPackets + errorPackets], and
    [packetsProcessed = packetsQueued] unless the receiver is stopping or
    an exception that is not a [std::exception] has left
    [consumeBuffer]. *)
Theorem counters_conserved
    calls consumer bufferSize bufferCount unset group interface port r actions s :
  start calls consumer bufferSize bufferCount (make unset group interface port) = Returned r ->
  run actions {| receiver := r; servicers := [] |} = Some s ->
  Z.of_nat (length actions) < size_t_max ->
  packetsProcessed_ (receiver s) <= packetsQueued_ (receiver s) /\
  (quiescent s ->
   packetsReceived_ (receiver s) =
     packetsQueued_ (receiver s) + emptyPackets_ (receiver s) + errorPackets_ (receiver s) /\
   (stopping_ (receiver s) = false -> ~ escaped (receiver s) ->
    packetsProcessed_ (receiver s) = packetsQueued_ (receiver s))).
Proof.
  intros Hstart Hrun Hlen.
  pose proof (invariant_run actions 0 _ s (invariant_started _ _ _ _ _ _ _ _ _ Hstart)
                ltac:(lia) ltac:(lia) Hrun) as [Hrec Hb Hproc Hgate].
  pose proof (fetched_nonneg (servicers s)) as Hfetched.
  split; [lia|]. intros Hq. split; [exact Hrec|]. intros Hstop Hnot.
  unfold quiescent in Hq. rewrite Hq in Hgate, Hproc. cbn in Hproc.
  destruct (gate_quiescent _ Hgate Hstop Hnot) as [Hout Hinc].
  rewrite Hout, Hinc in Hproc. cbn in Hproc. lia.
Qed.

(** ** [handleReceive] run by one thread comes to an end *)

Lemma consumePacket_queue buffer r idleBuffers :
  queue_ (consumePacket buffer r idleBuffers).1 = queue_ r.
Proof.
  unfold consumePacket, offerBuffer, reportCaught. fields.
  destruct (consumeBuffer _ _) as [consumer [[|]|what|]]; fields; try reflexivity.
  destruct (reportDecodingError _ _) as [consumer' [|]]; reflexivity.
Qed.

Lemma servicePacket_queue buffer r idleBuffers :
  queue_ (servicePacket buffer r idleBuffers).1 = queue_ r.
Proof.
  unfold servicePacket. destruct (negb _); [|reflexivity].
  apply (consumePacket_queue buffer (countPacket r)).
Qed.

Lemma serviceBuffers_total : forall fuel (buffer : option LinkedBuffer) r idleBuffers,
  (length (Queue.outgoing (queue_ r)) + match buffer with Some _ => 1 | None => 0 end
   <= fuel)%nat ->
  (buffer = None -> Queue.outgoing (queue_ r) = []) ->
  exists r' idleBuffers',
    serviceBuffers fuel buffer r idleBuffers = Some (r', idleBuffers') /\
    (is_Some idleBuffers' -> Queue.outgoing (queue_ r') = []) /\
    Queue.incoming (queue_ r') = Queue.incoming (queue_ r).
Proof.
  induction fuel as [|fuel IH]; intros [b|] r idleBuffers Hfuel Hnone;
    try (exists r, (Some idleBuffers); repeat split; auto; fail); [cbn in Hfuel; lia|].
  cbn [serviceBuffers].
  pose proof (servicePacket_queue b r idleBuffers) as Hq.
  destruct (servicePacket b r idleBuffers) as [r1 [idle1|]]; cbn in Hq.
  2:{ exists r1, None. rewrite Hq. repeat split. intros [? [=]]. }
  unfold serviceNext, Queue.serviceNext. rewrite Hq.
  destruct (Queue.outgoing (queue_ r)) as [|next rest] eqn:Hout.
  - destruct (IH None (set_queue_ (queue_ r) r1) idle1) as (r' & idle' & Hrun & Hout' & Hinc');
      [cbn; rewrite Hout; cbn; lia | intros _; cbn; exact Hout |].
    exists r', idle'. repeat split; assumption.
  - destruct (IH (Some next)
                (set_queue_ (Queue.mk (Queue.incoming (queue_ r)) rest (Queue.busy (queue_ r))) r1)
                idle1) as (r' & idle' & Hrun & Hout' & Hinc');
      [cbn in *; lia | discriminate |].
    exists r', idle'. repeat split; assumption.
Qed.

Lemma serviceBatch_total r :
  exists r' service,
    serviceBatch r = Some (r', service) /\
    (service = Some true -> Queue.incoming (queue_ r') = []) /\
    (Queue.incoming (queue_ r) = [] -> service <> Some true).
Proof.
  unfold serviceBatch.
  destruct (serviceNext (beginBatch r)) as [buffer r1] eqn:Hnext.
  assert (Hfacts :
    (length (Queue.outgoing (queue_ r1)) + match buffer with Some _ => 1 | None => 0 end
     <= length (Queue.outgoing (queue_ (beginBatch r))))%nat /\
    (buffer = None -> Queue.outgoing (queue_ r1) = []) /\
    Queue.incoming (queue_ r1) = Queue.incoming (queue_ r)).
  { unfold serviceNext, Queue.serviceNext in Hnext. cbn in *.
    destruct (Queue.outgoing (queue_ r)) as [|b rest] eqn:Hout;
      injection Hnext as <- <-; cbn; rewrite ?Hout; repeat split; cbn; auto; try lia.
    discriminate. }
  destruct Hfacts as (Hlen & Hnone & Hinc).
  destruct (serviceBuffers_total _ buffer r1 [] Hlen Hnone) as (r2 & idle & Hrun & Hout2 & Hinc2).
  rewrite Hrun. cbn [mbind option_bind].
  destruct idle as [idle|]; [|exists r2, None; repeat split; congruence].
  specialize (Hout2 ltac:(eauto)).
  unfold endBatch, endService.
  destruct (core_eq _ _ (core_startReceive (returnBuffers idle r2))) as (Hs & Hq & _).
  unfold Queue.endService. rewrite Hq. fields. rewrite Hout2, Hinc2, Hinc. cbn [app].
  destruct (negb (stopping_ _)); cbn [andb];
    [destruct (Queue.incoming (queue_ r)) as [|b rest] eqn:Hincoming; cbn|];
    (eexists _, _; split; [reflexivity|]); cbn; split; intros Hq';
    try reflexivity; try discriminate.
Qed.

(** Two rounds of the service loop are always enough when one thread runs
    [handleReceive] alone: the second batch is what arrived before the
    first ended, and nothing arrives during it. *)
Lemma serviceLoop_total fuel r : (2 <= fuel)%nat -> is_Some (serviceLoop fuel r).
Proof.
  intros Hfuel. destruct fuel as [|[|fuel]]; try lia. cbn [serviceLoop].
  destruct (serviceBatch_total r) as (r1 & service1 & -> & Hinc1 & _). cbn.
  destruct service1 as [[|]|]; [|eauto|eauto].
  destruct (serviceBatch_total r1) as (r2 & service2 & -> & _ & Hlast). cbn.
  specialize (Hlast (Hinc1 eq_refl)). destruct service2 as [[|]|]; [congruence|eauto|eauto].
Qed.

Lemma handleReceive_total fuel error buffer bytesReceived r :
  (2 <= fuel)%nat -> is_Some (handleReceive fuel error buffer bytesReceived r).
Proof.
  intros Hfuel. unfold handleReceive.
  destruct (completeReceive _ _ _ _) as [r1 [|]]; [apply serviceLoop_total, Hfuel | eauto].
Qed.

(** ** One thread running [handleReceive] is a run of the system *)

Lemma run_app actions actions' s :
  run (actions ++ actions') s = run actions s ≫= run actions'.
Proof.
  revert s. induction actions as [|action actions IH]; intros s; [reflexivity|].
  cbn. destruct (act action s) as [s1|]; [apply IH | reflexivity].
Qed.

Lemma run_advance point r r' next :
  serviceStep point r = (r', next) ->
  act (Advance 0) {| receiver := r; servicers := [point] |} =
  Some {| receiver := r'; servicers := option_list next |}.
Proof.
  intros Hstep. cbn [act servicers receiver lookup list_lookup mbind option_bind].
  replace (takesLock point && negb (lockFree [point])) with false
    by (destruct point; reflexivity).
  rewrite Hstep. destruct next; reflexivity.
Qed.

Lemma run_step n point r r' next s' :
  serviceStep point r = (r', next) ->
  run (replicate n (Advance 0)) {| receiver := r'; servicers := option_list next |} = Some s' ->
  run (replicate (S n) (Advance 0)) {| receiver := r; servicers := [point] |} = Some s'.
Proof.
  intros Hstep Hrun. cbn [replicate run]. rewrite (run_advance _ _ _ _ Hstep). exact Hrun.
Qed.

Lemma servicePacket_run buffer r idleBuffers r' result :
  servicePacket buffer r idleBuffers = (r', result) ->
  exists n,
    run (replicate n (Advance 0))
      {| receiver := r; servicers := [AtPacket buffer idleBuffers] |} =
    Some {| receiver := r';
            servicers := match result with
                         | Some idleBuffers' => [AtFetch idleBuffers']
                         | None => []
                         end |}.
Proof.
  unfold servicePacket, consumePacket, offerBuffer, reportCaught. fields.
  destruct (stopping_ r) eqn:Hstop; cbn [negb].
  - intros [= <- <-]. exists 2%nat.
    eapply run_step; [reflexivity|]. cbn [option_list option_rect].
    eapply run_step; [cbn [serviceStep]; fields; rewrite Hstop; reflexivity|].
    reflexivity.
  - destruct (consumeBuffer (consumer_ r) buffer) as [consumer [[|]|what|]] eqn:Hconsume; fields.
    + intros [= <- <-]. exists 3%nat.
      eapply run_step; [reflexivity|]. cbn [option_list option_rect].
      eapply run_step; [cbn [serviceStep]; fields; rewrite Hstop; reflexivity|].
      cbn [option_list option_rect].
      eapply run_step;
        [cbn [serviceStep]; unfold offerBuffer; fields; rewrite Hconsume; reflexivity|].
      reflexivity.
    + intros [= <- <-]. exists 4%nat.
      eapply run_step; [reflexivity|]. cbn [option_list option_rect].
      eapply run_step; [cbn [serviceStep]; fields; rewrite Hstop; reflexivity|].
      cbn [option_list option_rect].
      eapply run_step;
        [cbn [serviceStep]; unfold offerBuffer; fields; rewrite Hconsume; reflexivity|].
      cbn [option_list option_rect].
      eapply run_step; [reflexivity|]. reflexivity.
    + destruct (reportDecodingError consumer what) as [consumer' [|]] eqn:Hreport;
        intros [= <- <-].
      * exists 4%nat.
        eapply run_step; [reflexivity|]. cbn [option_list option_rect].
        eapply run_step; [cbn [serviceStep]; fields; rewrite Hstop; reflexivity|].
        cbn [option_list option_rect].
        eapply run_step;
          [cbn [serviceStep]; unfold offerBuffer; fields; rewrite Hconsume; reflexivity|].
        cbn [option_list option_rect].
        eapply run_step;
          [cbn [serviceStep]; unfold reportCaught; fields; rewrite Hreport; reflexivity|].
        reflexivity.
      * exists 5%nat.
        eapply run_step; [reflexivity|]. cbn [option_list option_rect].
        eapply run_step; [cbn [serviceStep]; fields; rewrite Hstop; reflexivity|].
        cbn [option_list option_rect].
        eapply run_step;
          [cbn [serviceStep]; unfold offerBuffer; fields; rewrite Hconsume; reflexivity|].
        cbn [option_list option_rect].
        eapply run_step;
          [cbn [serviceStep]; unfold reportCaught; fields; rewrite Hreport; reflexivity|].
        cbn [option_list option_rect].
        eapply run_step; [reflexivity|]. reflexivity.
    + intros [= <- <-]. exists 3%nat.
      eapply run_step; [reflexivity|]. cbn [option_list option_rect].
      eapply run_step; [cbn [serviceStep]; fields; rewrite Hstop; reflexivity|].
      cbn [option_list option_rect].
      eapply run_step;
        [cbn [serviceStep]; unfold offerBuffer; fields; rewrite Hconsume; reflexivity|].
      reflexivity.
Qed.

Lemma serviceBuffers_run : forall fuel buffer r idleBuffers r' result,
  serviceBuffers fuel buffer r idleBuffers = Some (r', result) ->
  exists n,
    run (replicate n (Advance 0))
      {| receiver := r; servicers := [pointOf buffer idleBuffers] |} =
    Some {| receiver := r';
            servicers := match result with
                         | Some idleBuffers' => [AtBatchEnd idleBuffers']
                         | None => []
                         end |}.
Proof.
  induction fuel as [|fuel IH]; intros [b|] r idle r' result Hrun; cbn [serviceBuffers] in Hrun;
    try discriminate; try (injection Hrun as <- <-; exists O; reflexivity).
  destruct (servicePacket b r idle) as [r1 [idle1|]] eqn:Hpacket.
  - destruct (serviceNext r1) as [next r2] eqn:Hnext.
    destruct (servicePacket_run _ _ _ _ _ Hpacket) as (n & Hn).
    destruct (IH _ _ _ _ _ Hrun) as (m & Hm).
    exists (n + S m)%nat. rewrite replicate_add, run_app. cbn [pointOf].
    rewrite Hn. cbn [mbind option_bind].
    apply (run_step m (AtFetch idle1) r1 r2 (Some (pointOf next idle1))); [|exact Hm].
    cbn [serviceStep]. rewrite Hnext. destruct next; reflexivity.
  - injection Hrun as <- <-. exact (servicePacket_run _ _ _ _ _ Hpacket).
Qed.

Lemma endBatch_run idleBuffers r r' service :
  endBatch idleBuffers r = (r', service) ->
  exists n,
    run (replicate n (Advance 0))
      {| receiver := r; servicers := [AtBatchEnd idleBuffers] |} =
    Some {| receiver := r'; servicers := option_list (afterLock service) |}.
Proof.
  unfold endBatch, startReceive. intros Hend.
  destruct (mayReceive (returnBuffers idleBuffers r)) eqn:Hmay.
  - exists 3%nat.
    eapply run_step; [cbn [serviceStep]; rewrite Hmay; reflexivity|].
    cbn [option_list option_rect].
    eapply run_step; [reflexivity|]. cbn [option_list option_rect].
    eapply run_step; [cbn [serviceStep]; rewrite Hend; reflexivity|]. reflexivity.
  - exists 2%nat.
    eapply run_step; [cbn [serviceStep]; rewrite Hmay; reflexivity|].
    cbn [option_list option_rect].
    eapply run_step; [cbn [serviceStep]; rewrite Hend; reflexivity|]. reflexivity.
Qed.

Lemma serviceBatch_run r r' service :
  serviceBatch r = Some (r', service) ->
  exists n,
    run (replicate n (Advance 0)) {| receiver := r; servicers := [AtBatchStart] |} =
    Some {| receiver := r';
            servicers := match service with
                         | Some true => [AtBatchStart]
                         | _ => []
                         end |}.
Proof.
  unfold serviceBatch. intros Hbatch.
  destruct (serviceNext (beginBatch r)) as [buffer r1] eqn:Hnext.
  destruct (serviceBuffers _ buffer r1 []) as [[r2 [idle|]]|] eqn:Hbuffers;
    cbn [mbind option_bind] in Hbatch; [| |discriminate].
  - destruct (endBatch idle r2) as [r3 service3] eqn:Hend. injection Hbatch as <- <-.
    destruct (serviceBuffers_run _ _ _ _ _ _ Hbuffers) as (n & Hn).
    destruct (endBatch_run _ _ _ _ Hend) as (m & Hm).
    exists (2 + (n + m))%nat. cbn [Nat.add].
    eapply run_step; [reflexivity|]. cbn [option_list option_rect].
    apply (run_step _ (AtFetch []) (beginBatch r) r1 (Some (pointOf buffer [])));
      [cbn [serviceStep]; rewrite Hnext; destruct buffer; reflexivity|].
    cbn [option_list option_rect].
    rewrite replicate_add, run_app, Hn. cbn [mbind option_bind]. rewrite Hm.
    destruct service3; reflexivity.
  - injection Hbatch as <- <-.
    destruct (serviceBuffers_run _ _ _ _ _ _ Hbuffers) as (n & Hn).
    exists (2 + n)%nat. cbn [Nat.add].
    eapply run_step; [reflexivity|]. cbn [option_list option_rect].
    apply (run_step _ (AtFetch []) (beginBatch r) r1 (Some (pointOf buffer [])));
      [cbn [serviceStep]; rewrite Hnext; destruct buffer; reflexivity|].
    exact Hn.
Qed.

Lemma serviceLoop_run : forall fuel r outcome,
  serviceLoop fuel r = Some outcome ->
  exists n,
    run (replicate n (Advance 0)) {| receiver := r; servicers := [AtBatchStart] |} =
    Some {| receiver := receiverOf outcome; servicers := [] |}.
Proof.
  induction fuel as [|fuel IH]; intros r outcome Hloop; [discriminate|].
  cbn [serviceLoop] in Hloop.
  destruct (serviceBatch r) as [[r1 service]|] eqn:Hbatch; [|discriminate].
  cbn [mbind option_bind] in Hloop. destruct (serviceBatch_run _ _ _ Hbatch) as (n & Hn).
  destruct service as [[|]|].
  - destruct (IH _ _ Hloop) as (m & Hm). exists (n + m)%nat.
    rewrite replicate_add, run_app, Hn. exact Hm.
  - injection Hloop as <-. exists n. exact Hn.
  - injection Hloop as <-. exists n. exact Hn.
Qed.

(** A call of [handleReceive] for the receive that was posted first, run
    by a thread on its own, is the action [Complete] followed by steps of
    that thread alone, until it leaves [handleReceive]. *)
Lemma completeNext_run fuel error bytesReceived r outcome :
  completeNext fuel error bytesReceived r = Some outcome ->
  exists n,
    run (Complete error bytesReceived :: replicate n (Advance 0))
      {| receiver := r; servicers := [] |} =
    Some {| receiver := receiverOf outcome; servicers := [] |}.
Proof.
  unfold completeNext, handleReceive, completeReceive, startReceive. intros Hhandle.
  cbn [run act receiver servicers lockFree forallb].
  destruct (socket_ r) as [|buffer posted]; [discriminate|].
  destruct (takeReceive _ _ _ _) as [[r1 service] continue]. cbn [mbind option_bind app].
  set (r2 := if continue then r1 else stop r1) in *.
  assert (Hafter : exists m,
    run (replicate m (Advance 0))
      {| receiver := if mayReceive r2 then postReceive r2 else r2;
         servicers := option_list (afterLock service) |} =
    Some {| receiver := receiverOf outcome; servicers := [] |}).
  { destruct service; cbn [afterLock option_list option_rect].
    - apply serviceLoop_run in Hhandle. exact Hhandle.
    - injection Hhandle as <-. exists O. reflexivity. }
  destruct Hafter as (m & Hm).
  destruct (mayReceive r2) eqn:Hmay.
  - exists (2 + m)%nat. cbn [Nat.add].
    eapply run_step; [cbn [serviceStep]; fold r2; rewrite Hmay; reflexivity|].
    cbn [option_list option_rect].
    eapply run_step; [reflexivity|]. exact Hm.
  - exists (1 + m)%nat. cbn [Nat.add].
    eapply run_step; [cbn [serviceStep]; fold r2; rewrite Hmay; reflexivity|].
    exact Hm.
Qed.

(** ** The error path of [handleReceive] *)

(** C9. When a receive completes with an error, [handleReceive] counts
    it in [errorPackets], puts the buffer back on the idle pool whatever
    the consumer answers (from where [startReceive] may take it at once
    for the next receive), calls [reportCommunicationError] with the
    error's message, and calls [stop] if and only if the answer is false;
    the queue is not serviced. *)
Theorem handleReceive_error fuel message buffer bytesReceived r :
  exists r1 r' after,
    handleReceive fuel (Some message) buffer bytesReceived r = Some (Returned r') /\
    r' = startReceive r1 /\
    idleBufferPool_ r1 = push buffer (idleBufferPool_ r) /\
    errorPackets_ r' = wrap (errorPackets_ r + 1) /\
    consumer_ r' = (reportCommunicationError (consumer_ r) message).1 /\
    trace r' = trace r ++ ReportCommunicationError message :: after /\
    (SocketCancel ∈ after <-> (reportCommunicationError (consumer_ r) message).2 = false) /\
    stopping_ r' = stopping_ r || negb (reportCommunicationError (consumer_ r) message).2 /\
    (forall b, ConsumeBuffer b ∉ after) /\
    (idleBufferPool_ r' = buffer :: idleBufferPool_ r /\
       (forall b, AsyncReceiveFrom b ∉ after) \/
     idleBufferPool_ r' = idleBufferPool_ r /\ AsyncReceiveFrom buffer ∈ after).
Proof.
  unfold handleReceive, completeReceive, takeReceive. cbn.
  destruct (reportCommunicationError (consumer_ r) message) as [consumer continue]. cbn.
  match goal with
  | |- context [Some (Returned (startReceive ?x))] => exists x, (startReceive x)
  end.
  unfold startReceive, mayReceive, postReceive.
  destruct continue; cbn; [destruct (stopping_ r) eqn:Hs; cbn|];
    [exists [] | exists [AsyncReceiveFrom buffer] | exists [SocketCancel]];
    (split; [reflexivity|]); (split; [reflexivity|]);
    cbn; rewrite <- ?app_assoc, ?Hs, ?orb_true_r;
    (split; [reflexivity|]); (split; [reflexivity|]); (split; [reflexivity|]);
    (split; [reflexivity|]);
    (split; [membership|]); (split; [reflexivity|]); (split; [intros b; membership|]).
  - left. split; [reflexivity | intros b; membership].
  - right. split; [reflexivity | membership].
  - left. split; [reflexivity | intros b; membership].
Qed.

(** ** The service loop while stopping *)

Lemma endBatch_pool idleBuffers r :
  idleBufferPool_ (endBatch idleBuffers r).1 =
  idleBufferPool_
    (startReceive (set_idleBufferPool_ (pushAll idleBuffers (idleBufferPool_ r)) r)).
Proof. unfold endBatch, endService. destruct (Queue.endService _ _). reflexivity. Qed.

Lemma endBatch_trace idleBuffers r :
  trace (endBatch idleBuffers r).1 =
  trace (startReceive (set_idleBufferPool_ (pushAll idleBuffers (idleBufferPool_ r)) r)).
Proof. unfold endBatch, endService. destruct (Queue.endService _ _). reflexivity. Qed.

(** C10. When [stopping_] is set as the service loop comes to a buffer
    taken from the queue, the loop counts the buffer in [packetsProcessed]
    and does nothing else with it: the consumer is not called, the
    buffer's used length is not added to [bytesProcessed], and the buffer
    does not join the idle buffers, so that the end of the batch returns to
    the pool the idle buffers collected before and not this one. *)
Theorem stopping_skips_buffer buffer idleBuffers r :
  stopping_ r = true ->
  serviceStep (AtCheck buffer idleBuffers) r = (r, Some (AtFetch idleBuffers)) /\
  exists r',
    servicePacket buffer r idleBuffers = (r', Some idleBuffers) /\
    packetsProcessed_ r' = wrap (packetsProcessed_ r + 1) /\
    bytesProcessed_ r' = bytesProcessed_ r /\
    trace r' = trace r /\ consumer_ r' = consumer_ r /\
    idleBufferPool_ r' = idleBufferPool_ r /\
    idleBufferPool_ (endBatch idleBuffers r').1 = pushAll idleBuffers (idleBufferPool_ r) /\
    trace (endBatch idleBuffers r').1 = trace r.
Proof.
  intros Hstop. split.
  - cbn. rewrite Hstop. reflexivity.
  - unfold servicePacket. cbn. rewrite Hstop. cbn.
    eexists. split; [reflexivity|]. repeat split.
    + rewrite endBatch_pool. unfold startReceive, mayReceive. cbn.
      rewrite Hstop, andb_false_r. reflexivity.
    + rewrite endBatch_trace. unfold startReceive, mayReceive. cbn.
      rewrite Hstop, andb_false_r. reflexivity.
Qed.

(** ** [start] *)

Lemma trace_allocateBuffers n : forall nBuffer r,
  trace (allocateBuffers n nBuffer r) = trace r.
Proof.
  induction n as [|n IH]; intros nBuffer r; [reflexivity|].
  cbn [allocateBuffers]. rewrite IH. reflexivity.
Qed.

Lemma trace_startReceive r :
  trace (startReceive r) = trace r \/
  exists buffer, trace (startReceive r) = trace r ++ [AsyncReceiveFrom buffer].
Proof.
  unfold startReceive, postReceive. destruct (mayReceive r); [|left; reflexivity].
  destruct (pop _) as [[buffer|] pool]; [right; exists buffer|left]; reflexivity.
Qed.

(** C2, amended. When [start] returns, it has called the consumer's
    [receiverStarted] exactly once: after the socket was bound, before the
    multicast group is joined and before a receive is posted. *)
Theorem start_calls_receiverStarted calls consumer bufferSize bufferCount r r' :
  start calls consumer bufferSize bufferCount r = Returned r' ->
  exists events, trace r' = trace r ++ events /\ startedBeforeJoin events.
Proof.
  unfold start.
  destruct (open_ok calls), (reuse_address_ok calls), (bind_ok calls); cbn;
    try discriminate.
  destruct (wantLog _ _) as [consumer' want].
  destruct (join_group_ok calls); cbn [negb]; [|destruct want; discriminate].
  intros [= <-].
  match goal with |- context [startReceive ?x] => set (r1 := x) end.
  assert (Hr1 : exists logs,
             trace r1 = trace r ++ [SocketOpen; SocketReuseAddress; SocketBind] ++
                        ReceiverStarted :: logs ++ [SocketJoinGroup] /\
             (logs = [WantLog LOG_INFO] \/
              exists message, logs = [WantLog LOG_INFO; LogMessage LOG_INFO message])).
  { subst r1. rewrite trace_allocateBuffers. cbn.
    destruct want; cbn; rewrite <- ?app_assoc; cbn.
    - eexists (_ :: _ :: []). split; [reflexivity|]. right. eexists. reflexivity.
    - eexists (_ :: []). split; [reflexivity|]. left. reflexivity. }
  destruct Hr1 as (logs & Hr1 & Hlogs).
  assert (Hposted : exists posted,
             trace (startReceive r1) = trace r1 ++ posted /\ (ReceiverStarted ∉ posted)).
  { destruct (trace_startReceive r1) as [-> | (buffer & ->)].
    - exists []. rewrite app_nil_r. split; [reflexivity | membership].
    - eexists. split; [reflexivity | membership]. }
  destruct Hposted as (posted & -> & Hposted). rewrite Hr1.
  exists ([SocketOpen; SocketReuseAddress; SocketBind] ++
          ReceiverStarted :: logs ++ [SocketJoinGroup] ++ posted).
  split; [rewrite <- !app_assoc; cbn; rewrite <- !app_assoc; reflexivity|].
  exists [SocketOpen; SocketReuseAddress; SocketBind], (logs ++ [SocketJoinGroup] ++ posted).
  split; [reflexivity|].
  revert Hposted.
  destruct Hlogs as [-> | (message & ->)]; repeat split; membership.
Qed.

End Receiver.

Example three_datagrams_counted :
  let r := receiver afterThreeDatagrams in
  servicers afterThreeDatagrams = [] /\
  packetsReceived_ r = 3 /\ emptyPackets_ r = 1 /\ packetsQueued_ r = 2 /\
  packetsProcessed_ r = 2 /\ bytesReceived_ r = 30 /\ bytesProcessed_ r = 30 /\
  largestPacket_ r = 20 /\ consumer_ r = 2%nat.
Proof. repeat split. Qed.

(** The same datagrams, each handled by a call of [handleReceive] that
    runs alone, leave the receiver in the same state. *)
Example three_datagrams_handled :
  let complete := completeNext (BufferConsumer0 := countingConsumer) 2 None in
  (o1 ← complete 10 startedReceiver;
   o2 ← complete 0 (receiverOf o1);
   complete 20 (receiverOf o2))
  = Some (Returned (receiver afterThreeDatagrams)).
Proof. vm_compute. reflexivity. Qed.

(** The consumer is handed the first two buffers and stops the receiver at
    the second; the third is counted as processed, is not handed over and
    does not come back to the idle pool. The first buffer went back to the
    pool after the first batch and was posted again at once; the pool ends
    with the second buffer alone. *)
Example stop_in_batch :
  exists s,
    afterStopInBatch = Some s /\ servicers s = [] /\
    stopping_ (receiver s) = true /\ consumer_ (receiver s) = 2%nat /\
    packetsQueued_ (receiver s) = 3 /\ packetsProcessed_ (receiver s) = 3 /\
    bytesReceived_ (receiver s) = 60 /\ bytesProcessed_ (receiver s) = 30 /\
    noBufferAvailable_ (receiver s) = 1 /\
    address <$> idleBufferPool_ (receiver s) = [1%nat] /\
    trace (receiver s) =
      [SocketOpen; SocketReuseAddress; SocketBind; ReceiverStarted; WantLog LOG_INFO;
       SocketJoinGroup;
       AsyncReceiveFrom {| address := 2; capacity := 64; used := 0 |};
       AsyncReceiveFrom {| address := 1; capacity := 64; used := 0 |};
       AsyncReceiveFrom {| address := 0; capacity := 64; used := 0 |};
       ConsumeBuffer {| address := 2; capacity := 64; used := 10 |};
       AsyncReceiveFrom {| address := 2; capacity := 64; used := 10 |};
       ConsumeBuffer {| address := 1; capacity := 64; used := 20 |};
       SocketCancel].
Proof. eexists. split; [reflexivity|]. repeat split. Qed.

Lemma counters_conserved_witness :
  start (BufferConsumer0 := countingConsumer) allCallsSucceed O 64 2 newReceiver
    = Returned startedReceiver /\
  run (BufferConsumer0 := countingConsumer) threeDatagrams
    {| receiver := startedReceiver; servicers := [] |} = Some afterThreeDatagrams /\
  Z.of_nat (length threeDatagrams) < size_t_max /\
  packetsProcessed_ (receiver afterThreeDatagrams)
    <= packetsQueued_ (receiver afterThreeDatagrams) /\
  (quiescent afterThreeDatagrams ->
   packetsReceived_ (receiver afterThreeDatagrams) =
     packetsQueued_ (receiver afterThreeDatagrams) +
     emptyPackets_ (receiver afterThreeDatagrams) +
     errorPackets_ (receiver afterThreeDatagrams) /\
   (stopping_ (receiver afterThreeDatagrams) = false ->
    ~ escaped (receiver afterThreeDatagrams) ->
    packetsProcessed_ (receiver afterThreeDatagrams)
      = packetsQueued_ (receiver afterThreeDatagrams))).
Proof.
  split; [reflexivity|]. split; [reflexivity|]. split; [reflexivity|].
  apply (@counters_conserved nat countingConsumer allCallsSucceed O 64 2%nat O
           "239.255.0.1" "0.0.0.0" 30001 startedReceiver threeDatagrams afterThreeDatagrams);
    reflexivity.
Defined.

(** C8 as stated fails when [consumeBuffer] throws what is not a
    [std::exception]: the handler catches [const std::exception &] only,
    the exception leaves [handleReceive] before [endService] is called, and
    the queue stays in service with nobody servicing it. A datagram that
    arrives afterwards is queued and never processed: no thread is inside
    [handleReceive], the receiver is not stopping, two packets have been
    queued and one processed. *)
Lemma uncaught_exception_stalls_queue :
  exists r s,
    start (BufferConsumer0 := escapingConsumer) allCallsSucceed O 64 2 newReceiver
      = Returned r /\
    run (BufferConsumer0 := escapingConsumer) exceptionEscapes
      {| receiver := r; servicers := [] |} = Some s /\
    quiescent s /\ stopping_ (receiver s) = false /\
    packetsReceived_ (receiver s) = 2 /\
    packetsQueued_ (receiver s) = 2 /\ packetsProcessed_ (receiver s) = 1 /\
    packetsProcessed_ (receiver s) <> packetsQueued_ (receiver s) /\
    Queue.busy (queue_ (receiver s)) = true /\
    used <$> Queue.incoming (queue_ (receiver s)) = [20].
Proof.
  do 2 eexists. split; [reflexivity|]. split; [vm_compute; reflexivity|].
  repeat split. discriminate.
Qed.

Lemma stopping_skips_buffer_witness :
  let buffer := {| address := 1; capacity := 64; used := 10 |} in
  let r := stop startedReceiver in
  stopping_ r = true /\
  (serviceStep (BufferConsumer0 := countingConsumer) (AtCheck buffer []) r
     = (r, Some (AtFetch [])) /\
   exists r',
     servicePacket (BufferConsumer0 := countingConsumer) buffer r [] = (r', Some []) /\
     packetsProcessed_ r' = wrap (packetsProcessed_ r + 1) /\
     bytesProcessed_ r' = bytesProcessed_ r /\
     trace r' = trace r /\ consumer_ r' = consumer_ r /\
     idleBufferPool_ r' = idleBufferPool_ r /\
     idleBufferPool_ (endBatch [] r').1 = pushAll [] (idleBufferPool_ r) /\
     trace (endBatch [] r').1 = trace r).
Proof.
  split; [reflexivity|].
  apply (@stopping_skips_buffer nat countingConsumer
           {| address := 1; capacity := 64; used := 10 |} [] (stop startedReceiver)).
  reflexivity.
Defined.

Lemma start_calls_receiverStarted_witness :
  start (BufferConsumer0 := countingConsumer) allCallsSucceed O 64 2 newReceiver
    = Returned startedReceiver /\
  exists events,
    trace startedReceiver = trace newReceiver ++ events /\ startedBeforeJoin events.
Proof.
  split; [reflexivity|].
  apply (@start_calls_receiverStarted nat countingConsumer allCallsSucceed O 64 2%nat
           newReceiver startedReceiver).
  reflexivity.
Defined.

(** C2 as stated fails: [start] joins the multicast group after it has
    called [receiverStarted], not before. In the scenario the events of
    [start] are: open, reuse address, bind, [receiverStarted], [wantLog],
    join group, receive. *)
Lemma start_joins_after_receiverStarted :
  ~ (forall calls consumer bufferSize bufferCount (r r' : t nat),
       start (BufferConsumer0 := countingConsumer) calls consumer bufferSize bufferCount r
         = Returned r' ->
       exists events, trace r' = trace r ++ events /\ startedAfterJoin events).
Proof.
  intros Hclaim.
  destruct (Hclaim allCallsSucceed O 64 2%nat newReceiver startedReceiver eq_refl)
    as (events & Hevents & before & after & Hsplit & Hbefore & _ & _ & Hjoin & _).
  cbn in Hevents. subst events.
  destruct before as [|e0 before]; [discriminate|]. injection Hsplit as <- Hsplit.
  destruct before as [|e1 before]; [discriminate|]. injection Hsplit as <- Hsplit.
  destruct before as [|e2 before]; [discriminate|]. injection Hsplit as <- Hsplit.
  destruct before as [|e3 before].
  - revert Hjoin. membership.
  - injection Hsplit as <- Hsplit. apply Hbefore. membership.
Qed.

End MulticastReceiverFacts.

(** * Further properties of the presence map *)

Module PresenceMapLaws.
Import PresenceMap PresenceMapFacts.

#[local] Arguments Nat.div : simpl never.
#[local] Arguments Nat.modulo : simpl never.
#[local] Arguments putBytes : simpl never.

(** ** [maskToBitNumber] *)

Lemma maskToBitNumberLoop_stopped fuel bitMask n :
  bitMask = startByteMask \/ bitMask = 0 -> maskToBitNumberLoop fuel bitMask n = n.
Proof.
  intros Hstop. destruct fuel as [|fuel]; [reflexivity|]. cbn [maskToBitNumberLoop].
  rewrite decide_False by tauto. reflexivity.
Qed.

Lemma maskToBitNumberLoop_enough extra : forall fuel bitMask n,
  0 <= bitMask < 256 -> (bitMask * 2 ^ Z.of_nat fuel) mod 256 = 0 ->
  maskToBitNumberLoop (fuel + extra) bitMask n = maskToBitNumberLoop fuel bitMask n.
Proof.
  induction fuel as [|fuel IH]; intros bitMask n Hb Hzero.
  - cbn in Hzero. rewrite Z.mul_1_r, Z.mod_small in Hzero by exact Hb. subst bitMask.
    cbn. apply maskToBitNumberLoop_stopped. right; reflexivity.
  - cbn [Nat.add maskToBitNumberLoop]. case_decide; [|reflexivity].
    apply IH; [apply Z.mod_pos_bound; lia|].
    rewrite Z.shiftl_mul_pow2 by lia. rewrite Z.mul_mod_idemp_l by lia.
    rewrite <- Hzero. f_equal. rewrite Nat2Z.inj_succ, Z.pow_succ_r by lia. lia.
Qed.

Lemma maskToBitNumber_small : forall bitMask, 0 <= bitMask < 256 ->
  (maskToBitNumber bitMask <= 8)%nat /\
  (maskToBitNumber bitMask = O <-> bitMask = startByteMask \/ bitMask = 0).
Proof. enumerate_byte 256. Qed.

(** X1. [maskToBitNumber] on any byte: its loop is over after at most
    eight rounds (more fuel changes nothing), the result is at most 8, it
    is 0 exactly for the masks 0x40 and 0, and for the mask of the [j]th
    data bit, [0x40 >> j], it is [j]. *)
Theorem maskToBitNumber_counts_shifts (bitMask : uchar) :
  0 <= bitMask < 256 ->
  (forall fuel, (8 <= fuel)%nat ->
     maskToBitNumberLoop fuel bitMask 0 = maskToBitNumber bitMask) /\
  (maskToBitNumber bitMask <= 8)%nat /\
  (maskToBitNumber bitMask = O <-> bitMask = startByteMask \/ bitMask = 0) /\
  (forall j, (j < 7)%nat -> bitMask = Z.shiftr startByteMask (Z.of_nat j) ->
     maskToBitNumber bitMask = j).
Proof.
  intros Hb. split; [|split; [|split]].
  - intros fuel Hfuel. replace fuel with (8 + (fuel - 8))%nat by lia.
    apply maskToBitNumberLoop_enough; [exact Hb|].
    change (2 ^ Z.of_nat 8) with 256. apply Z.mod_mul. lia.
  - apply maskToBitNumber_small, Hb.
  - apply maskToBitNumber_small, Hb.
  - intros j Hj ->. apply maskToBitNumber_mask, Hj.
Qed.

Lemma maskToBitNumber_counts_shifts_witness :
  (forall fuel, (8 <= fuel)%nat ->
     maskToBitNumberLoop fuel 0x03 0 = maskToBitNumber 0x03) /\
  (maskToBitNumber 0x03 <= 8)%nat /\
  (maskToBitNumber 0x03 = O <-> 0x03 = startByteMask \/ 0x03 = 0) /\
  (forall j, (j < 7)%nat -> 0x03 = Z.shiftr startByteMask (Z.of_nat j) ->
     maskToBitNumber 0x03 = j).
Proof. apply (maskToBitNumber_counts_shifts 0x03). lia. Defined.

(** ** The constructor *)

(** X2. The constructor allocates the larger of the inline capacity and
    [(bits + 6)/7] bytes, which is enough for [bits] bits at seven to a
    byte; the buffer is all zero, and a new map encodes to no bytes. *)
Theorem make_holds_bits (defaultByteCapacity : nat) (bits : Z) :
  0 <= bits -> bits + 6 < size_t_max ->
  let pm := make defaultByteCapacity bits in
  byteCapacity_ pm = Nat.max defaultByteCapacity (Z.to_nat (bytesForBits bits)) /\
  bits <= 7 * Z.of_nat (byteCapacity_ pm) /\
  bits_ pm = replicate (byteCapacity_ pm) 0 /\
  encodeBytesNeeded pm = Some O /\
  forall destination, encode pm destination = Some (pm, destination).
Proof.
  intros Hpos Hmax pm.
  assert (Hcap : byteCapacity_ pm = Nat.max defaultByteCapacity (Z.to_nat (bytesForBits bits))).
  { subst pm. rewrite make_capacity. unfold wrap, bytesForBits.
    rewrite Z.mod_small by lia. reflexivity. }
  split; [exact Hcap|]. split.
  { rewrite Hcap. unfold bytesForBits. zify. Z.to_euclidean_division_equations. lia. }
  split.
  { unfold byteCapacity_. subst pm. unfold make. cbn [bits_]. rewrite length_replicate.
    reflexivity. }
  split; [reflexivity|]. intros destination. reflexivity.
Qed.

Lemma make_holds_bits_witness :
  let pm := make 16 113 in
  byteCapacity_ pm = Nat.max 16 (Z.to_nat (bytesForBits 113)) /\
  113 <= 7 * Z.of_nat (byteCapacity_ pm) /\
  bits_ pm = replicate (byteCapacity_ pm) 0 /\
  encodeBytesNeeded pm = Some O /\
  forall destination, encode pm destination = Some (pm, destination).
Proof. apply (make_holds_bits 16 113); [lia | reflexivity]. Defined.

(** ** [setRaw] and [getRaw] *)

(** X3. [setRaw] of bytes that lie outside the map, followed by [getRaw],
    gives these bytes back, followed by zeros, in a buffer as long as the
    larger of the old capacity and [byteLength]; nothing of the old content
    is kept and the cursor is at the origin. [setRaw] of what [getRaw] has
    just given out, the map's own buffer, does not keep the map as it is:
    it erases it, all its bytes are zero afterwards. *)
Theorem setRaw_getRaw (bytes beyond : list uchar) (pm : t) :
  let byteLength := Nat.max (byteCapacity_ pm) (length bytes) in
  (exists pm',
     setRaw (Elsewhere (bytes ++ beyond)) (length bytes) pm = Some pm' /\
     bytesAt (getRaw pm').1 pm' = bytes ++ replicate (byteLength - length bytes) 0 /\
     (getRaw pm').2 = byteLength /\
     bytePosition_ pm' = O /\ bitMask_ pm' = startByteMask) /\
  (exists pm',
     setRaw (getRaw pm).1 (getRaw pm).2 pm = Some pm' /\
     bytesAt (getRaw pm').1 pm' = replicate (byteCapacity_ pm) 0 /\
     (getRaw pm').2 = byteCapacity_ pm /\
     bytePosition_ pm' = O /\ bitMask_ pm' = startByteMask).
Proof.
  intros byteLength. split.
  - unfold setRaw.
    destruct (decide (length bytes <= length (bytes ++ beyond))%nat) as [_|Hn];
      [|rewrite length_app in Hn; lia].
    cbn [mbind option_bind].
    eexists. split; [reflexivity|].
    unfold getRaw, rewind, byteCapacity_, bytesAt. cbn [fst snd bits_ bytePosition_ bitMask_].
    rewrite take_app_length, drop_replicate, length_app, length_replicate.
    subst byteLength. unfold byteCapacity_.
    repeat split; case_decide; try (do 2 f_equal); lia.
  - unfold setRaw, getRaw. cbn [fst snd].
    rewrite decide_False, decide_True by lia. cbn [mbind option_bind].
    eexists. split; [reflexivity|].
    unfold rewind, byteCapacity_, bytesAt. cbn [fst snd bits_ bytePosition_ bitMask_].
    rewrite take_replicate, drop_replicate, <- replicate_add, length_replicate.
    repeat split; f_equal; lia.
Qed.

(** ** [encode] *)

Lemma trimZeroBytes_le pm : forall bpos k,
  trimZeroBytes pm bpos = Some k ->
  (k <= bpos)%nat /\ (forall i, (k < i <= bpos)%nat -> bits_ pm !! i = Some 0) /\
  (k <> O -> exists b, bits_ pm !! k = Some b /\ b <> 0).
Proof.
  induction bpos as [|bpos IH]; intros k; cbn [trimZeroBytes].
  - intros [= <-]. split; [lia|]. split; [intros; lia | congruence].
  - unfold readByte. destruct (bits_ pm !! S bpos) as [b|] eqn:Hb; cbn; [|discriminate].
    case_decide as Hz.
    + intros Htrim. destruct (IH k Htrim) as (Hle & Hzero & Hlast).
      split; [lia|]. split; [|exact Hlast].
      intros i Hi. destruct (decide (i = S bpos)) as [->|]; [congruence | apply Hzero; lia].
    + intros [= <-]. split; [lia|]. split; [intros; lia | eauto].
Qed.

Lemma trimZeroBytes_stop pm b : forall bpos k,
  trimZeroBytes pm bpos = Some k ->
  trimZeroBytes (mk (bitMask_ pm) (bytePosition_ pm) (<[k := Z.lor b stopBit]> (bits_ pm))) bpos
  = Some k.
Proof.
  induction bpos as [|bpos IH]; intros k; cbn [trimZeroBytes]; [tauto|].
  unfold readByte. cbn [bits_].
  destruct (bits_ pm !! S bpos) as [x|] eqn:Hx; cbn; [|discriminate].
  assert (Hlt : (S bpos < length (bits_ pm))%nat) by (eapply lookup_lt_Some, Hx).
  case_decide as Hz.
  - intros Htrim. destruct (trimZeroBytes_le _ _ _ Htrim) as (Hle & _).
    rewrite list_lookup_insert_ne by lia. rewrite Hx. cbn.
    rewrite decide_True by exact Hz. apply IH, Htrim.
  - intros [= <-]. rewrite list_lookup_insert_eq by exact Hlt. cbn.
    rewrite decide_False; [reflexivity|].
    intros Hor. apply Z.lor_eq_0_iff in Hor as [_ Hor]. discriminate.
Qed.

Lemma encode_inv pm destination pm' destination' :
  encode pm destination = Some (pm', destination') ->
  nothingWritten pm = false ->
  exists k b,
    trimZeroBytes pm (lastUsedByte pm) = Some k /\ bits_ pm !! k = Some b /\
    pm' = mk (bitMask_ pm) (bytePosition_ pm) (<[k := Z.lor b stopBit]> (bits_ pm)) /\
    destination' = destination ++ take k (bits_ pm) ++ [Z.lor b stopBit].
Proof.
  intros Henc Hnw. pose proof Henc as Henc'.
  unfold encode in Henc'. rewrite Hnw in Henc'.
  destruct (trimZeroBytes pm (lastUsedByte pm)) as [k|] eqn:Htrim; [|discriminate].
  cbn in Henc'. unfold readByte in Henc'.
  destruct (bits_ pm !! k) as [b|] eqn:Hb; [|discriminate].
  rewrite (encode_at pm destination k b Hnw Htrim Hb) in Henc.
  injection Henc as <- <-. exists k, b. repeat split; assumption.
Qed.

(** X4. [encode] writes the stop bit into the map, and yet a second
    [encode] emits the same bytes as the first and changes nothing more. *)
Theorem encode_twice (pm pm1 : t) (destination destination1 : DataDestination) :
  encode pm destination = Some (pm1, destination1) ->
  exists emitted,
    destination1 = destination ++ emitted /\
    forall destination', encode pm1 destination' = Some (pm1, destination' ++ emitted).
Proof.
  intros Henc. destruct (nothingWritten pm) eqn:Hnw.
  - unfold encode in Henc. rewrite Hnw in Henc. injection Henc as <- <-.
    exists []. split; [rewrite app_nil_r; reflexivity|].
    intros destination'. unfold encode. rewrite Hnw, app_nil_r. reflexivity.
  - destruct (encode_inv _ _ _ _ Henc Hnw) as (k & b & Htrim & Hb & -> & ->).
    eexists. split; [reflexivity|]. intros destination'.
    assert (Hk : (k < length (bits_ pm))%nat) by (eapply lookup_lt_Some, Hb).
    rewrite (encode_at _ destination' k (Z.lor b stopBit)).
    + cbn [bits_ bitMask_ bytePosition_].
      rewrite <- Z.lor_assoc, Z.lor_diag, list_insert_insert_eq, take_insert_ge by lia.
      reflexivity.
    + exact Hnw.
    + apply (trimZeroBytes_stop pm b), Htrim.
    + cbn [bits_]. apply list_lookup_insert_eq, Hk.
Qed.

Lemma encode_twice_witness :
  exists emitted,
    [0xC0] = [] ++ emitted /\
    forall destination',
      encode (mk 0x40 1 [0xC0; 0]) destination' =
      Some (mk 0x40 1 [0xC0; 0], destination' ++ emitted).
Proof. apply (encode_twice (mk 0x40 1 [0x40; 0]) _ [] [0xC0]). reflexivity. Defined.

(** X5. When a bit has been written, [encode] emits the bytes of the
    buffer up to a byte [n], the last with the stop bit set: every byte
    after [n] up to the cursor's is zero, byte [n] is not zero unless it is
    byte 0, and in the map only byte [n] changes, by its stop bit. *)
Theorem encode_trims_zero_bytes (pm pm' : t) (destination destination' : DataDestination) :
  encode pm destination = Some (pm', destination') ->
  nothingWritten pm = false ->
  exists n b,
    (n <= lastUsedByte pm)%nat /\ bits_ pm !! n = Some b /\
    destination' = destination ++ take n (bits_ pm) ++ [Z.lor b stopBit] /\
    (forall i, (n < i <= lastUsedByte pm)%nat -> bits_ pm !! i = Some 0) /\
    (n <> O -> b <> 0) /\
    bits_ pm' = <[n := Z.lor b stopBit]> (bits_ pm) /\
    bytePosition_ pm' = bytePosition_ pm /\ bitMask_ pm' = bitMask_ pm.
Proof.
  intros Henc Hnw.
  destruct (encode_inv _ _ _ _ Henc Hnw) as (k & b & Htrim & Hb & -> & ->).
  destruct (trimZeroBytes_le _ _ _ Htrim) as (Hle & Hzero & Hlast).
  exists k, b. split; [exact Hle|]. split; [exact Hb|]. split; [reflexivity|].
  split; [exact Hzero|]. split.
  { intros Hk. destruct (Hlast Hk) as (b' & Hb' & Hne). congruence. }
  repeat split.
Qed.

Lemma encode_trims_zero_bytes_witness :
  let pm := mk 0x40 3 [0x01; 0x20; 0; 0] in
  let pm' := mk 0x40 3 [0x01; 0xA0; 0; 0] in
  exists n b,
    (n <= lastUsedByte pm)%nat /\ bits_ pm !! n = Some b /\
    [0x01; 0xA0] = [] ++ take n (bits_ pm) ++ [Z.lor b stopBit] /\
    (forall i, (n < i <= lastUsedByte pm)%nat -> bits_ pm !! i = Some 0) /\
    (n <> O -> b <> 0) /\
    bits_ pm' = <[n := Z.lor b stopBit]> (bits_ pm) /\
    bytePosition_ pm' = bytePosition_ pm /\ bitMask_ pm' = bitMask_ pm.
Proof.
  apply (encode_trims_zero_bytes (mk 0x40 3 [0x01; 0x20; 0; 0]) (mk 0x40 3 [0x01; 0xA0; 0; 0])
           [] [0x01; 0xA0]); reflexivity.
Defined.

(** ** [decode] *)

Lemma decodeLoop_buffer : forall source byte stored k pm,
  bits_ pm = stored ++ replicate k 0 ->
  exists ok pm' rest consumed,
    decodeLoop source byte (length stored) pm = Some (ok, pm', rest) /\
    byte :: source = consumed ++ rest /\
    bits_ pm' = stored ++ consumed ++ replicate (k - length consumed) 0 /\
    bitMask_ pm' = bitMask_ pm /\ bytePosition_ pm' = bytePosition_ pm /\
    (ok = false -> rest = []).
Proof.
  induction source as [|next source IH]; intros byte stored k pm Hbits;
    destruct (appendByte_spec byte pm stored k Hbits) as (pm1 & Happ & Hm & Hp & Hb1);
    cbn [decodeLoop]; rewrite Happ; cbn; case_decide as Hstop.
  - exists false, pm1, [], [byte]. rewrite Hb1, <- app_assoc. repeat split; assumption.
  - exists true, pm1, [], [byte]. rewrite Hb1, <- app_assoc.
    repeat split; assumption.
  - replace (S (length stored)) with (length (stored ++ [byte]))
      by (rewrite length_app; cbn; lia).
    destruct (IH next (stored ++ [byte]) (k - 1)%nat pm1 Hb1)
      as (ok & pm2 & rest & consumed & Hloop & Hsrc & Hb2 & Hm2 & Hp2 & Hfail).
    exists ok, pm2, rest, (byte :: consumed). rewrite Hloop.
    split; [reflexivity|]. split; [cbn; rewrite Hsrc; reflexivity|].
    split; [|split; [congruence | split; [congruence | exact Hfail]]].
    rewrite Hb2, <- app_assoc. cbn [app length].
    replace (k - 1 - length consumed)%nat with (k - S (length consumed))%nat by lia.
    reflexivity.
  - exists true, pm1, (next :: source), [byte]. rewrite Hb1, <- app_assoc.
    repeat split; try assumption. discriminate.
Qed.

Lemma decode_buffer source pm :
  exists ok pm' rest consumed,
    decode source pm = Some (ok, pm', rest) /\
    source = consumed ++ rest /\
    bits_ pm' = consumed ++ replicate (byteCapacity_ pm - length consumed) 0 /\
    bitMask_ pm' = startByteMask /\ bytePosition_ pm' = O /\
    (ok = false -> rest = []).
Proof.
  unfold decode. destruct source as [|byte source]; cbn [getByte].
  - exists false, (reset 0 pm), [], []. repeat split.
    unfold reset. rewrite decide_False by lia. cbn. rewrite Nat.sub_0_r. reflexivity.
  - destruct (decodeLoop_buffer source byte [] (byteCapacity_ pm) (reset 0 pm))
      as (ok & pm' & rest & consumed & Hloop & Hsrc & Hb & Hm & Hp & Hfail).
    { unfold reset. rewrite decide_False by lia. reflexivity. }
    exists ok, pm', rest, consumed. cbn in Hloop, Hb. repeat split; assumption.
Qed.

(** X6. [decode] is total and leaves the cursor at the origin, whether
    it succeeds or not: a map that has just been decoded has nothing to
    encode, [encodeBytesNeeded] is 0 and [encode] emits no byte. *)
Theorem decode_leaves_cursor_at_origin (source : DataSource) (pm : t) :
  exists ok pm' rest,
    decode source pm = Some (ok, pm', rest) /\
    bytePosition_ pm' = O /\ bitMask_ pm' = startByteMask /\
    encodeBytesNeeded pm' = Some O /\
    forall destination, encode pm' destination = Some (pm', destination).
Proof.
  destruct (decode_buffer source pm) as (ok & pm' & rest & consumed & Hdec & _ & _ & Hm & Hp & _).
  exists ok, pm', rest. split; [exact Hdec|]. split; [exact Hp|]. split; [exact Hm|].
  assert (Hnw : nothingWritten pm' = true).
  { unfold nothingWritten. rewrite Hp, Hm. reflexivity. }
  unfold encodeBytesNeeded, encode. rewrite Hnw. split; reflexivity.
Qed.

(** X7. [decode] stores the bytes it takes from the source, and nothing
    else: the buffer holds them followed by zeros, it grows to their number
    only if that exceeds the capacity, and when [decode] fails it has taken
    the whole source. *)
Theorem decode_stores_what_it_consumes (source : DataSource) (pm : t) :
  exists ok pm' rest,
    decode source pm = Some (ok, pm', rest) /\
    let consumed := (length source - length rest)%nat in
    rest = drop consumed source /\
    (ok = false -> rest = []) /\
    byteCapacity_ pm' = Nat.max (byteCapacity_ pm) consumed /\
    bits_ pm' = take consumed source ++ replicate (byteCapacity_ pm - consumed) 0.
Proof.
  destruct (decode_buffer source pm)
    as (ok & pm' & rest & consumed & Hdec & Hsrc & Hb & _ & _ & Hfail).
  exists ok, pm', rest. split; [exact Hdec|]. cbn zeta.
  assert (Hlen : (length source - length rest)%nat = length consumed).
  { rewrite Hsrc, length_app. lia. }
  rewrite Hlen. split; [rewrite Hsrc, drop_app_length; reflexivity|].
  split; [exact Hfail|]. split.
  - unfold byteCapacity_ at 1. rewrite Hb, length_app, length_replicate. lia.
  - rewrite Hb, Hsrc, take_app_length. reflexivity.
Qed.

(** ** [reset] *)

(** X8. [reset] zeroes the whole buffer and rewinds the cursor; it never
    shrinks the buffer; with [bitCount] 0 the capacity stays, else it
    becomes the larger of the capacity and [(bitCount + 7)/8], except that
    for a [bitCount] within 7 of the largest [size_t] the sum wraps and the
    capacity stays. *)
Theorem reset_erases (bitCount : Z) (pm : t) :
  let pm' := reset bitCount pm in
  (byteCapacity_ pm <= byteCapacity_ pm')%nat /\
  (bitCount <= 0 \/ size_t_max <= bitCount + 7 < size_t_max + 8 ->
   byteCapacity_ pm' = byteCapacity_ pm) /\
  (0 < bitCount -> bitCount + 7 < size_t_max ->
   byteCapacity_ pm' = Nat.max (byteCapacity_ pm) (Z.to_nat ((bitCount + 7) / 8))) /\
  bits_ pm' = replicate (byteCapacity_ pm') 0 /\
  bytePosition_ pm' = O /\ bitMask_ pm' = startByteMask.
Proof.
  intros pm'. subst pm'. unfold reset, rewind, byteCapacity_. cbn [bits_ bytePosition_ bitMask_].
  rewrite !length_replicate. split; [|split; [|split]].
  - repeat case_decide; lia.
  - intros [Hle|Hwrap]; [rewrite decide_False by lia; reflexivity|].
    case_decide; [|reflexivity].
    replace (wrap (bitCount + 7) / 8) with 0; [rewrite decide_False by (cbn; lia); reflexivity|].
    unfold wrap, size_t_max in *. Z.to_euclidean_division_equations. lia.
  - intros Hpos Hmax. rewrite decide_True by exact Hpos. unfold wrap.
    rewrite Z.mod_small by lia. case_decide; lia.
  - split; [reflexivity|]. split; reflexivity.
Qed.

(** ** [operator==] *)

Lemma samePrefix_sym lhs rhs : forall n pos,
  samePrefix lhs rhs pos n = samePrefix rhs lhs pos n.
Proof.
  induction n as [|n IH]; intros pos; cbn [samePrefix]; [reflexivity|].
  unfold readByte.
  destruct (bits_ lhs !! pos) as [l|], (bits_ rhs !! pos) as [r|]; cbn; try reflexivity.
  rewrite IH. repeat case_decide; congruence.
Qed.

(** X9. [operator==] is symmetric, also in the accesses it makes: [a == b]
    reads outside a buffer exactly when [b == a] does. *)
Theorem eqb_sym (lhs rhs : t) : eqb lhs rhs = eqb rhs lhs.
Proof.
  unfold eqb. rewrite samePrefix_sym.
  destruct (decide (bytePosition_ lhs = bytePosition_ rhs)) as [Hp|Hp],
           (decide (bytePosition_ rhs = bytePosition_ lhs)) as [Hp'|Hp']; try congruence.
  destruct (decide (bitMask_ lhs = bitMask_ rhs)) as [Hm|Hm],
           (decide (bitMask_ rhs = bitMask_ lhs)) as [Hm'|Hm']; try congruence.
  rewrite Hp, Hm.
  destruct (samePrefix rhs lhs 0 (bytePosition_ rhs)) as [[|]|]; cbn; try reflexivity.
  unfold readByte.
  destruct (bits_ lhs !! bytePosition_ rhs) as [l|], (bits_ rhs !! bytePosition_ rhs) as [r|];
    cbn; try reflexivity.
  rewrite (Z.lxor_comm l r). reflexivity.
Qed.

Lemma samePrefix_refl pm : forall n pos,
  samePrefix pm pm pos n =
  if decide (n = O \/ pos + n <= byteCapacity_ pm)%nat then Some true else None.
Proof.
  unfold byteCapacity_.
  induction n as [|n IH]; intros pos; cbn [samePrefix].
  - rewrite decide_True by tauto. reflexivity.
  - unfold readByte. destruct (bits_ pm !! pos) as [x|] eqn:Hx; cbn.
    + apply lookup_lt_Some in Hx. rewrite decide_True by reflexivity. rewrite IH. clear IH.
      destruct (decide (n = O \/ S pos + n <= length (bits_ pm))%nat),
               (decide (S n = O \/ pos + S n <= length (bits_ pm))%nat);
        try reflexivity; exfalso; intuition lia.
    + apply lookup_ge_None in Hx. rewrite decide_False by lia. reflexivity.
Qed.

(** X10. A map equals itself when its cursor's byte is inside its buffer;
    when the cursor stands on or past the end of the buffer, comparing the
    map with itself reads outside the buffer. *)
Theorem eqb_refl_inside_buffer (pm : t) :
  eqb pm pm = if decide (bytePosition_ pm < byteCapacity_ pm)%nat then Some true else None.
Proof.
  unfold eqb. rewrite !decide_True by reflexivity. rewrite samePrefix_refl.
  unfold readByte, byteCapacity_.
  destruct (decide (bytePosition_ pm < length (bits_ pm))%nat) as [Hin|Hout].
  - destruct (decide (bytePosition_ pm = O \/ 0 + bytePosition_ pm <= length (bits_ pm))%nat);
      [|exfalso; lia]. cbn.
    destruct (lookup_lt_is_Some_2 _ _ Hin) as [x ->]. cbn.
    rewrite Z.lxor_nilpotent, Z.land_0_l. reflexivity.
  - destruct (decide (bytePosition_ pm = O \/ 0 + bytePosition_ pm <= length (bits_ pm))%nat);
      [|reflexivity]. cbn.
    rewrite (lookup_ge_None_2 (bits_ pm)) by lia. reflexivity.
Qed.

Lemma eqb_true lhs rhs :
  eqb lhs rhs = Some true <->
  bytePosition_ lhs = bytePosition_ rhs /\ bitMask_ lhs = bitMask_ rhs /\
  (forall i, (i < bytePosition_ lhs)%nat ->
             exists x, bits_ lhs !! i = Some x /\ bits_ rhs !! i = Some x) /\
  exists l r, bits_ lhs !! bytePosition_ lhs = Some l /\ bits_ rhs !! bytePosition_ lhs = Some r /\
              Z.land l (equalMask (bitMask_ lhs)) = Z.land r (equalMask (bitMask_ lhs)).
Proof.
  unfold eqb, readByte. split.
  - destruct (decide (bytePosition_ lhs = bytePosition_ rhs)) as [Hp|]; [|discriminate].
    destruct (decide (bitMask_ lhs = bitMask_ rhs)) as [Hm|]; [|discriminate].
    destruct (samePrefix lhs rhs 0 (bytePosition_ lhs)) as [[|]|] eqn:Hpre; cbn;
      try discriminate.
    destruct (bits_ lhs !! bytePosition_ lhs) as [l|]; cbn; [|discriminate].
    destruct (bits_ rhs !! bytePosition_ lhs) as [r|]; cbn; [|discriminate].
    intros [= Hsame%bool_decide_eq_true].
    rewrite land_lxor, Z.lxor_eq_0_iff in Hsame. rewrite samePrefix_true in Hpre.
    split; [exact Hp|]. split; [exact Hm|]. split; [intros i Hi; apply Hpre; lia|].
    exists l, r. repeat split. exact Hsame.
  - intros (Hp & Hm & Hpre & l & r & Hl & Hr & Hsame).
    rewrite decide_True by exact Hp. rewrite decide_True by exact Hm.
    assert (Hpre' : samePrefix lhs rhs 0 (bytePosition_ lhs) = Some true).
    { apply samePrefix_true. intros i Hi. apply Hpre. lia. }
    rewrite Hpre'. cbn. rewrite Hl, Hr. cbn. f_equal. apply bool_decide_eq_true_2.
    rewrite land_lxor, Z.lxor_eq_0_iff. exact Hsame.
Qed.

(** X11. [operator==] is transitive. *)
Theorem eqb_trans (a b c : t) :
  eqb a b = Some true -> eqb b c = Some true -> eqb a c = Some true.
Proof.
  rewrite !eqb_true.
  intros (Hp & Hm & Hpre & l & r & Hl & Hr & Hsame)
         (Hp' & Hm' & Hpre' & l' & r' & Hl' & Hr' & Hsame').
  split; [congruence|]. split; [congruence|]. split.
  - intros i Hi. destruct (Hpre i Hi) as (x & Hx & Hy).
    destruct (Hpre' i) as (y & Hy' & Hz); [lia|]. exists x. split; congruence.
  - rewrite <- Hp, <- Hm in *. exists l, r'. repeat split; try assumption.
    assert (r = l') by congruence. subst l'. congruence.
Qed.

Lemma eqb_trans_witness :
  eqb (mk 0x08 0 [0x50; 0]) (mk 0x08 0 [0x53; 0]) = Some true.
Proof.
  apply (eqb_trans (mk 0x08 0 [0x50; 0]) (mk 0x08 0 [0x57; 0; 0]) (mk 0x08 0 [0x53; 0]));
    reflexivity.
Defined.

(** X12. [decode] leaves the cursor at the origin and [operator==]
    compares the bits before the cursor: two maps that have just been
    decoded compare equal whatever bytes they were decoded from. *)
Theorem decoded_maps_compare_equal (source1 source2 : DataSource) (pm1 pm2 : t) :
  (0 < byteCapacity_ pm1)%nat -> (0 < byteCapacity_ pm2)%nat ->
  exists ok1 pm1' rest1 ok2 pm2' rest2,
    decode source1 pm1 = Some (ok1, pm1', rest1) /\
    decode source2 pm2 = Some (ok2, pm2', rest2) /\
    eqb pm1' pm2' = Some true.
Proof.
  intros Hc1 Hc2.
  destruct (decode_buffer source1 pm1) as (ok1 & pm1' & rest1 & c1 & Hd1 & _ & Hb1 & Hm1 & Hp1 & _).
  destruct (decode_buffer source2 pm2) as (ok2 & pm2' & rest2 & c2 & Hd2 & _ & Hb2 & Hm2 & Hp2 & _).
  exists ok1, pm1', rest1, ok2, pm2', rest2. split; [exact Hd1|]. split; [exact Hd2|].
  assert (Hl1 : (0 < length (bits_ pm1'))%nat).
  { rewrite Hb1, length_app, length_replicate. lia. }
  assert (Hl2 : (0 < length (bits_ pm2'))%nat).
  { rewrite Hb2, length_app, length_replicate. lia. }
  destruct (lookup_lt_is_Some_2 _ _ Hl1) as [x Hx], (lookup_lt_is_Some_2 _ _ Hl2) as [y Hy].
  apply eqb_true. rewrite Hp1, Hp2, Hm1, Hm2.
  split; [reflexivity|]. split; [reflexivity|]. split; [intros i Hi; lia|].
  exists x, y. repeat split; try assumption.
  change (equalMask startByteMask) with 0. rewrite !Z.land_0_r. reflexivity.
Qed.

Lemma decoded_maps_compare_equal_witness :
  exists ok1 pm1' rest1 ok2 pm2' rest2,
    decode [0x81] (make 2 0) = Some (ok1, pm1', rest1) /\
    decode [0x7F; 0xFF] (make 2 0) = Some (ok2, pm2', rest2) /\
    eqb pm1' pm2' = Some true.
Proof.
  apply (decoded_maps_compare_equal [0x81] [0x7F; 0xFF] (make 2 0) (make 2 0));
    unfold byteCapacity_; simpl; lia.
Defined.

End PresenceMapLaws.

(** * Further properties of the multicast receiver *)

Module MulticastReceiverLaws.
Import MulticastReceiver MulticastReceiverFacts.

(** ** Lists of buffers *)

Lemma occurrences_app a l l' :
  occurrences a (l ++ l') = (occurrences a l + occurrences a l')%nat.
Proof. induction l as [|b l IH]; cbn; lia. Qed.

Lemma occurrences_perm a l l' : l ≡ₚ l' -> occurrences a l = occurrences a l'.
Proof. induction 1; cbn; lia. Qed.

Lemma occurrences_elem_of a l : (0 < occurrences a l)%nat <-> a ∈ address <$> l.
Proof.
  induction l as [|b l IH]; cbn.
  - rewrite elem_of_nil. lia.
  - rewrite elem_of_cons, <- IH. case_decide; [|lia]. split; [auto | lia].
Qed.

Lemma occurrences_NoDup l : (forall a, occurrences a l <= 1)%nat -> NoDup (address <$> l).
Proof.
  induction l as [|b l IH]; intros Hall; cbn; constructor.
  - rewrite <- occurrences_elem_of. specialize (Hall (address b)). cbn in Hall.
    rewrite decide_True in Hall by reflexivity. lia.
  - apply IH. intros a. specialize (Hall a). cbn in Hall. lia.
Qed.

Lemma occurrences_new a size : forall n start,
  occurrences a ((fun i => {| address := i; capacity := size; used := 0 |}) <$> seq start n)
  = if decide (start <= a < start + n)%nat then 1%nat else 0%nat.
Proof.
  induction n as [|n IH]; intros start; cbn.
  - rewrite decide_False by lia. reflexivity.
  - rewrite IH. repeat case_decide; lia.
Qed.

Lemma usedBytes_app l l' : usedBytes (l ++ l') = usedBytes l + usedBytes l'.
Proof. unfold usedBytes. induction l as [|b l IH]; cbn; lia. Qed.

Lemma usedBytes_nonneg l : Forall (fun buffer => 0 < used buffer) l -> 0 <= usedBytes l.
Proof. unfold usedBytes. induction 1; cbn; lia. Qed.

Lemma length_filter_cons (f : ServicePoint -> bool) point l :
  length (filter f (point :: l)) = ((if f point then 1 else 0) + length (filter f l))%nat.
Proof.
  destruct (f point) eqn:Hf; [rewrite filter_true | rewrite filter_false]; auto.
Qed.

Section Receiver.

Context {Consumer : Type} `{!BufferConsumer Consumer}.

Implicit Types (r : t Consumer) (s : System Consumer).

(** What [startReceive] leaves as it is. *)
Lemma buffers_startReceive r : buffers_ (startReceive r) = buffers_ r.
Proof.
  unfold startReceive, postReceive. destruct (mayReceive r); [|reflexivity].
  destruct (pop _) as [[buffer|] pool]; reflexivity.
Qed.

Lemma frame_startReceive r :
  stopping_ (startReceive r) = stopping_ r /\ queue_ (startReceive r) = queue_ r /\
  bytesReceived_ (startReceive r) = bytesReceived_ r /\
  bytesProcessed_ (startReceive r) = bytesProcessed_ r /\
  largestPacket_ (startReceive r) = largestPacket_ r /\
  consumed (trace (startReceive r)) = consumed (trace r).
Proof.
  unfold startReceive, postReceive. destruct (mayReceive r); [|repeat split].
  destruct (pop _) as [[buffer|] pool]; repeat split.
  fields. unfold consumed. rewrite omap_app. cbn. apply app_nil_r.
Qed.

(** ** [start] *)

(** X13. [start] returns exactly when the four calls on the socket
    succeed. When it throws, no buffer has been allocated and no receive
    posted; the consumer has been told that the receiver started exactly
    when open, reuse-address and bind succeeded, that is, when it is the
    join of the group that failed. *)
Theorem start_outcome calls bufferConsumer bufferSize bufferCount r :
  match start calls bufferConsumer bufferSize bufferCount r with
  | Returned _ =>
      open_ok calls && reuse_address_ok calls && bind_ok calls && join_group_ok calls = true
  | Threw r' =>
      open_ok calls && reuse_address_ok calls && bind_ok calls && join_group_ok calls = false /\
      buffers_ r' = buffers_ r /\ idleBufferPool_ r' = idleBufferPool_ r /\
      socket_ r' = socket_ r /\ readInProgress_ r' = readInProgress_ r /\
      exists events,
        trace r' = trace r ++ events /\
        (forall buffer, AsyncReceiveFrom buffer ∉ events) /\
        (ReceiverStarted ∈ events <->
         open_ok calls && reuse_address_ok calls && bind_ok calls = true) /\
        (ReceiverStarted ∉ events -> consumer_ r' = bufferConsumer)
  end.
Proof.
  unfold start.
  destruct (open_ok calls); cbn.
  2:{ repeat split. exists [SocketOpen]. repeat split; membership. }
  destruct (reuse_address_ok calls); cbn.
  2:{ repeat split. exists [SocketOpen; SocketReuseAddress]. cbn. rewrite <- app_assoc.
      repeat split; membership. }
  destruct (bind_ok calls); cbn.
  2:{ repeat split. exists [SocketOpen; SocketReuseAddress; SocketBind]. cbn.
      rewrite <- !app_assoc. repeat split; membership. }
  destruct (wantLog _ _) as [consumer' want].
  destruct (join_group_ok calls); cbn; [reflexivity|].
  destruct want; cbn; repeat split;
    eexists; (split; [rewrite <- !app_assoc; cbn; reflexivity|]); repeat split;
    try membership;
    match goal with Hnot : _ ∈ _ -> False |- _ => exfalso; apply Hnot; membership end.
Qed.

Lemma allocateBuffers_spec n : forall nBuffer r,
  let new := (fun i => {| address := i; capacity := bufferSize_ r; used := 0 |})
               <$> seq (length (buffers_ r)) n in
  allocateBuffers n nBuffer r =
    set_idleBufferPool_ (reverse new ++ idleBufferPool_ r) (set_buffers_ (buffers_ r ++ new) r).
Proof.
  induction n as [|n IH]; intros nBuffer r new.
  - subst new. cbn. rewrite app_nil_r. destruct r; reflexivity.
  - cbn [allocateBuffers]. rewrite IH. clear IH. subst new.
    cbn [buffers_ idleBufferPool_ bufferSize_ set_idleBufferPool_ set_buffers_].
    rewrite length_app. cbn [length]. rewrite Nat.add_1_r.
    cbn [seq fmap list_fmap]. rewrite reverse_cons, <- !app_assoc. reflexivity.
Qed.

(** What [start] has done when it comes to its last statement, the call
    of [startReceive]. *)
Lemma start_returned calls bufferConsumer bufferSize bufferCount r0 r :
  start calls bufferConsumer bufferSize bufferCount r0 = Returned r ->
  exists r1,
    r = startReceive r1 /\
    buffers_ r1 =
      buffers_ r0 ++ ((fun i => {| address := i; capacity := bufferSize; used := 0 |})
                        <$> seq (length (buffers_ r0)) bufferCount) /\
    idleBufferPool_ r1 =
      reverse ((fun i => {| address := i; capacity := bufferSize; used := 0 |})
                 <$> seq (length (buffers_ r0)) bufferCount) ++ idleBufferPool_ r0 /\
    socket_ r1 = socket_ r0 /\ readInProgress_ r1 = readInProgress_ r0 /\
    stopping_ r1 = stopping_ r0 /\ noBufferAvailable_ r1 = noBufferAvailable_ r0 /\
    queue_ r1 = queue_ r0 /\
    bytesReceived_ r1 = bytesReceived_ r0 /\ bytesProcessed_ r1 = bytesProcessed_ r0 /\
    largestPacket_ r1 = largestPacket_ r0 /\
    exists events,
      trace r1 = trace r0 ++ events /\ filter isReceive events = [] /\ consumed events = [] /\
      UncaughtException ∉ events.
Proof.
  unfold start.
  destruct (open_ok calls), (reuse_address_ok calls), (bind_ok calls);
    cbn [negb]; try discriminate.
  destruct (wantLog _ _) as [consumer' want].
  destruct (join_group_ok calls); cbn [negb]; [|discriminate].
  intros [= <-]. eexists. split; [reflexivity|]. rewrite allocateBuffers_spec.
  destruct want;
    cbn [buffers_ idleBufferPool_ bufferSize_ socket_ readInProgress_ stopping_
         noBufferAvailable_ queue_ bytesReceived_ bytesProcessed_ largestPacket_
         trace emit set_trace set_idleBufferPool_ set_buffers_
         set_consumer_ set_bufferSize_];
    (do 10 (split; [reflexivity|]));
    (eexists; split; [rewrite <- !app_assoc; reflexivity |]);
    (split; [reflexivity|]); (split; [reflexivity|]); membership.
Qed.

(** X14. [start] on a new receiver allocates [bufferCount] buffers of
    [bufferSize] bytes and posts one receive, on the buffer allocated last;
    the others are idle. With [bufferCount] 0 it posts none and counts one
    [noBufferAvailable]. *)
Theorem start_posts_one_receive
    calls bufferConsumer bufferSize bufferCount unset group interface port r :
  start calls bufferConsumer bufferSize bufferCount (make unset group interface port)
    = Returned r ->
  buffers_ r =
    (fun i => {| address := i; capacity := bufferSize; used := 0 |}) <$> seq 0 bufferCount /\
  stopping_ r = false /\
  match reverse (buffers_ r) with
  | [] =>
      socket_ r = [] /\ idleBufferPool_ r = [] /\ readInProgress_ r = false /\
      noBufferAvailable_ r = 1 /\ filter isReceive (trace r) = []
  | newest :: others =>
      socket_ r = [newest] /\ idleBufferPool_ r = others /\ readInProgress_ r = true /\
      noBufferAvailable_ r = 0 /\
      filter isReceive (trace r) = [AsyncReceiveFrom newest]
  end.
Proof.
  intros Hstart.
  destruct (start_returned _ _ _ _ _ _ Hstart)
    as (r1 & -> & Hbuffers & Hpool & Hsocket & Hrip & Hstop & Hnone & _ & _ & _ & _ &
        events & Htrace & Hevents & _).
  cbn [make buffers_ idleBufferPool_ socket_ readInProgress_ stopping_ noBufferAvailable_
       trace length app] in *.
  rewrite app_nil_r in Hpool.
  rewrite buffers_startReceive, Hbuffers. split; [reflexivity|].
  rewrite <- Hpool. unfold startReceive, mayReceive, postReceive.
  rewrite Hrip, Hstop. cbn [negb andb].
  destruct (idleBufferPool_ r1) as [|newest others] eqn:Hidle; cbn [pop];
    cbn [buffers_ idleBufferPool_ socket_ readInProgress_ stopping_ noBufferAvailable_
         trace emit set_trace set_socket_ set_readInProgress_ set_idleBufferPool_
         set_noBufferAvailable_];
    rewrite ?Hsocket, ?Hnone, ?Htrace, ?Hstop, ?Hidle, ?Hrip, ?filter_app, ?Hevents;
    repeat split.
Qed.

(** ** [handleReceive]: an empty datagram *)

(** X15. A receive that delivers no byte is counted as received and as
    empty; its buffer goes back to the idle pool and, unless the receiver
    is stopping, is posted again at once. The queue and the consumer are
    not touched and the thread does not service the queue. *)
Theorem empty_datagram_recycled buffer r :
  let '(r', service) := completeReceive None buffer 0 r in
  service = false /\
  packetsReceived_ r' = wrap (packetsReceived_ r + 1) /\
  emptyPackets_ r' = wrap (emptyPackets_ r + 1) /\
  packetsQueued_ r' = packetsQueued_ r /\ bytesReceived_ r' = bytesReceived_ r /\
  largestPacket_ r' = largestPacket_ r /\
  queue_ r' = queue_ r /\ consumer_ r' = consumer_ r /\
  if stopping_ r
  then idleBufferPool_ r' = buffer :: idleBufferPool_ r /\ socket_ r' = socket_ r /\
       readInProgress_ r' = false /\ trace r' = trace r
  else idleBufferPool_ r' = idleBufferPool_ r /\ socket_ r' = socket_ r ++ [buffer] /\
       readInProgress_ r' = true /\ trace r' = trace r ++ [AsyncReceiveFrom buffer].
Proof.
  destruct r as [stopping].
  unfold completeReceive, takeReceive, startReceive, mayReceive, postReceive. cbn.
  destruct stopping; cbn; repeat split.
Qed.

(** ** The consumer throws *)

(** X16. When [consumeBuffer] throws a [std::exception], the buffer's
    bytes have already been added to [bytesProcessed_]; the exception's
    message is reported by [reportDecodingError], the receiver stops if the
    answer is false, and the buffer joins the idle buffers all the same.
    When [consumeBuffer] throws anything else, no handler catches it: it
    leaves [handleReceive] at once, nothing is reported, [stop] is not
    called, and neither the buffer nor the idle buffers collected so far
    go back to the pool; the queue is left as it is, in service. *)
Theorem consumer_exception_reported buffer r idleBuffers consumer :
  (forall what consumer' continue,
     consumeBuffer (consumer_ r) buffer = (consumer, Throws what) ->
     reportDecodingError consumer what = (consumer', continue) ->
     exists r',
       consumePacket buffer r idleBuffers = (r', Some (buffer :: idleBuffers)) /\
       consumer_ r' = consumer' /\
       bytesProcessed_ r' = wrap (bytesProcessed_ r + used buffer) /\
       stopping_ r' = stopping_ r || negb continue /\
       trace r' = trace r ++ [ConsumeBuffer buffer; ReportDecodingError what] ++
                  (if continue then [] else [SocketCancel])) /\
  (consumeBuffer (consumer_ r) buffer = (consumer, ThrowsOther) ->
   exists r',
     consumePacket buffer r idleBuffers = (r', None) /\
     serviceStep (AtConsume buffer idleBuffers) r = (r', None) /\
     consumer_ r' = consumer /\
     bytesProcessed_ r' = wrap (bytesProcessed_ r + used buffer) /\
     stopping_ r' = stopping_ r /\ queue_ r' = queue_ r /\
     idleBufferPool_ r' = idleBufferPool_ r /\
     trace r' = trace r ++ [ConsumeBuffer buffer; UncaughtException]).
Proof.
  split.
  - intros what consumer' continue Hconsume Hreport. destruct r as [stopping].
    unfold consumePacket, offerBuffer, reportCaught. cbn in *.
    rewrite Hconsume. cbn. rewrite Hreport.
    destruct continue; cbn; eexists; (split; [reflexivity|]);
      cbn; rewrite <- ?app_assoc, ?orb_false_r, ?orb_true_r; repeat split.
  - intros Hconsume. destruct r as [stopping].
    unfold consumePacket, offerBuffer. cbn in *. rewrite Hconsume. cbn.
    eexists. split; [reflexivity|]. unfold offerBuffer. cbn. rewrite Hconsume. cbn.
    rewrite <- ?app_assoc. repeat split.
Qed.

(** ** [stopping_] stays set *)

Lemma stopping_take error buffer bytesReceived r r' service continue :
  takeReceive error buffer bytesReceived r = (r', service, continue) ->
  stopping_ r' = stopping_ r /\ buffers_ r' = buffers_ r /\
  bytesProcessed_ r' = bytesProcessed_ r /\
  consumed (trace r') = consumed (trace r) /\
  filter isReceive (trace r') = filter isReceive (trace r).
Proof.
  unfold takeReceive. fields. destruct error as [message|].
  - destruct (reportCommunicationError _ _) as [consumer continue'].
    intros [= <- _ _]. fields. unfold consumed. rewrite omap_app, filter_app. cbn.
    rewrite !app_nil_r. repeat split.
  - case_decide.
    + destruct (Queue.push _ _) as [[|] q]; [destruct (Queue.startService q)|];
        intros [= <- _ _]; repeat split.
    + intros [= <- _ _]. repeat split.
Qed.

Lemma stopping_step point r r' next :
  serviceStep point r = (r', next) ->
  buffers_ r' = buffers_ r /\ (stopping_ r = true -> stopping_ r' = true).
Proof.
  intros Hstep. destruct point; step_cases Hstep r; fields; split; auto; congruence.
Qed.

Lemma stopping_act action s s' :
  act action s = Some s' ->
  buffers_ (receiver s') = buffers_ (receiver s) /\
  (stopping_ (receiver s) = true -> stopping_ (receiver s') = true).
Proof.
  intros Hact. destruct action as [error bytesReceived | thread | ].
  - destruct (act_complete _ _ _ _ Hact)
      as (buffer & posted & r' & service & continue & _ & _ & Htake & ->).
    destruct (stopping_take _ _ _ _ _ _ _ Htake) as (Hs & Hb & _). fields.
    rewrite Hs, Hb. auto.
  - destruct (act_advance _ _ _ Hact) as (l1 & point & l2 & r' & next & _ & _ & Hstep & ->).
    apply (stopping_step _ _ _ _ Hstep).
  - injection Hact as <-. fields. auto.
Qed.

Lemma stopping_run actions : forall s s',
  run actions s = Some s' ->
  buffers_ (receiver s') = buffers_ (receiver s) /\
  (stopping_ (receiver s) = true -> stopping_ (receiver s') = true).
Proof.
  induction actions as [|action actions IH]; intros s s' Hrun; cbn [run] in Hrun.
  - injection Hrun as <-. auto.
  - destruct (act action s) as [s1|] eqn:Hact; [|discriminate]. cbn in Hrun.
    destruct (stopping_act _ _ _ Hact) as (Hb & Hs).
    destruct (IH _ _ Hrun) as (Hb' & Hs'). split; [congruence | auto].
Qed.

(** The receiver is not stopping after a run: it was not before. *)
Lemma running_run actions s s' :
  run actions s = Some s' -> stopping_ (receiver s') = false -> stopping_ (receiver s) = false.
Proof.
  intros Hrun Hstop. destruct (stopping_run _ _ _ Hrun) as [_ Hs].
  destruct (stopping_ (receiver s)); [|reflexivity]. rewrite Hs in Hstop by reflexivity.
  discriminate.
Qed.

(** ** No buffer is in two places *)

Ltac count_buffers :=
  unfold resident in *; fields; cbn [Queue.incoming Queue.outgoing Queue.busy] in *;
  rewrite ?occurrences_app in *;
  cbn [occurrences address setUsed push pushAll holds option_list option_rect afterLock] in *;
  rewrite ?occurrences_app in *.

Lemma resident_take a error buffer bytesReceived r r' service continue :
  takeReceive error buffer bytesReceived r = (r', service, continue) ->
  occurrences a (resident r') = (occurrences a [buffer] + occurrences a (resident r))%nat.
Proof.
  unfold takeReceive. fields. destruct error as [message|].
  - destruct (reportCommunicationError _ _) as [consumer continue'].
    intros [= <- _ _]. count_buffers. lia.
  - case_decide.
    + unfold Queue.push, Queue.startService. fields.
      destruct (Queue.busy (queue_ r)) eqn:Hbusy;
        cbn [negb Queue.busy Queue.incoming Queue.outgoing]; rewrite ?Hbusy;
        intros [= <- _ _]; count_buffers; lia.
    + intros [= <- _ _]. count_buffers. lia.
Qed.

Lemma resident_step a point r r' next :
  serviceStep point r = (r', next) ->
  (occurrences a (resident r') + occurrences a (concat (holds <$> option_list next))
   <= occurrences a (resident r) + occurrences a (holds point))%nat /\
  (stopping_ r = false -> ~ escaped r' ->
   (occurrences a (resident r') + occurrences a (concat (holds <$> option_list next))
    = occurrences a (resident r) + occurrences a (holds point))%nat).
Proof.
  intros Hstep.
  destruct point as [[|] continue | [|] | | idle | buffer idle | buffer idle | buffer idle
                    | what buffer idle | buffer idle | idle | | ];
    step_cases Hstep r; cbn [afterLock option_list option_rect fmap list_fmap concat];
    count_buffers; rewrite ?Hout, ?Hpool, ?app_nil_r; cbn [occurrences];
    rewrite ?occurrences_app; (split; [lia|]); intros Hrun Hnot; try lia; try congruence.
  all: try (exfalso; apply Hnot; escapes; fail).
Qed.

Lemma whereabouts_act a action s s' :
  act action s = Some s' ->
  (occurrences a (whereabouts s') <= occurrences a (whereabouts s))%nat /\
  (stopping_ (receiver s) = false -> ~ escaped (receiver s') ->
   occurrences a (whereabouts s') = occurrences a (whereabouts s)).
Proof.
  intros Hact. destruct action as [error bytesReceived | thread | ].
  - destruct (act_complete _ _ _ _ Hact)
      as (buffer & posted & r' & service & continue & _ & Hsocket & Htake & ->).
    pose proof (resident_take a _ _ _ _ _ _ _ Htake) as Hocc.
    unfold whereabouts. fields. threads. rewrite app_nil_r, !occurrences_app, Hocc.
    unfold resident. fields. rewrite Hsocket, !occurrences_app. cbn [occurrences].
    rewrite ?occurrences_app. split; [lia|]. intros _ _. lia.
  - destruct (act_advance _ _ _ Hact) as (l1 & point & l2 & r' & next & Hl & _ & Hstep & ->).
    destruct (resident_step a _ _ _ _ Hstep) as (Hle & Heq).
    unfold whereabouts. fields. rewrite Hl. threads. rewrite !occurrences_app.
    split; [lia|]. intros Hstop Hnot. specialize (Heq Hstop Hnot). lia.
  - injection Hact as <-. unfold whereabouts, resident. fields. auto.
Qed.

Lemma whereabouts_run a actions : forall s s',
  run actions s = Some s' ->
  (occurrences a (whereabouts s') <= occurrences a (whereabouts s))%nat /\
  (stopping_ (receiver s') = false -> ~ escaped (receiver s') ->
   occurrences a (whereabouts s') = occurrences a (whereabouts s)).
Proof.
  induction actions as [|action actions IH]; intros s s' Hrun; cbn [run] in Hrun.
  - injection Hrun as <-. auto.
  - destruct (act action s) as [s1|] eqn:Hact; [|discriminate]. cbn in Hrun.
    destruct (whereabouts_act a _ _ _ Hact) as (Hle & Heq).
    destruct (IH _ _ Hrun) as (Hle' & Heq').
    split; [lia|]. intros Hstop Hnot. rewrite (Heq' Hstop Hnot). apply Heq.
    + eapply (running_run [action]); [|eapply running_run; eassumption].
      cbn [run]. rewrite Hact. reflexivity.
    + intros He. apply Hnot. eapply escaped_run; eassumption.
Qed.

(** X18. A buffer is never in two places: in every state reached from
    [start], the buffers in the idle pool, posted, queued and in the hands
    of the threads have distinct addresses, all of them allocated by
    [start]. Unless the receiver is stopping or an exception has left
    [handleReceive], they are all the buffers that [start] allocated; a
    buffer is lost only when it is skipped while stopping, or when an
    exception that is not a [std::exception] leaves [handleReceive] with
    it. *)
Theorem buffers_in_one_place
    calls bufferConsumer bufferSize bufferCount unset group interface port r actions s :
  start calls bufferConsumer bufferSize bufferCount (make unset group interface port)
    = Returned r ->
  run actions {| receiver := r; servicers := [] |} = Some s ->
  NoDup (address <$> whereabouts s) /\
  (forall buffer, buffer ∈ whereabouts s -> (address buffer < bufferCount)%nat) /\
  (stopping_ (receiver s) = false -> ~ escaped (receiver s) ->
   address <$> whereabouts s ≡ₚ seq 0 bufferCount).
Proof.
  intros Hstart Hrun.
  assert (Hfirst : forall a,
    occurrences a (whereabouts {| receiver := r; servicers := [] |})
    = if decide (a < bufferCount)%nat then 1%nat else 0%nat).
  { intros a.
    destruct (start_returned _ _ _ _ _ _ Hstart)
      as (r1 & -> & Hbuffers & Hpool & Hsocket & Hrip & Hstop & _ & Hq & _).
    unfold whereabouts. fields. cbn [fmap list_fmap concat]. rewrite app_nil_r.
    assert (Hsame : occurrences a (resident (startReceive r1)) = occurrences a (resident r1)).
    { unfold startReceive, postReceive. destruct (mayReceive r1); [|reflexivity].
      destruct (idleBufferPool_ r1) as [|buffer pool] eqn:Hidle; cbn [pop]; [reflexivity|].
      unfold resident. fields. rewrite Hidle, !occurrences_app. cbn [occurrences].
      rewrite ?occurrences_app. cbn [occurrences]. lia. }
    rewrite Hsame. unfold resident. rewrite Hpool, Hsocket, Hq.
    cbn [make idleBufferPool_ socket_ queue_ buffers_ length Queue.empty Queue.incoming
         Queue.outgoing app occurrences].
    rewrite !app_nil_r, (occurrences_perm _ _ _ (reverse_Permutation _)), occurrences_new.
    repeat case_decide; lia. }
  assert (Hcount : forall a,
    (occurrences a (whereabouts s) <= if decide (a < bufferCount)%nat then 1 else 0)%nat /\
    (stopping_ (receiver s) = false -> ~ escaped (receiver s) ->
     occurrences a (whereabouts s) = if decide (a < bufferCount)%nat then 1%nat else 0%nat)).
  { intros a. destruct (whereabouts_run a _ _ _ Hrun) as (Hle & Heq).
    rewrite Hfirst in Hle, Heq. auto. }
  split; [|split].
  - apply occurrences_NoDup. intros a. destruct (Hcount a) as [Hle _]. case_decide; lia.
  - intros buffer Hin. destruct (Hcount (address buffer)) as [Hle _].
    assert (Hpos : (0 < occurrences (address buffer) (whereabouts s))%nat).
    { apply occurrences_elem_of, list_elem_of_fmap. eauto. }
    case_decide; lia.
  - intros Hstop Hnot. apply NoDup_Permutation.
    + apply occurrences_NoDup. intros a. destruct (Hcount a) as [Hle _]. case_decide; lia.
    + apply NoDup_seq.
    + intros a. rewrite <- occurrences_elem_of, elem_of_seq.
      destruct (Hcount a) as [_ Heq]. rewrite (Heq Hstop Hnot). case_decide; lia.
Qed.

(** ** At most one receive is outstanding *)

Lemma aboutToPost_holdsLock point : aboutToPost point = true -> holdsLock point = true.
Proof. destruct point; cbn; congruence. Qed.

Lemma lock_others (l1 l2 : list ServicePoint) point :
  (length (filter holdsLock (l1 ++ point :: l2)) <= 1)%nat -> holdsLock point = true ->
  filter holdsLock l1 = [] /\ filter holdsLock l2 = [].
Proof.
  intros Hlock Hp. rewrite filter_app, length_app, length_filter_cons, Hp in Hlock.
  destruct (filter holdsLock l1), (filter holdsLock l2); cbn [length] in Hlock; try lia.
  auto.
Qed.

Lemma lock_none (l1 l2 : list ServicePoint) point :
  filter holdsLock (l1 ++ point :: l2) = [] ->
  filter holdsLock l1 = [] /\ filter holdsLock l2 = [].
Proof.
  rewrite !filter_nil_forall, Forall_app, Forall_cons. tauto.
Qed.

Lemma free_all (l : list ServicePoint) (P : Prop) :
  filter holdsLock l = [] -> Forall (fun point => aboutToPost point -> P) l.
Proof.
  intros Hnone. apply filter_nil_forall in Hnone.
  eapply Forall_impl; [exact Hnone|]. intros point Hpoint Hpost.
  apply Is_true_true, aboutToPost_holdsLock in Hpost. congruence.
Qed.

Lemma posted_take error buffer bytesReceived r r' service continue :
  takeReceive error buffer bytesReceived r = (r', service, continue) ->
  readInProgress_ r' = false /\ socket_ r' = socket_ r.
Proof.
  unfold takeReceive. fields. destruct error as [message|].
  - destruct (reportCommunicationError _ _) as [consumer continue'].
    intros [= <- _ _]. split; reflexivity.
  - case_decide.
    + destruct (Queue.push _ _) as [[|] q]; [destruct (Queue.startService q)|];
        intros [= <- _ _]; split; reflexivity.
    + intros [= <- _ _]. split; reflexivity.
Qed.

Lemma oneReceive_step r l1 point l2 r' next :
  oneReceive {| receiver := r; servicers := l1 ++ point :: l2 |} ->
  (takesLock point = true -> filter holdsLock (l1 ++ point :: l2) = []) ->
  serviceStep point r = (r', next) ->
  oneReceive {| receiver := r'; servicers := l1 ++ option_list next ++ l2 |}.
Proof.
  intros [Hposted Hlock Hfree] Htakes Hstep. fields.
  pose proof (lock_others _ _ _ Hlock) as Hothers.
  pose proof (fun H => lock_none _ _ _ (Htakes H)) as Hnone.
  rewrite filter_app, length_app, length_filter_cons in Hlock.
  apply Forall_app in Hfree as [F1 F2]. apply Forall_cons in F2 as [Fp F2].
  unfold posted in Hposted.
  destruct point as [[|] continue | [|] | | idle | buffer idle | buffer idle | buffer idle
                    | what buffer idle | buffer idle | idle | | ];
    cbn [holdsLock takesLock aboutToPost] in *;
    try (destruct (Hothers eq_refl) as [Hl1 Hl2]);
    try (destruct (Hnone eq_refl) as [Hl1 Hl2]);
    try (pose proof (Fp I) as Hrip);
    step_cases Hstep r; cbn [afterLock option_list option_rect].
  all: split; unfold posted; fields;
    rewrite ?filter_app, ?length_app, ?length_filter_cons, ?Forall_app, ?Forall_cons;
    cbn [holdsLock aboutToPost app length filter]; rewrite ?Hl1, ?Hl2; cbn [length].
  all: try lia.
  all: try exact Hposted.
  all: try (repeat split; auto; fail).
  all: try (apply mayReceive_true in Hmay as [Hmay _]; fields).
  all: try rewrite Hrip in Hposted.
  all: repeat split; auto using free_all; try lia; try constructor.
  all: intros [].
Qed.

Lemma oneReceive_act action s s' :
  oneReceive s -> act action s = Some s' -> oneReceive s'.
Proof.
  intros Hone Hact. destruct action as [error bytesReceived | thread | ].
  - destruct (act_complete _ _ _ _ Hact)
      as (buffer & rest & r' & service & continue & Hfree & Hsocket & Htake & ->).
    destruct (posted_take _ _ _ _ _ _ _ Htake) as (Hrip & Hs). fields.
    destruct Hone as [Hposted Hlock Hfrees]. unfold posted in Hposted.
    rewrite Hsocket in Hposted.
    split; unfold posted; fields; rewrite ?Hrip, ?Hs; fields.
    + destruct (readInProgress_ (receiver s)), rest; cbn in *; congruence.
    + rewrite filter_app, length_app, Hfree, length_filter_cons. cbn. lia.
    + apply Forall_app. split; [apply free_all, Hfree|].
      constructor; [intros [] | constructor].
  - destruct (act_advance _ _ _ Hact) as (l1 & point & l2 & r' & next & Hl & Htakes & Hstep & ->).
    destruct s as [r threads]. fields. subst threads.
    eapply oneReceive_step; eassumption.
  - injection Hact as <-. destruct Hone as [Hposted Hlock Hfrees].
    split; unfold posted; fields; assumption.
Qed.

Lemma oneReceive_run actions : forall s s',
  oneReceive s -> run actions s = Some s' -> oneReceive s'.
Proof.
  induction actions as [|action actions IH]; intros s s' Hone Hrun; cbn [run] in Hrun.
  - injection Hrun as <-. exact Hone.
  - destruct (act action s) as [s1|] eqn:Hact; [|discriminate]. cbn in Hrun.
    eapply IH; [|exact Hrun]. eapply oneReceive_act; eassumption.
Qed.

Lemma oneReceive_started calls bufferConsumer bufferSize bufferCount unset group interface port r :
  start calls bufferConsumer bufferSize bufferCount (make unset group interface port)
    = Returned r ->
  oneReceive {| receiver := r; servicers := [] |}.
Proof.
  intros Hstart.
  destruct (start_returned _ _ _ _ _ _ Hstart) as (r1 & -> & _ & _ & Hsocket & Hrip & _).
  cbn [make socket_ readInProgress_] in Hsocket, Hrip.
  split; fields; [|cbn; lia|constructor].
  unfold posted, startReceive, postReceive, mayReceive. rewrite Hrip. cbn [negb andb].
  destruct (stopping_ r1); cbn [negb]; [rewrite Hsocket, Hrip; reflexivity|].
  destruct (pop _) as [[buffer|] pool]; fields; rewrite ?length_app, ?Hsocket, ?Hrip;
    reflexivity.
Qed.

(** X17. However receives complete, threads go through [handleReceive]
    and [stop] is called, at most one receive is posted at any time, and
    [readInProgress_] is true exactly when one is. *)
Theorem one_receive_at_a_time
    calls bufferConsumer bufferSize bufferCount unset group interface port r actions s :
  start calls bufferConsumer bufferSize bufferCount (make unset group interface port)
    = Returned r ->
  run actions {| receiver := r; servicers := [] |} = Some s ->
  (length (socket_ (receiver s)) <= 1)%nat /\
  (readInProgress_ (receiver s) = true <-> socket_ (receiver s) <> []).
Proof.
  intros Hstart Hrun.
  pose proof (oneReceive_run _ _ _ (oneReceive_started _ _ _ _ _ _ _ _ _ Hstart) Hrun)
    as [Hposted _ _].
  unfold posted in Hposted.
  destruct (readInProgress_ (receiver s)), (socket_ (receiver s)); cbn in Hposted;
    try discriminate; (split; [cbn; lia|]); split; congruence.
Qed.

(** ** The largest packet *)

Lemma largestPacket_act action s s' :
  act action s = Some s' ->
  largestPacket_ (receiver s') =
  match datagramSize action with
  | Some size => Z.max (largestPacket_ (receiver s)) size
  | None => largestPacket_ (receiver s)
  end.
Proof.
  intros Hact. destruct action as [error bytesReceived | thread | ]; cbn [datagramSize].
  - destruct (act_complete _ _ _ _ Hact)
      as (buffer & posted & r' & service & continue & _ & _ & Htake & ->).
    unfold takeReceive in Htake. fields. destruct error as [message|].
    + destruct (reportCommunicationError _ _) as [consumer continue'].
      injection Htake as <- _ _. reflexivity.
    + case_decide.
      * destruct (Queue.push _ _) as [[|] q]; [destruct (Queue.startService q)|];
          injection Htake as <- _ _; reflexivity.
      * injection Htake as <- _ _. reflexivity.
  - destruct (act_advance _ _ _ Hact) as (l1 & point & l2 & r' & next & _ & _ & Hstep & ->).
    fields. remember (receiver s) as r eqn:Hr. clear Hr Hact.
    destruct point; step_cases Hstep r; reflexivity.
  - injection Hact as <-. reflexivity.
Qed.

(** X19. [largestPacket_] is the largest size among the datagrams that
    were received without error, and its value before them. *)
Theorem largestPacket_is_maximum actions : forall s s',
  run actions s = Some s' ->
  largestPacket_ (receiver s') = foldl Z.max (largestPacket_ (receiver s)) (datagramSizes actions).
Proof.
  induction actions as [|action actions IH]; intros s s' Hrun; cbn [run] in Hrun.
  - injection Hrun as <-. reflexivity.
  - destruct (act action s) as [s1|] eqn:Hact; [|discriminate]. cbn in Hrun.
    rewrite (IH _ _ Hrun), (largestPacket_act _ _ _ Hact).
    unfold datagramSizes. cbn [omap list_omap]. destruct (datagramSize action); reflexivity.
Qed.

(** ** After [stop] *)

Lemma consumed_app events events' :
  consumed (events ++ events') = consumed events ++ consumed events'.
Proof. apply omap_app. Qed.

Lemma stopped_take error buffer bytesReceived r r' service continue :
  takeReceive error buffer bytesReceived r = (r', service, continue) ->
  exists events,
    trace r' = trace r ++ events /\ filter isReceive events = [] /\ consumed events = [].
Proof.
  unfold takeReceive. fields. destruct error as [message|].
  - destruct (reportCommunicationError _ _) as [consumer continue'].
    intros [= <- _ _]. fields. eexists. split; [reflexivity|]. split; reflexivity.
  - case_decide.
    + destruct (Queue.push _ _) as [[|] q]; [destruct (Queue.startService q)|];
        intros [= <- _ _]; exists []; fields; rewrite app_nil_r; repeat split.
    + intros [= <- _ _]. exists []. fields. rewrite app_nil_r. repeat split.
Qed.

Lemma stopped_step point r r' next :
  stopping_ r = true ->
  serviceStep point r = (r', next) ->
  exists events,
    trace r' = trace r ++ events /\
    (length (filter isReceive events) + length (filter aboutToPost (option_list next))
     <= length (filter aboutToPost [point]))%nat /\
    (length (consumed events) + length (concat (aboutToConsume <$> option_list next))
     <= length (aboutToConsume point))%nat.
Proof.
  intros Hstopping Hstep.
  destruct point as [[|] continue | [|] | | idle | buffer idle | buffer idle | buffer idle
                    | what buffer idle | buffer idle | idle | | ];
    step_cases Hstep r; fields;
    try (unfold mayReceive in Hmay; fields; cbn [negb] in Hmay;
         rewrite ?Hstopping, andb_false_r in Hmay; discriminate);
    try congruence.
  all: first [ eexists; split; [rewrite <- ?app_assoc; reflexivity|]
             | exists []; split; [rewrite app_nil_r; reflexivity|] ].
  all: cbn; repeat case_decide; try tauto; cbn [length]; lia.
Qed.

Lemma stopped_act action s s' :
  stopping_ (receiver s) = true ->
  act action s = Some s' ->
  exists events,
    trace (receiver s') = trace (receiver s) ++ events /\
    (length (filter isReceive events) + length (filter aboutToPost (servicers s'))
     <= length (filter aboutToPost (servicers s)))%nat /\
    (length (consumed events) + length (concat (aboutToConsume <$> servicers s'))
     <= length (concat (aboutToConsume <$> servicers s)))%nat.
Proof.
  intros Hstop Hact. destruct action as [error bytesReceived | thread | ].
  - destruct (act_complete _ _ _ _ Hact)
      as (buffer & rest & r' & service & continue & _ & _ & Htake & ->).
    destruct (stopped_take _ _ _ _ _ _ _ Htake) as (events & Htrace & Hreceive & Hconsumed).
    exists events. fields. split; [exact Htrace|]. rewrite Hreceive, Hconsumed. threads.
    rewrite length_filter_cons. cbn. lia.
  - destruct (act_advance _ _ _ Hact) as (l1 & point & l2 & r' & next & Hl & _ & Hstep & ->).
    destruct (stopped_step _ _ _ _ Hstop Hstep) as (events & Htrace & Hpost & Hconsume).
    exists events. fields. split; [exact Htrace|]. rewrite Hl. threads.
    rewrite length_filter_cons in *. cbn [filter list_filter length] in Hpost. lia.
  - injection Hact as <-. fields. exists [SocketCancel]. split; [reflexivity|].
    cbn. repeat case_decide; try tauto; cbn [length]; lia.
Qed.

(** X20. Once [stopping_] is set it stays set. [stop] takes no lock, so a
    thread that is inside [startReceive] and has passed the test of
    [stopping_] when it is set still posts its receive, and a thread in the
    service loop that has passed the test of [if(!stopping_)] still hands
    its buffer to the consumer: afterwards one receive at most is posted
    for each thread that was about to post, and the consumer is handed one
    buffer at most for each thread that was about to hand one over; nothing
    else is posted or handed over. *)
Theorem after_stop actions : forall s s',
  stopping_ (receiver s) = true ->
  run actions s = Some s' ->
  stopping_ (receiver s') = true /\
  exists events,
    trace (receiver s') = trace (receiver s) ++ events /\
    (length (filter isReceive events) <= length (filter aboutToPost (servicers s)))%nat /\
    (length (consumed events) <= length (concat (aboutToConsume <$> servicers s)))%nat.
Proof.
  assert (Hgen : forall s s',
    stopping_ (receiver s) = true -> run actions s = Some s' ->
    exists events,
      trace (receiver s') = trace (receiver s) ++ events /\
      (length (filter isReceive events) + length (filter aboutToPost (servicers s'))
       <= length (filter aboutToPost (servicers s)))%nat /\
      (length (consumed events) + length (concat (aboutToConsume <$> servicers s'))
       <= length (concat (aboutToConsume <$> servicers s)))%nat).
  { induction actions as [|action actions IH]; intros s s' Hstop Hrun; cbn [run] in Hrun.
    - injection Hrun as <-. exists []. rewrite app_nil_r. cbn. repeat split; lia.
    - destruct (act action s) as [s1|] eqn:Hact; [|discriminate]. cbn in Hrun.
      destruct (stopped_act _ _ _ Hstop Hact) as (events1 & Htrace1 & Hr1 & Hc1).
      destruct (stopping_act _ _ _ Hact) as [_ Hstop1]. specialize (Hstop1 Hstop).
      destruct (IH _ _ Hstop1 Hrun) as (events & Htrace & Hr & Hc).
      exists (events1 ++ events).
      rewrite Htrace, Htrace1, <- app_assoc, filter_app, consumed_app, !length_app.
      repeat split; lia. }
  intros s s' Hstop Hrun.
  destruct (stopping_run _ _ _ Hrun) as [_ Hstop']. specialize (Hstop' Hstop).
  destruct (Hgen s s' Hstop Hrun) as (events & Htrace & Hreceive & Hcount).
  split; [exact Hstop'|]. exists events. repeat split; try assumption; lia.
Qed.

(** ** The account of the bytes *)

Lemma usedBytes_cons buffer l : usedBytes (buffer :: l) = used buffer + usedBytes l.
Proof. reflexivity. Qed.

Lemma sizes_nonneg actions : 0 <= foldr Z.add 0 (datagramSizes actions).
Proof.
  unfold datagramSizes. induction actions as [|action actions IH]; cbn; [lia|].
  destruct action as [[message|] bytesReceived | thread | ]; cbn; try exact IH.
  case_decide; cbn; lia.
Qed.

(** The buffers that wait, thread by thread and in the queue. *)
Ltac account :=
  unfold awaiting in *; fields; threads;
  cbn [Queue.incoming Queue.outgoing Queue.busy afterLock] in *;
  rewrite ?app_nil_r, ?usedBytes_app, ?usedBytes_cons, ?Forall_app, ?Forall_cons in *;
  cbn [usedBytes fmap list_fmap foldr] in *.

Ltac settle := intuition (auto using Forall_nil; try lia; try congruence).

Lemma balanced_take error buffer bytesReceived r posted r' service continue threads :
  balanced {| receiver := r; servicers := threads |} ->
  takeReceive error buffer bytesReceived (set_socket_ posted r) = (r', service, continue) ->
  bytesReceived_ r + default 0 (datagramSize (Complete error bytesReceived)) < size_t_max ->
  balanced {| receiver := r'; servicers := threads ++ [AtReceived service continue] |} /\
  bytesReceived_ r' =
    bytesReceived_ r + default 0 (datagramSize (Complete error bytesReceived)).
Proof.
  intros [H1 H2 H3 H4] Htake Hmax. unfold takeReceive in Htake. cbn [datagramSize] in *.
  pose proof (usedBytes_nonneg _ H2) as Hnn.
  destruct error as [message|]; fields.
  - destruct (reportCommunicationError _ _) as [consumer continue'].
    injection Htake as <- <- <-. cbn [default from_option id] in *.
    split; [split|]; account; settle.
  - case_decide as Hpos; cbn [default from_option id] in *; unfold id in *.
    + assert (Hwrap : wrap (bytesReceived_ r + bytesReceived) = bytesReceived_ r + bytesReceived).
      { apply wrap_small. account. lia. }
      unfold Queue.push, Queue.startService in Htake. fields.
      destruct (Queue.busy (queue_ r)) eqn:Hbusy;
        cbn [negb Queue.busy Queue.incoming Queue.outgoing] in Htake; rewrite ?Hbusy in Htake;
        injection Htake as <- <- <-; (split; [split|]); account; rewrite ?Hwrap;
        cbn [used setUsed]; settle.
    + injection Htake as <- <- <-. split; [split|]; account; settle.
Qed.

Lemma balanced_step r l1 point l2 r' next :
  balanced {| receiver := r; servicers := l1 ++ point :: l2 |} ->
  serviceStep point r = (r', next) ->
  bytesReceived_ r < size_t_max ->
  balanced {| receiver := r'; servicers := l1 ++ option_list next ++ l2 |} /\
  bytesReceived_ r' = bytesReceived_ r.
Proof.
  intros [H1 H2 H3 H4] Hstep Hmax.
  pose proof (usedBytes_nonneg _ H2) as Hnn.
  destruct point as [[|] continue | [|] | | idle | buffer idle | buffer idle | buffer idle
                    | what buffer idle | buffer idle | idle | | ];
    step_cases Hstep r.
  all: split; [split|]; account; rewrite ?Hout in *; account.
  all: try solve [settle].
  all: destruct H2 as ((F1 & (Fb & _) & F2) & Fo & Fi);
    pose proof (usedBytes_nonneg _ F1); pose proof (usedBytes_nonneg _ F2);
    pose proof (usedBytes_nonneg _ Fo); pose proof (usedBytes_nonneg _ Fi);
    rewrite wrap_small by lia; settle.
Qed.

Lemma balanced_act action s s' :
  balanced s -> act action s = Some s' ->
  bytesReceived_ (receiver s) + default 0 (datagramSize action) < size_t_max ->
  balanced s' /\
  bytesReceived_ (receiver s') = bytesReceived_ (receiver s) + default 0 (datagramSize action).
Proof.
  intros Hbal Hact Hmax. destruct s as [r threads]. fields.
  destruct action as [error bytesReceived | thread | ].
  - destruct (act_complete _ _ _ _ Hact)
      as (buffer & posted & r' & service & continue & _ & _ & Htake & ->). fields.
    eapply balanced_take; eassumption.
  - destruct (act_advance _ _ _ Hact) as (l1 & point & l2 & r' & next & Hl & _ & Hstep & ->).
    fields. subst threads. cbn [datagramSize default from_option] in *.
    rewrite Z.add_0_r in *. eapply balanced_step; eassumption.
  - injection Hact as <-. fields. cbn [datagramSize default from_option].
    rewrite Z.add_0_r. split; [|reflexivity].
    destruct Hbal as [H1 H2 H3 H4]. split; account; settle.
Qed.

Lemma balanced_run actions : forall s s',
  balanced s -> run actions s = Some s' ->
  bytesReceived_ (receiver s) + foldr Z.add 0 (datagramSizes actions) < size_t_max ->
  balanced s' /\
  bytesReceived_ (receiver s') =
    bytesReceived_ (receiver s) + foldr Z.add 0 (datagramSizes actions).
Proof.
  induction actions as [|action actions IH]; intros s s' Hbal Hrun Hmax; cbn [run] in Hrun.
  - injection Hrun as <-. cbn. rewrite Z.add_0_r. auto.
  - destruct (act action s) as [s1|] eqn:Hact; [|discriminate]. cbn in Hrun.
    pose proof (sizes_nonneg actions) as Hnn.
    assert (Hsizes : foldr Z.add 0 (datagramSizes (action :: actions))
                     = default 0 (datagramSize action) + foldr Z.add 0 (datagramSizes actions)).
    { unfold datagramSizes. cbn [omap list_omap]. destruct (datagramSize action); reflexivity. }
    rewrite Hsizes in *.
    destruct (balanced_act _ _ _ Hbal Hact) as (Hbal1 & Hr1); [lia|].
    destruct (IH _ _ Hbal1 Hrun) as (Hbal' & Hr'); [lia|].
    split; [exact Hbal'|]. lia.
Qed.

(** X21. From [start], as long as the bytes received fit a [size_t]:
    [bytesReceived_] is the sum of the sizes of the datagrams received
    without error; [bytesProcessed_] never exceeds it; unless the receiver
    is stopping, the difference is the bytes of the datagrams that wait in
    the queue or in the hands of a thread, so [bytesReadable] is what the
    socket reports plus that. The two counters are equal when no thread is
    inside [handleReceive], provided that the actions are fewer than
    [size_t_max], that the receiver is not stopping, and that no exception
    other than a [std::exception] has left [handleReceive]. *)
Theorem bytes_conserved
    calls bufferConsumer bufferSize bufferCount unset group interface port r actions s :
  start calls bufferConsumer bufferSize bufferCount (make unset group interface port)
    = Returned r ->
  run actions {| receiver := r; servicers := [] |} = Some s ->
  foldr Z.add 0 (datagramSizes actions) < size_t_max ->
  bytesReceived_ (receiver s) = foldr Z.add 0 (datagramSizes actions) /\
  0 <= bytesProcessed_ (receiver s) <= bytesReceived_ (receiver s) /\
  (stopping_ (receiver s) = false ->
   bytesReceived_ (receiver s) - bytesProcessed_ (receiver s) = usedBytes (awaiting s)) /\
  (forall socketReadable,
     0 <= socketReadable -> socketReadable + bytesReceived_ (receiver s) < size_t_max ->
     bytesReadable socketReadable (receiver s) =
       socketReadable + (bytesReceived_ (receiver s) - bytesProcessed_ (receiver s))) /\
  (Z.of_nat (length actions) < size_t_max -> quiescent s ->
   stopping_ (receiver s) = false -> ~ escaped (receiver s) ->
   bytesProcessed_ (receiver s) = bytesReceived_ (receiver s)).
Proof.
  intros Hstart Hrun Hmax.
  destruct (start_returned _ _ _ _ _ _ Hstart)
    as (r1 & Hr & _ & _ & _ & _ & _ & _ & Hq & Hrecv & Hproc & _).
  destruct (core_eq _ _ (core_startReceive r1)) as (_ & Hq1 & _).
  assert (Hsame : bytesReceived_ (startReceive r1) = bytesReceived_ r1 /\
                  bytesProcessed_ (startReceive r1) = bytesProcessed_ r1).
  { unfold startReceive, postReceive. destruct (mayReceive r1); [|auto].
    destruct (pop _) as [[buffer|] pool]; auto. }
  destruct Hsame as [Hrecv1 Hproc1].
  assert (Hfirst : balanced {| receiver := r; servicers := [] |} /\ bytesReceived_ r = 0).
  { subst r. rewrite Hrecv1, Hrecv. split; [|reflexivity].
    split; unfold awaiting; fields; rewrite ?Hq1, ?Hq, ?Hproc1, ?Hproc, ?Hrecv1, ?Hrecv;
      cbn; auto; lia. }
  destruct Hfirst as [Hbal Hzero].
  destruct (balanced_run _ _ _ Hbal Hrun) as ([H1 H2 H3 H4] & Htotal);
    [fields; rewrite Hzero; lia|].
  fields. rewrite Hzero in Htotal. cbn in Htotal.
  pose proof (usedBytes_nonneg _ H2) as Hnn.
  split; [exact Htotal|]. split; [lia|]. split; [intros Hstop; specialize (H4 Hstop); lia|].
  split.
  - intros socketReadable Hpos Hfits. unfold bytesReadable.
    rewrite (wrap_small (socketReadable + _)) by lia. rewrite wrap_small by lia. lia.
  - intros Hlen Hquiet Hstop Hnot.
    pose proof (invariant_run actions 0 _ s (invariant_started _ _ _ _ _ _ _ _ _ Hstart)
                  ltac:(lia) ltac:(lia) Hrun) as [_ _ _ Hgate].
    unfold quiescent in Hquiet. rewrite Hquiet in Hgate.
    destruct (gate_quiescent _ Hgate Hstop Hnot) as [Hout Hinc]. specialize (H4 Hstop).
    unfold awaiting in H4. rewrite Hquiet, Hout, Hinc in H4. cbn in H4. lia.
Qed.

(** ** The order in which the consumer is handed the datagrams *)

Lemma idle_hands (l : list ServicePoint) :
  filter servicing l = [] ->
  concat (inHand <$> l) = [] /\ concat (aboutToConsume <$> l) = [].
Proof.
  intros Hnone. apply filter_nil_forall in Hnone.
  induction Hnone as [|point l Hpoint _ [IH1 IH2]]; [auto|].
  cbn [fmap list_fmap concat]. rewrite IH1, IH2.
  destruct point as [[|] continue | [|] | | | | | | | | | | ];
    cbn in Hpoint; try discriminate; auto.
Qed.

(** The buffers handed over and those that wait, thread by thread and in
    the queue. *)
Ltac order :=
  unfold awaiting in *; fields; threads;
  cbn [Queue.incoming Queue.outgoing Queue.busy afterLock] in *;
  rewrite ?consumed_app in *; cbn [consumed omap list_omap] in *;
  rewrite ?fmap_app, ?app_nil_r in *; cbn [fmap list_fmap app used setUsed] in *.

Lemma inOrder_take sizes error buffer bytesReceived r posted r' service continue threads :
  inOrder sizes {| receiver := r; servicers := threads |} ->
  takeReceive error buffer bytesReceived (set_socket_ posted r) = (r', service, continue) ->
  inOrder (sizes ++ datagramSizes [Complete error bytesReceived])
    {| receiver := r'; servicers := threads ++ [AtReceived service continue] |}.
Proof.
  intros [H1 H2] Htake. unfold takeReceive in Htake. unfold datagramSizes.
  cbn [omap list_omap datagramSize].
  destruct error as [message|]; fields.
  - destruct (reportCommunicationError _ _) as [consumer continue'].
    injection Htake as <- <- <-. split; order; auto.
  - case_decide as Hpos.
    + unfold Queue.push, Queue.startService in Htake. fields.
      destruct (Queue.busy (queue_ r)) eqn:Hbusy;
        cbn [negb Queue.busy Queue.incoming Queue.outgoing] in Htake; rewrite ?Hbusy in Htake;
        injection Htake as <- <- <-;
        (split; order;
         [apply prefix_app_r; exact H1
         |intros Hstop; rewrite <- (H2 Hstop), <- ?app_assoc; reflexivity]).
    + injection Htake as <- <- <-. split; order; auto.
Qed.

Lemma inOrder_step sizes r l1 point l2 r' next :
  gate r (l1 ++ point :: l2) ->
  inOrder sizes {| receiver := r; servicers := l1 ++ point :: l2 |} ->
  serviceStep point r = (r', next) ->
  inOrder sizes {| receiver := r'; servicers := l1 ++ option_list next ++ l2 |}.
Proof.
  intros Hgate [H1 H2] Hstep.
  assert (Hothers : servicing point = true ->
    (concat (inHand <$> l1) = [] /\ concat (aboutToConsume <$> l1) = []) /\
    (concat (inHand <$> l2) = [] /\ concat (aboutToConsume <$> l2) = [])).
  { intros Hs. destruct (gate_only _ _ _ _ Hgate Hs) as (Hn1 & Hn2 & _).
    split; apply idle_hands; assumption. }
  clear Hgate.
  destruct point as [[|] continue | [|] | | idle | buffer idle | buffer idle | buffer idle
                    | what buffer idle | buffer idle | idle | | ];
    step_cases Hstep r;
    try (destruct (Hothers eq_refl) as [[E1 E2] [E3 E4]]);
    clear Hothers; split; order; rewrite ?E1, ?E2, ?E3, ?E4, ?Hout in *; order;
    auto; try congruence.
  - rewrite <- (H2 Hstop). apply prefix_app, prefix_cons, prefix_nil.
  - intros Hrun. rewrite <- (H2 Hrun), <- app_assoc. reflexivity.
  - intros Hrun. rewrite <- (H2 Hrun), <- app_assoc. reflexivity.
  - intros Hrun. rewrite <- (H2 Hrun), <- app_assoc. reflexivity.
  - intros Hrun. rewrite <- (H2 Hrun), <- app_assoc. reflexivity.
Qed.

Lemma inOrder_act sizes action s s' :
  gate (receiver s) (servicers s) ->
  inOrder sizes s -> act action s = Some s' ->
  inOrder (sizes ++ datagramSizes [action]) s'.
Proof.
  intros Hgate Hord Hact. destruct s as [r threads]. fields.
  destruct action as [error bytesReceived | thread | ].
  - destruct (act_complete _ _ _ _ Hact)
      as (buffer & posted & r' & service & continue & _ & _ & Htake & ->). fields.
    eapply inOrder_take; eassumption.
  - destruct (act_advance _ _ _ Hact) as (l1 & point & l2 & r' & next & Hl & _ & Hstep & ->).
    fields. subst threads. rewrite app_nil_r. eapply inOrder_step; eassumption.
  - injection Hact as <-. fields. rewrite app_nil_r. destruct Hord as [H1 H2].
    split; order; auto. discriminate.
Qed.

Lemma inOrder_run actions : forall n sizes s s',
  invariant n s -> 0 <= n -> n + Z.of_nat (length actions) < size_t_max ->
  inOrder sizes s -> run actions s = Some s' ->
  inOrder (sizes ++ datagramSizes actions) s'.
Proof.
  induction actions as [|action actions IH]; intros n sizes s s' Hinv Hn0 Hn Hord Hrun;
    cbn [run] in Hrun.
  - injection Hrun as <-. rewrite app_nil_r. exact Hord.
  - destruct (act action s) as [s1|] eqn:Hact; [|discriminate]. cbn in Hrun.
    cbn [length] in Hn.
    assert (Hsizes : datagramSizes (action :: actions)
                     = datagramSizes [action] ++ datagramSizes actions).
    { unfold datagramSizes. cbn [omap list_omap]. destruct (datagramSize action); reflexivity. }
    rewrite Hsizes, app_assoc.
    apply (IH (n + 1) _ s1); try lia.
    + apply (invariant_act n action s s1); try assumption. lia.
    + apply (inOrder_act _ _ s); [apply (inv_gate _ _ Hinv) | exact Hord | exact Hact].
    + exact Hrun.
Qed.

(** X22. As long as the actions are fewer than [size_t_max], the consumer
    is handed the datagrams in the order of their arrival, each once: the
    sizes of the buffers handed to it are the first of the sizes of the
    datagrams received without error; and they are all of them when no
    thread is inside [handleReceive], the receiver is not stopping and no
    exception other than a [std::exception] has left [handleReceive]. *)
Theorem consumed_in_arrival_order
    calls bufferConsumer bufferSize bufferCount unset group interface port r actions s :
  start calls bufferConsumer bufferSize bufferCount (make unset group interface port)
    = Returned r ->
  run actions {| receiver := r; servicers := [] |} = Some s ->
  Z.of_nat (length actions) < size_t_max ->
  used <$> consumed (trace (receiver s)) `prefix_of` datagramSizes actions /\
  (quiescent s -> stopping_ (receiver s) = false -> ~ escaped (receiver s) ->
   used <$> consumed (trace (receiver s)) = datagramSizes actions).
Proof.
  intros Hstart Hrun Hlen.
  pose proof (invariant_started _ _ _ _ _ _ _ _ _ Hstart) as Hinv.
  assert (Hfirst : inOrder [] {| receiver := r; servicers := [] |}).
  { destruct (start_returned _ _ _ _ _ _ Hstart)
      as (r1 & -> & _ & _ & _ & _ & _ & _ & Hq & _ & _ & _ & events & Htrace & _ & Hnone & _).
    destruct (core_eq _ _ (core_startReceive r1)) as (_ & Hq1 & _).
    assert (Hsame : consumed (trace (startReceive r1)) = consumed (trace r1)).
    { destruct (trace_startReceive r1) as [->|[buffer ->]]; [reflexivity|].
      rewrite consumed_app. cbn. apply app_nil_r. }
    split; unfold awaiting; fields; rewrite Hsame, Htrace, ?Hq1, ?Hq;
      cbn [make trace queue_ app]; rewrite Hnone; cbn; [apply prefix_nil | auto]. }
  pose proof (inOrder_run actions 0 [] _ s Hinv ltac:(lia) ltac:(lia) Hfirst Hrun) as [H1 H2].
  cbn [app] in *. split.
  - rewrite fmap_app in H1. eapply prefix_app_l, H1.
  - intros Hquiet Hstop Hnot. rewrite <- (H2 Hstop).
    pose proof (invariant_run actions 0 _ s Hinv ltac:(lia) ltac:(lia) Hrun) as [_ _ _ Hgate].
    unfold quiescent in Hquiet. unfold awaiting. rewrite Hquiet in *.
    destruct (gate_quiescent _ Hgate Hstop Hnot) as [Hout Hinc]. rewrite Hout, Hinc. cbn.
    rewrite app_nil_r. reflexivity.
Qed.

End Receiver.

Lemma start_posts_one_receive_witness :
  buffers_ startedReceiver =
    (fun i => {| address := i; capacity := 64; used := 0 |}) <$> seq 0 2 /\
  stopping_ startedReceiver = false /\
  match reverse (buffers_ startedReceiver) with
  | [] =>
      socket_ startedReceiver = [] /\ idleBufferPool_ startedReceiver = [] /\
      readInProgress_ startedReceiver = false /\
      noBufferAvailable_ startedReceiver = 1 /\
      filter isReceive (trace startedReceiver) = []
  | newest :: others =>
      socket_ startedReceiver = [newest] /\ idleBufferPool_ startedReceiver = others /\
      readInProgress_ startedReceiver = true /\
      noBufferAvailable_ startedReceiver = 0 /\
      filter isReceive (trace startedReceiver) = [AsyncReceiveFrom newest]
  end.
Proof.
  apply (@start_posts_one_receive nat countingConsumer allCallsSucceed O 64 2%nat
           O "239.255.0.1" "0.0.0.0" 30001 startedReceiver).
  reflexivity.
Defined.

Lemma consumer_exception_reported_witness :
  (exists r',
     consumePacket (BufferConsumer0 := throwingConsumer)
       {| address := 1; capacity := 64; used := 20 |} startedReceiver []
       = (r', Some [{| address := 1; capacity := 64; used := 20 |}]) /\
     consumer_ r' = 1%nat /\
     bytesProcessed_ r' = wrap (bytesProcessed_ startedReceiver + 20) /\
     stopping_ r' = stopping_ startedReceiver || negb false /\
     trace r' = trace startedReceiver ++
                [ConsumeBuffer {| address := 1; capacity := 64; used := 20 |};
                 ReportDecodingError "bad packet"] ++ [SocketCancel]) /\
  (exists r',
     consumePacket (BufferConsumer0 := escapingConsumer)
       {| address := 1; capacity := 64; used := 20 |} startedReceiver [] = (r', None) /\
     serviceStep (BufferConsumer0 := escapingConsumer)
       (AtConsume {| address := 1; capacity := 64; used := 20 |} []) startedReceiver
       = (r', None) /\
     consumer_ r' = 1%nat /\
     bytesProcessed_ r' = wrap (bytesProcessed_ startedReceiver + 20) /\
     stopping_ r' = stopping_ startedReceiver /\ queue_ r' = queue_ startedReceiver /\
     idleBufferPool_ r' = idleBufferPool_ startedReceiver /\
     trace r' = trace startedReceiver ++
                [ConsumeBuffer {| address := 1; capacity := 64; used := 20 |};
                 UncaughtException]).
Proof.
  split.
  - apply (proj1 (@consumer_exception_reported nat throwingConsumer
                    {| address := 1; capacity := 64; used := 20 |} startedReceiver []
                    1%nat) "bad packet" 1%nat false); reflexivity.
  - apply (proj2 (@consumer_exception_reported nat escapingConsumer
                    {| address := 1; capacity := 64; used := 20 |} startedReceiver []
                    1%nat)); reflexivity.
Defined.

Lemma one_receive_at_a_time_witness :
  (length (socket_ (receiver afterThreeDatagrams)) <= 1)%nat /\
  (readInProgress_ (receiver afterThreeDatagrams) = true <->
   socket_ (receiver afterThreeDatagrams) <> []).
Proof.
  apply (@one_receive_at_a_time nat countingConsumer allCallsSucceed O 64 2%nat O
           "239.255.0.1" "0.0.0.0" 30001 startedReceiver threeDatagrams afterThreeDatagrams);
    reflexivity.
Defined.

Lemma buffers_in_one_place_witness :
  NoDup (address <$> whereabouts afterThreeDatagrams) /\
  (forall buffer, buffer ∈ whereabouts afterThreeDatagrams -> (address buffer < 2)%nat) /\
  (stopping_ (receiver afterThreeDatagrams) = false ->
   ~ escaped (receiver afterThreeDatagrams) ->
   address <$> whereabouts afterThreeDatagrams ≡ₚ seq 0 2).
Proof.
  apply (@buffers_in_one_place nat countingConsumer allCallsSucceed O 64 2%nat O
           "239.255.0.1" "0.0.0.0" 30001 startedReceiver threeDatagrams afterThreeDatagrams);
    reflexivity.
Defined.

Lemma largestPacket_is_maximum_witness :
  largestPacket_ (receiver afterThreeDatagrams) =
  foldl Z.max (largestPacket_ startedReceiver) (datagramSizes threeDatagrams).
Proof.
  apply (@largestPacket_is_maximum nat countingConsumer threeDatagrams
           {| receiver := startedReceiver; servicers := [] |} afterThreeDatagrams).
  reflexivity.
Defined.

Lemma after_stop_witness :
  stopping_ (receiver postedAfterStop) = true /\
  exists events,
    trace (receiver postedAfterStop) = trace (receiver stoppedWhilePosting) ++ events /\
    (length (filter isReceive events)
     <= length (filter aboutToPost (servicers stoppedWhilePosting)))%nat /\
    (length (consumed events)
     <= length (concat (aboutToConsume <$> servicers stoppedWhilePosting)))%nat.
Proof.
  apply (@after_stop nat countingConsumer postAfterStop stoppedWhilePosting postedAfterStop);
    reflexivity.
Defined.

(** [stop] is called while a thread is about to hand a buffer to the
    consumer: the thread hands it over all the same. *)
Example stop_while_consuming :
  servicers stoppedWhileConsuming
    = [AtConsume {| address := 1; capacity := 64; used := 10 |} []] /\
  stopping_ (receiver stoppedWhileConsuming) = true /\
  consumed (trace (receiver stoppedWhileConsuming)) = [] /\
  servicers drained = [] /\
  consumed (trace (receiver drained)) = [{| address := 1; capacity := 64; used := 10 |}] /\
  filter isReceive (trace (receiver drained)) =
    [AsyncReceiveFrom {| address := 1; capacity := 64; used := 0 |};
     AsyncReceiveFrom {| address := 0; capacity := 64; used := 0 |}].
Proof. repeat split. Qed.

(** [stop] is called while a thread is inside [startReceive], past the
    test of [stopping_]: the thread posts its receive all the same, after
    the socket's operations were cancelled, and the receive stays
    posted. *)
Example stop_while_posting :
  servicers stoppedWhilePosting = [AtPost true] /\
  stopping_ (receiver stoppedWhilePosting) = true /\
  socket_ (receiver stoppedWhilePosting) = [] /\
  filter isReceive (trace (receiver stoppedWhilePosting)) =
    [AsyncReceiveFrom {| address := 1; capacity := 64; used := 0 |}] /\
  servicers postedAfterStop = [] /\
  stopping_ (receiver postedAfterStop) = true /\
  socket_ (receiver postedAfterStop) = [{| address := 0; capacity := 64; used := 0 |}] /\
  readInProgress_ (receiver postedAfterStop) = true /\
  filter isReceive (trace (receiver postedAfterStop)) =
    [AsyncReceiveFrom {| address := 1; capacity := 64; used := 0 |};
     AsyncReceiveFrom {| address := 0; capacity := 64; used := 0 |}] /\
  last (trace (receiver postedAfterStop)) = Some
    (AsyncReceiveFrom {| address := 0; capacity := 64; used := 0 |}) /\
  consumed (trace (receiver postedAfterStop)) = [].
Proof. repeat split. Qed.

Lemma bytes_conserved_witness :
  bytesReceived_ (receiver afterThreeDatagrams)
    = foldr Z.add 0 (datagramSizes threeDatagrams) /\
  0 <= bytesProcessed_ (receiver afterThreeDatagrams)
    <= bytesReceived_ (receiver afterThreeDatagrams) /\
  (stopping_ (receiver afterThreeDatagrams) = false ->
   bytesReceived_ (receiver afterThreeDatagrams) - bytesProcessed_ (receiver afterThreeDatagrams)
     = usedBytes (awaiting afterThreeDatagrams)) /\
  (forall socketReadable,
     0 <= socketReadable ->
     socketReadable + bytesReceived_ (receiver afterThreeDatagrams) < size_t_max ->
     bytesReadable socketReadable (receiver afterThreeDatagrams) =
       socketReadable + (bytesReceived_ (receiver afterThreeDatagrams)
                         - bytesProcessed_ (receiver afterThreeDatagrams))) /\
  (Z.of_nat (length threeDatagrams) < size_t_max -> quiescent afterThreeDatagrams ->
   stopping_ (receiver afterThreeDatagrams) = false ->
   ~ escaped (receiver afterThreeDatagrams) ->
   bytesProcessed_ (receiver afterThreeDatagrams)
     = bytesReceived_ (receiver afterThreeDatagrams)).
Proof.
  apply (@bytes_conserved nat countingConsumer allCallsSucceed O 64 2%nat O
           "239.255.0.1" "0.0.0.0" 30001 startedReceiver threeDatagrams afterThreeDatagrams);
    reflexivity.
Defined.

Lemma consumed_in_arrival_order_witness :
  used <$> consumed (trace (receiver afterThreeDatagrams))
    `prefix_of` datagramSizes threeDatagrams /\
  (quiescent afterThreeDatagrams -> stopping_ (receiver afterThreeDatagrams) = false ->
   ~ escaped (receiver afterThreeDatagrams) ->
   used <$> consumed (trace (receiver afterThreeDatagrams)) = datagramSizes threeDatagrams).
Proof.
  apply (@consumed_in_arrival_order nat countingConsumer allCallsSucceed O 64 2%nat O
           "239.255.0.1" "0.0.0.0" 30001 startedReceiver threeDatagrams afterThreeDatagrams);
    reflexivity.
Defined.

Example three_datagrams_in_order :
  quiescent afterThreeDatagrams /\
  stopping_ (receiver afterThreeDatagrams) = false /\
  ~ escaped (receiver afterThreeDatagrams) /\
  used <$> consumed (trace (receiver afterThreeDatagrams)) = [10; 20] /\
  datagramSizes threeDatagrams = [10; 20] /\
  bytesReceived_ (receiver afterThreeDatagrams) = 30 /\
  bytesProcessed_ (receiver afterThreeDatagrams) = 30 /\
  largestPacket_ (receiver afterThreeDatagrams) = 20 /\
  address <$> whereabouts afterThreeDatagrams = [0%nat; 1%nat].
Proof.
  split; [reflexivity|]. split; [reflexivity|]. split; [|repeat split].
  unfold escaped. rewrite list_elem_of_In. vm_compute. intuition discriminate.
Qed.

(** An exception that is not a [std::exception] leaves [handleReceive]:
    the buffer that was handed to the consumer is in no place any more, and
    the datagram that arrives next stays in the queue, its bytes received
    and not processed, while no thread is inside [handleReceive] and the
    receiver is not stopping. *)
Example exception_loses_buffer :
  exists s,
    afterExceptionEscapes = Some s /\
    quiescent s /\ stopping_ (receiver s) = false /\ escaped (receiver s) /\
    whereabouts s = [{| address := 0; capacity := 64; used := 20 |}] /\
    datagramSizes exceptionEscapes = [10; 20] /\
    used <$> consumed (trace (receiver s)) = [10] /\
    bytesReceived_ (receiver s) = 30 /\ bytesProcessed_ (receiver s) = 10.
Proof.
  eexists. split; [reflexivity|]. split; [reflexivity|]. split; [reflexivity|].
  split; [|repeat split]. unfold escaped. rewrite list_elem_of_In. vm_compute. auto 20.
Qed.

End MulticastReceiverLaws.


(** * Properties of the profiler *)

Module ProfilerFacts.
Import Profiler.

Section Clock.

Context {PROFILER_TIME_TYPE : Type}.
Context (PROFILER_DIFF_MSEC : PROFILER_TIME_TYPE -> PROFILER_TIME_TYPE -> PrimFloat.float).

Implicit Types (instance : ProfileInstance PROFILER_TIME_TYPE) (accumulator : ProfileAccumulator).

Lemma small z : 0 <= z < size_t_max -> wrap z = z.
Proof. apply Z.mod_small. Qed.

(** X23. [pause] returns whether the instance was running and leaves it
    stopped; [resume] with that value restores the state: a running
    instance runs again, timed from the moment of [resume], with the time
    up to the pause added to [sum_]; an instance that was not running
    stays as it was and adds no time. Each call is counted. *)
Theorem pause_resume_restores now now' instance accumulator paused instance1 accumulator1 :
  pause PROFILER_DIFF_MSEC now instance accumulator = Some (paused, instance1, accumulator1) ->
  let '(instance2, accumulator2) := resume paused now' instance1 accumulator1 in
  paused = running_ instance /\ running_ instance1 = false /\
  running_ instance2 = running_ instance /\
  pauses_ accumulator2 = wrap (pauses_ accumulator + 1) /\
  resumes_ accumulator2 = wrap (resumes_ accumulator + 1) /\
  entries_ accumulator2 = entries_ accumulator /\ exits_ accumulator2 = exits_ accumulator /\
  (if running_ instance
   then start_ instance2 = now' /\
        sum_ accumulator2 =
          PrimFloat.add (sum_ accumulator) (PROFILER_DIFF_MSEC now (start_ instance))
   else instance2 = instance /\ sum_ accumulator2 = sum_ accumulator).
Proof.
  unfold pause, stop, resume. destruct instance as [start [|]]; cbn.
  - case_decide; [|discriminate]. cbn. case_decide; cbn; intros [= <- <- <-]; cbn; repeat split.
  - intros [= <- <- <-]. cbn. repeat split.
Qed.

(** X25. A profile point entered [n] times, each time inside the one
    before: the [assert] of [stop] holds every time, [entries_] and
    [exits_] grow by [n], and [recursions_] grows by one for every instance
    that ends while another one is alive, that is by [n - 1] when none was
    alive before and by [n] otherwise. *)
Theorem nested_counts_recursions times : forall accumulator,
  exits_ accumulator <= entries_ accumulator ->
  0 <= exits_ accumulator ->
  entries_ accumulator + Z.of_nat (length times) < size_t_max ->
  0 <= recursions_ accumulator ->
  recursions_ accumulator + Z.of_nat (length times) < size_t_max ->
  exists accumulator',
    nested PROFILER_DIFF_MSEC times accumulator = Some accumulator' /\
    entries_ accumulator' = entries_ accumulator + Z.of_nat (length times) /\
    exits_ accumulator' = exits_ accumulator + Z.of_nat (length times) /\
    recursions_ accumulator' =
      recursions_ accumulator +
      (if decide (entries_ accumulator = exits_ accumulator)
       then Z.max 0 (Z.of_nat (length times) - 1)
       else Z.of_nat (length times)) /\
    pauses_ accumulator' = pauses_ accumulator /\ resumes_ accumulator' = resumes_ accumulator.
Proof.
  induction times as [|[entered returned] times IH]; intros accumulator Hle Hexits Hmax Hrec Hrmax.
  - exists accumulator. cbn. repeat split; try lia. case_decide; lia.
  - cbn [length] in Hmax, Hrmax.
    assert (Hsmall : wrap (entries_ accumulator + 1) = entries_ accumulator + 1)
      by (apply small; lia).
    destruct (IH (set_entries_ (wrap (entries_ accumulator + 1)) accumulator))
      as (inner & Hinner & He & Hx & Hr & Hp & Hs);
      [cbn; rewrite ?Hsmall; lia ..|].
    cbn in He, Hx, Hr, Hp, Hs. rewrite Hsmall in He, Hr.
    rewrite decide_False in Hr by lia.
    cbn [nested]. unfold enter. rewrite Hinner. cbn [mbind option_bind].
    unfold leave, stop. cbn [running_ start_ addLapse entries_ exits_].
    rewrite decide_True by lia. rewrite He, Hx.
    rewrite (small (exits_ accumulator + _ + 1)) by lia.
    destruct (decide (entries_ accumulator + 1 + Z.of_nat (length times)
                      <> exits_ accumulator + Z.of_nat (length times) + 1)) as [Hne|Heq];
      cbn [mbind option_bind]; (eexists; split; [reflexivity|]);
      cbn [entries_ exits_ recursions_ pauses_ resumes_ set_exits_ addRecursion addLapse length];
      rewrite ?He, ?Hx, ?Hr, ?Hp, ?Hs, ?small by lia; case_decide; repeat split; lia.
Qed.

(** X24. A scope that pauses and resumes its instance adds to [sum_] the
    time from its entry to the pause and the time from the resume to its
    end, not the time in between; it counts one entry, one exit, one pause
    and one resume, and no recursion. *)
Theorem paused_time_not_counted entered paused resumed returned accumulator :
  entries_ accumulator = exits_ accumulator ->
  0 <= entries_ accumulator -> entries_ accumulator + 1 < size_t_max ->
  exists accumulator',
    pausedScope PROFILER_DIFF_MSEC entered paused resumed returned accumulator
      = Some accumulator' /\
    sum_ accumulator' =
      PrimFloat.add
        (PrimFloat.add (sum_ accumulator) (PROFILER_DIFF_MSEC paused entered))
        (PROFILER_DIFF_MSEC returned resumed) /\
    entries_ accumulator' = entries_ accumulator + 1 /\
    exits_ accumulator' = exits_ accumulator + 1 /\
    pauses_ accumulator' = wrap (pauses_ accumulator + 1) /\
    resumes_ accumulator' = wrap (resumes_ accumulator + 1) /\
    recursions_ accumulator' = recursions_ accumulator /\
    recursiveSum_ accumulator' = recursiveSum_ accumulator.
Proof.
  intros Heq Hpos Hmax.
  assert (Hsmall : wrap (entries_ accumulator + 1) = entries_ accumulator + 1)
    by (apply small; lia).
  assert (Hsmall' : wrap (exits_ accumulator + 1) = exits_ accumulator + 1)
    by (apply small; lia).
  unfold pausedScope, enter, pause, stop, resume, leave.
  cbn [running_ start_ addLapse addRecursion entries_ exits_ set_entries_ set_pauses_
       set_resumes_ set_exits_ mbind option_bind negb andb].
  rewrite Hsmall, Hsmall'.
  rewrite decide_True by lia. rewrite decide_False by lia.
  cbn [running_ start_ addLapse addRecursion entries_ exits_ set_entries_ set_pauses_
       set_resumes_ set_exits_ mbind option_bind negb andb].
  unfold stop.
  cbn [running_ start_ addLapse addRecursion entries_ exits_ set_entries_ set_pauses_
       set_resumes_ set_exits_ mbind option_bind negb andb].
  rewrite Hsmall'. rewrite decide_True by lia. rewrite decide_False by lia.
  cbn [mbind option_bind]. eexists. split; [reflexivity|].
  cbn. rewrite ?Hsmall'. repeat split.
Qed.

End Clock.

Lemma pause_resume_restores_witness :
  let '(instance2, accumulator2) :=
    resume true 40 (mkInstance 10 false)
      (set_pauses_ 1 (addLapse (tickLapse 25 10) (set_entries_ 1 newAccumulator))) in
  true = running_ (mkInstance 10 true) /\ running_ (mkInstance 10 false) = false /\
  running_ instance2 = running_ (mkInstance 10 true) /\
  pauses_ accumulator2 = wrap (pauses_ (set_entries_ 1 newAccumulator) + 1) /\
  resumes_ accumulator2 = wrap (resumes_ (set_entries_ 1 newAccumulator) + 1) /\
  entries_ accumulator2 = entries_ (set_entries_ 1 newAccumulator) /\
  exits_ accumulator2 = exits_ (set_entries_ 1 newAccumulator) /\
  (if running_ (mkInstance 10 true)
   then start_ instance2 = 40 /\
        sum_ accumulator2 =
          PrimFloat.add (sum_ (set_entries_ 1 newAccumulator))
            (tickLapse 25 (start_ (mkInstance 10 true)))
   else instance2 = mkInstance 10 true /\
        sum_ accumulator2 = sum_ (set_entries_ 1 newAccumulator)).
Proof.
  apply (pause_resume_restores tickLapse 25 40 (mkInstance 10 true)
           (set_entries_ 1 newAccumulator) true (mkInstance 10 false)
           (set_pauses_ 1 (addLapse (tickLapse 25 10) (set_entries_ 1 newAccumulator)))).
  reflexivity.
Defined.

Lemma paused_time_not_counted_witness :
  exists accumulator',
    pausedScope tickLapse 10 25 40 50 newAccumulator = Some accumulator' /\
    sum_ accumulator' =
      PrimFloat.add (PrimFloat.add (sum_ newAccumulator) (tickLapse 25 10)) (tickLapse 50 40) /\
    entries_ accumulator' = entries_ newAccumulator + 1 /\
    exits_ accumulator' = exits_ newAccumulator + 1 /\
    pauses_ accumulator' = wrap (pauses_ newAccumulator + 1) /\
    resumes_ accumulator' = wrap (resumes_ newAccumulator + 1) /\
    recursions_ accumulator' = recursions_ newAccumulator /\
    recursiveSum_ accumulator' = recursiveSum_ newAccumulator.
Proof.
  apply (paused_time_not_counted tickLapse 10 25 40 50 newAccumulator);
    [reflexivity | simpl; lia | reflexivity].
Defined.

Lemma nested_counts_recursions_witness :
  exists accumulator',
    nested tickLapse [(0, 90); (10, 80); (20, 70)] newAccumulator = Some accumulator' /\
    entries_ accumulator' = entries_ newAccumulator + Z.of_nat 3 /\
    exits_ accumulator' = exits_ newAccumulator + Z.of_nat 3 /\
    recursions_ accumulator' =
      recursions_ newAccumulator +
      (if decide (entries_ newAccumulator = exits_ newAccumulator)
       then Z.max 0 (Z.of_nat 3 - 1)
       else Z.of_nat 3) /\
    pauses_ accumulator' = pauses_ newAccumulator /\
    resumes_ accumulator' = resumes_ newAccumulator.
Proof.
  apply (nested_counts_recursions tickLapse [(0, 90); (10, 80); (20, 70)] newAccumulator);
    simpl; first [lia | reflexivity].
Defined.

Example paused_scope_runs :
  (accumulator ← pausedScope tickLapse 10 25 40 50 newAccumulator;
   Some (sum_ accumulator, sumOfSquares_ accumulator, entries_ accumulator,
         exits_ accumulator, pauses_ accumulator, resumes_ accumulator,
         recursions_ accumulator))
  = Some (PrimFloat.of_uint63 (Uint63.of_Z 25), PrimFloat.of_uint63 (Uint63.of_Z 325),
          1, 1, 1, 1, 0).
Proof. vm_compute. reflexivity. Qed.

End ProfilerFacts.
